(** * rtfsig: the RTF analyser of [rtfsig/core.py]

    A shallow embedding of [RtfAnalyser] and of the part of Python's [re]
    module that its seven patterns use, of the rule generator of
    [rtfsig/yara.py] and of the console program of [rtfsig/app.py],
    followed by the properties of the analyser stated in the specification
    and by further properties of the three modules. *)

From Stdlib Require Import Ascii String List Arith Lia Bool.
From Stdlib Require DecimalString.
From stdpp Require Import base decidable list gmap strings.

Import ListNotations.
Local Open Scope list_scope.

#[local] Set Warnings "-clear-no-such-hyp".
#[local] Set Warnings "-register-all".

(** ** Text and bytes *)

(** A Python [str] that holds ASCII only (the result of
    [data.decode("ascii", "ignore")]) is a list of characters; a Python
    [bytes] value is a list of bytes. *)
Module Py.

Abbreviation str := (list ascii).
Abbreviation bytes := (list Byte.byte).

(** String literals of the source are written [s#"..."]. *)
Definition lit (s : string) : str := list_ascii_of_string s.
Arguments lit : simpl never.

Definition code (a : ascii) : nat := nat_of_ascii a.

(** [chr(x)] for a byte value [x]. *)
Definition chr (x : Byte.byte) : ascii := ascii_of_byte x.

(** [c.isspace()] on ASCII, which is also what [\s] matches in a [str]
    pattern: TAB, LF, VT, FF, CR, the four separators FS, GS, RS, US, and the
    space. *)
Definition isspace (a : ascii) : bool :=
  let n := code a in
  ((9 <=? n) && (n <=? 13)) || ((28 <=? n) && (n <=? 31)) || (n =? 32).

(** [\d] on ASCII. *)
Definition isdigit (a : ascii) : bool :=
  let n := code a in (48 <=? n) && (n <=? 57).

(** [s.strip()]: whitespace removed at both ends. *)
Fixpoint lstrip (s : str) : str :=
  match s with
  | a :: s' => if isspace a then lstrip s' else s
  | [] => []
  end.

Definition rstrip (s : str) : str := rev (lstrip (rev s)).

Definition strip (s : str) : str := rstrip (lstrip s).

(** The longest prefix of [s] whose characters all satisfy [p], and what
    follows it. *)
Fixpoint takewhile (p : ascii -> bool) (s : str) : str :=
  match s with
  | a :: s' => if p a then a :: takewhile p s' else []
  | [] => []
  end.

Fixpoint dropwhile (p : ascii -> bool) (s : str) : str :=
  match s with
  | a :: s' => if p a then dropwhile p s' else s
  | [] => []
  end.

(** [s[i:j]] for [0 <= i <= j]. *)
Definition slice (i j : nat) (s : str) : str := take (j - i) (drop i s).

(** [w in s] for strings: [w] occurs as a substring of [s]. *)
Fixpoint startswith (w s : str) : bool :=
  match w, s with
  | [], _ => true
  | a :: w', b :: s' => Ascii.eqb a b && startswith w' s'
  | _ :: _, [] => false
  end.

Fixpoint contains (w s : str) : bool :=
  startswith w s ||
  match s with
  | [] => false
  | _ :: s' => contains w s'
  end.

(** [string.printable]: digits, letters, punctuation and the six whitespace
    characters of [string.whitespace], in the order of the library. *)
Definition printable : str :=
  lit "0123456789abcdefghijklmnopqrstuvwxyzABCDEFGHIJKLMNOPQRSTUVWXYZ!"
  ++ [ascii_of_nat 34]
  ++ lit "#$%&'()*+,-./:;<=>?@[\]^_`{|}~ "
  ++ map ascii_of_nat [9; 10; 13; 11; 12].

(** [c in string.printable] for a single character. *)
Definition in_printable (a : ascii) : bool :=
  existsb (Ascii.eqb a) printable.

(** [data.decode("ascii", "ignore")]: bytes above 127 are dropped, the others
    are the characters of the same code. *)
Definition decode_ascii_ignore (data : bytes) : str :=
  map chr (filter (fun b => N.ltb (Byte.to_N b) 128) data).

(** [s.encode("ascii")] restricted to ASCII text, used to write the byte
    literals of the tests. *)
Definition blit (s : string) : bytes := list_byte_of_string s.

End Py.

Notation "s# x" := (Py.lit x) (at level 1, x at level 0, format "s# x").

(** ** The fragment of [re] used by the analyser *)

(** A backtracking matcher with the priorities of Python's engine: the
    alternatives of [|] are tried from left to right, [*] and [+] are greedy,
    and a later part of the pattern that fails sends the matcher back into
    the most recent choice.  It is written in continuation-passing style; the
    continuation is the rest of the pattern. *)
Module Re.

Import Py.

Inductive regex : Type :=
  | Eps
  | Cls (p : ascii -> bool)
  | Seq (r1 r2 : regex)
  | Alt (r1 r2 : regex)
  | Star (r : regex)
  | Grp (i : nat) (r : regex).

(** Captured groups, most recent first. *)
Definition caps := list (nat * str).

Definition Chr (a : ascii) : regex := Cls (Ascii.eqb a).
Definition Plus (r : regex) : regex := Seq r (Star r).
Definition Opt (r : regex) : regex := Alt r Eps.

(** A literal word, and an alternation of literal words [w1|w2|...]. *)
Fixpoint Lit (w : str) : regex :=
  match w with
  | [] => Eps
  | a :: w' => Seq (Chr a) (Lit w')
  end.

Fixpoint Alts (rs : list regex) : regex :=
  match rs with
  | [] => Cls (fun _ => false)
  | [r] => r
  | r :: rs' => Alt r (Alts rs')
  end.

(** [mtch r s c k] matches [r] at the front of [s] and hands what is left of
    [s], with the groups captured so far, to [k]; [None] is failure, which
    makes the caller try its next choice.  An iteration of [Star] that
    consumes nothing is not repeated, so that the loop runs at most
    [length s] times. *)
Fixpoint mtch {A : Type} (r : regex) (s : str) (c : caps)
    (k : str -> caps -> option A) {struct r} : option A :=
  match r with
  | Eps => k s c
  | Cls p =>
      match s with
      | a :: s' => if p a then k s' c else None
      | [] => None
      end
  | Seq r1 r2 => mtch r1 s c (fun s' c' => mtch r2 s' c' k)
  | Alt r1 r2 =>
      match mtch r1 s c k with
      | Some x => Some x
      | None => mtch r2 s c k
      end
  | Star r1 =>
      (fix loop (n : nat) (s : str) (c : caps) {struct n} : option A :=
         match n with
         | 0 => k s c
         | S n' =>
             match
               mtch r1 s c
                 (fun s' c' =>
                    if length s' <? length s then loop n' s' c' else None)
             with
             | Some x => Some x
             | None => k s c
             end
         end) (length s) s c
  | Grp i r1 =>
      mtch r1 s c
        (fun s' c' => k s' ((i, take (length s - length s') s) :: c'))
  end.

(** A match object: the text of the whole match (group 0) and the groups. *)
Record mobj : Type := MObj { whole : str; groups : caps }.

Fixpoint assoc (i : nat) (c : caps) : option str :=
  match c with
  | [] => None
  | (j, v) :: c' => if i =? j then Some v else assoc i c'
  end.

(** [m.group(i)].  In each pattern of the analyser every group lies on the
    only path through the pattern, so that a match always has all of them;
    for a group that took no part in a match this gives the empty text. *)
Definition group (i : nat) (m : mobj) : str :=
  match i with
  | 0 => whole m
  | _ => default [] (assoc i (groups m))
  end.
Arguments group : simpl never.

(** [pattern.match(s)]: the match object and the text after the match. *)
Definition match_at (r : regex) (s : str) : option (mobj * str) :=
  mtch r s []
    (fun s' c => Some (MObj (take (length s - length s') s) c, s')).

(** The first position of [s], from the left, at which [f] finds something;
    [f] gives what it found and the text after it. *)
Fixpoint first_at {M : Type} (f : str -> option (M * str)) (s : str)
    : option M :=
  match f s with
  | Some (m, _) => Some m
  | None =>
      match s with
      | [] => None
      | _ :: s' => first_at f s'
      end
  end.

(** What [f] finds in [s] from left to right and without overlap: after a
    find the scan resumes where the find ended.  [skip] counts the characters
    of the current find that are still to be passed.  After an empty find
    the scan moves on by one character. *)
Fixpoint scan {M : Type} (f : str -> option (M * str)) (s : str) (skip : nat)
    : list M :=
  match s with
  | [] =>
      match skip, f [] with
      | 0, Some (m, _) => [m]
      | _, _ => []
      end
  | _ :: s' =>
      match skip with
      | S n => scan f s' n
      | 0 =>
          match f s with
          | Some (m, rest) => m :: scan f s' (length s - length rest - 1)
          | None => scan f s' 0
          end
      end
  end.

(** [re.search(r, s)]: the match at the leftmost position that has one. *)
Definition search (r : regex) (s : str) : option mobj :=
  first_at (match_at r) s.

(** [re.finditer(r, s)] as the list of its matches.  None of the patterns of
    the analyser matches the empty string. *)
Definition finditer (r : regex) (s : str) : list mobj :=
  scan (match_at r) s 0.

(** The loop of [Star] on its own, and the order in which a greedy
    repetition of a character class hands its splits to the rest of the
    pattern: the longest first, then one character fewer each time. *)
Definition star_loop {A : Type} (r : regex) (k : str -> caps -> option A)
    : nat -> str -> caps -> option A :=
  fix loop (n : nat) (s : str) (c : caps) {struct n} : option A :=
    match n with
    | 0 => k s c
    | S n' =>
        match
          mtch r s c
            (fun s' c' =>
               if length s' <? length s then loop n' s' c' else None)
        with
        | Some x => Some x
        | None => k s c
        end
    end.

Fixpoint backtrack {A : Type} (k : str -> option A) (s : str) (n : nat)
    : option A :=
  match n with
  | 0 => k s
  | S n' =>
      match k (drop n s) with
      | Some x => Some x
      | None => backtrack k s n'
      end
  end.

End Re.

(** ** The analyser *)

Module Rtfsig.

Import Py Re.

(** *** Exceptions and results *)

Inductive exn : Type :=
  | ValueError
  | TypeError
  | IndexError
  | AttributeError
  | FileNotFoundError
  | ParsingException.

Inductive outcome (A : Type) : Type :=
  | Ok (a : A)
  | Raise (e : exn).
Arguments Ok {A} a.
Arguments Raise {A} e.

Definition bind {A B : Type} (m : outcome A) (f : A -> outcome B) : outcome B :=
  match m with
  | Ok a => f a
  | Raise e => Raise e
  end.

Notation "m >>= f" := (bind m f) (at level 50, left associativity).
Notation "'let!' x ':=' m 'in' k" := (bind m (fun x => k))
  (at level 10, x pattern, m at level 100, k at level 200).

(** [for x in l: body], the loop state threaded through the body. *)
Fixpoint for_each {A S : Type} (l : list A) (body : A -> S -> outcome S)
    (s : S) : outcome S :=
  match l with
  | [] => Ok s
  | x :: l' => let! s' := body x s in for_each l' body s'
  end.

(** The [OBSERVATIONS] dictionary. *)
Definition OBSERVATIONS : gmap string string :=
  list_to_map
    [ ("OBS001", "File contains bytes outside ASCII printable range");
      ("OBS002", "Non-standard RTF file marker found (expected \rtf1)");
      ("OBS003", "Change identifier found which is not in the RSID table (document likely modified)");
      ("OBS004", "Document contains images with a fixed width/height");
      ("OBS005", "Document contains information group tags");
      ("OBS006", "Document contains image identifiers (bliptags)");
      ("OBS007", "Document contains change tracking (RSID tags)") ]%string.

(** [self.results]: two sets of strings and the list of observations. *)
Record results_t : Type := Results {
  loose_strings : gset str;
  strict_strings : gset str;
  observations : list string
}.

(** The object: [self.results], [self._risky_items] and [self._data]; the
    last attribute does not exist until [_parse_data] assigns it. *)
Record analyser : Type := Analyser {
  results : results_t;
  _risky_items : bool;
  _data : option str
}.

Definition set_results (f : results_t -> results_t) (self : analyser) : analyser :=
  Analyser (f (results self)) (_risky_items self) (_data self).

(** [self.results["loose_strings"].add(x)] and its two siblings. *)
Definition loose_add (x : str) : analyser -> analyser :=
  set_results (fun r =>
    Results ({[x]} ∪ loose_strings r) (strict_strings r) (observations r)).

Definition strict_add (x : str) : analyser -> analyser :=
  set_results (fun r =>
    Results (loose_strings r) ({[x]} ∪ strict_strings r) (observations r)).

Definition observations_append (ref : string) : analyser -> analyser :=
  set_results (fun r =>
    Results (loose_strings r) (strict_strings r) (observations r ++ [ref])).

(** Reading [self._data]. *)
Definition get_data (self : analyser) : outcome str :=
  match _data self with
  | Some d => Ok d
  | None => Raise AttributeError
  end.

(** *** The values a caller can pass as [data] *)

Inductive pyval : Type :=
  | PNone
  | PBytes (b : bytes)
  | PByteArray (b : bytes)
  | PStr (s : str)
  | PInt (n : Z).

(** Truth value of an object in [if x:]. *)
Definition truthy (v : pyval) : bool :=
  match v with
  | PNone => false
  | PBytes b | PByteArray b => negb (bool_decide (b = []))
  | PStr s => negb (bool_decide (s = []))
  | PInt n => negb (Z.eqb n 0)
  end.

(** [isinstance(v, bytes)]; a [bytearray] is not an instance of [bytes]. *)
Definition isinstance_bytes (v : pyval) : option bytes :=
  match v with
  | PBytes b => Some b
  | _ => None
  end.

(** *** The patterns *)

Fixpoint Seqs (rs : list regex) : regex :=
  match rs with
  | [] => Eps
  | [r] => r
  | r :: rs' => Seq r (Seqs rs')
  end.

Definition backslash : ascii := ascii_of_nat 92.

Definition d_ : regex := Cls isdigit.
Definition s_ : regex := Cls isspace.

(** [[^}]] *)
Definition not_rbrace (a : ascii) : bool := negb (Ascii.eqb a "}").

(** [[a-f0-9]] *)
Definition hex_lower (a : ascii) : bool :=
  let n := code a in
  ((97 <=? n) && (n <=? 102)) || ((48 <=? n) && (n <=? 57)).

(** Names of the groups; a named group also has its number. *)
Definition longest_match : nat := 1.
Definition whole_tag : nat := 1.
Definition unique_id : nat := 2.
Definition revision_id : nat := 2.

(** The pattern of [_find_image_sizes]: the group [longest_match] around one
    or more repetitions of [re_image_size], which is a backslash, one of
    [picw|pich|picwgoal|pichgoal], [\d+] and [\s*]. *)
Definition re_image_size : regex :=
  Seqs [ Chr backslash;
         Alts [Lit s#"picw"; Lit s#"pich"; Lit s#"picwgoal"; Lit s#"pichgoal"];
         Plus d_; Star s_ ].

Definition re_image_sizes : regex :=
  Grp longest_match (Plus re_image_size).

Definition info_tags : list str :=
  [ s#"title"; s#"subject"; s#"author"; s#"manager"; s#"category";
    s#"keywords"; s#"operator"; s#"company"; s#"creatim"; s#"revtim";
    s#"doccomm" ].

(** The pattern of [_find_information_group]: the group [whole_tag] around
    [{], [\s*], a backslash, one of the [info_tags] joined by [|], [\s+], a
    second group [[^}]+], [\s*] and [}]. *)
Definition re_info_group : regex :=
  Grp whole_tag
    (Seqs [ Chr "{"; Star s_; Chr backslash; Alts (map Lit info_tags);
            Plus s_; Grp 2 (Plus (Cls not_rbrace)); Star s_; Chr "}" ]).

(** The first pattern of [_find_blip_tags]: a backslash, then the group
    [whole_tag] around [bliptag-?\d+]. *)
Definition re_bliptag : regex :=
  Seqs [ Chr backslash;
         Grp whole_tag (Seqs [ Lit s#"bliptag"; Opt (Chr "-"); Plus d_ ]) ].

(** The second pattern of [_find_blip_tags]: a backslash, then the group
    [whole_tag] around [blipuid\s+] and the group [unique_id], which is
    [[a-f0-9]+]. *)
Definition re_blipuid : regex :=
  Seqs [ Chr backslash;
         Grp whole_tag
           (Seqs [ Lit s#"blipuid"; Plus s_;
                   Grp unique_id (Plus (Cls hex_lower)) ]) ].

(** The table pattern of [_find_rsid_tags]: a backslash, a star, a backslash,
    [rsidtbl], [\s], the group [[^}]+] and [}]. *)
Definition re_rsidtbl : regex :=
  Seqs [ Chr backslash; Chr "*"; Chr backslash; Lit s#"rsidtbl"; s_;
         Grp 1 (Plus (Cls not_rbrace)); Chr "}" ].

(** The revision pattern of [_find_rsid_tags]: the group [whole_tag] around a
    backslash, [rsid] and the group [revision_id], which is [\d+]. *)
Definition re_rsid : regex :=
  Grp whole_tag
    (Seqs [ Chr backslash; Lit s#"rsid"; Grp revision_id (Plus d_) ]).

(** The pattern of a change marker: a backslash, the marker as group 1 and
    [\d+] as group 2. *)
Definition re_marker (marker : str) : regex :=
  Seqs [ Chr backslash; Grp 1 (Lit marker); Grp 2 (Plus d_) ].

Definition change_markers : list str :=
  [ s#"insrsid"; s#"rsidroot"; s#"delrsid"; s#"charrsid"; s#"sectrsid";
    s#"pararsid"; s#"tblrsid" ].

(** *** The methods of [RtfAnalyser] *)

Definition _add_observation (reference : string) (self : analyser)
    : outcome analyser :=
  match OBSERVATIONS !! reference with
  | None => Raise IndexError
  | Some _ => Ok (observations_append reference self)
  end.

Definition _find_image_sizes (self : analyser) : outcome analyser :=
  let! data := get_data self in
  let! (found, self) :=
    for_each (finditer re_image_sizes data)
      (fun m '(found, self) =>
         Ok (found + 1, loose_add (strip (group longest_match m)) self))
      (0, self) in
  if found is 0 then Ok self else _add_observation "OBS004" self.

Definition _find_information_group (self : analyser) : outcome analyser :=
  let! data := get_data self in
  let! (found, self) :=
    for_each (finditer re_info_group data)
      (fun m '(found, self) =>
         Ok (found + 1, loose_add (group whole_tag m) self))
      (0, self) in
  if found is 0 then Ok self else _add_observation "OBS005" self.

Definition _find_blip_tags (self : analyser) : outcome analyser :=
  let! data := get_data self in
  let! self :=
    (if contains s#"bliptag" data then
       let! (found, self) :=
         for_each (finditer re_bliptag data)
           (fun m '(found, self) =>
              Ok (found + 1, loose_add (group whole_tag m) self))
           (0, self) in
       if found is 0 then Ok self else _add_observation "OBS006" self
     else Ok self) in
  if contains s#"blipuid" data then
    let! (found, self) :=
      for_each (finditer re_blipuid data)
        (fun m '(found, self) =>
           Ok (found + 1,
               strict_add (group whole_tag m)
                 (loose_add (group unique_id m) self)))
        (0, self) in
    Ok self
  else Ok self.

Definition _find_rsid_tags (self : analyser) : outcome analyser :=
  let! data := get_data self in
  match search re_rsidtbl data with
  | None => Ok self
  | Some m =>
      let! self := _add_observation "OBS007" self in
      let raw_data := strip (group 1 m) in
      let self := strict_add raw_data self in
      let! (revisions, self) :=
        for_each (finditer re_rsid raw_data)
          (fun m '(revisions, self) =>
             Ok (revisions ++ [group revision_id m],
                 loose_add (group whole_tag m) self))
          ([], self) in
      for_each change_markers
        (fun marker self =>
           for_each (finditer (re_marker marker) data)
             (fun m self =>
                let control_word := group 1 m in
                let unique_id := group 2 m in
                let! self :=
                  (if bool_decide (unique_id ∈ revisions) then Ok self
                   else _add_observation "OBS003" self) in
                Ok (loose_add (control_word ++ unique_id) self))
             self)
        self
  end.

Definition _parse_data (data : bytes) (self : analyser) : outcome analyser :=
  let! self :=
    (if existsb (fun x => negb (in_printable (chr x))) data
     then _add_observation "OBS001" self else Ok self) in
  let text := decode_ascii_ignore data in
  let self := Analyser (results self) (_risky_items self) (Some text) in
  if negb (bool_decide (slice 0 4 text = s#"{\rt")) then Raise ParsingException
  else
    let! self :=
      (if negb (bool_decide (slice 4 6 text = s#"f1"))
       then _add_observation "OBS002" self else Ok self) in
    let! self := _find_rsid_tags self in
    let! self := _find_blip_tags self in
    let! self := _find_image_sizes self in
    if _risky_items self then _find_information_group self else Ok self.

(** The file system as far as [open(filename, "rb").read()] sees it: the
    content of the file of that name, if there is one. *)
Definition filesystem := str -> option bytes.

Definition _parse_file (fs : filesystem) (filename : str) (self : analyser)
    : outcome analyser :=
  match fs filename with
  | None => Raise FileNotFoundError
  | Some data => _parse_data data self
  end.

(** [RtfAnalyser(filename, data, risky_items)]: the object when [__init__]
    returns, or the exception it raises. *)
Definition __init__ (fs : filesystem) (filename : option str) (data : pyval)
    (risky_items : bool) : outcome analyser :=
  let self := Analyser (Results ∅ ∅ []) risky_items None in
  match filename, data with
  | None, PNone => Raise ValueError
  | _, _ =>
      match filename with
      | Some (a :: f) => _parse_file fs (a :: f) self
      | _ =>
          if truthy data then
            match isinstance_bytes data with
            | None => Raise TypeError
            | Some b => _parse_data b self
            end
          else Ok self
      end
  end.

End Rtfsig.

(** ** What a method adds to the results *)

Module Effect.

Import Py Re Rtfsig.

(** Every method leaves [self] as it was except that it adds strings to the
    two sets and appends observations. *)
Definition extend (L S : gset str) (O : list string) (self : analyser)
    : analyser :=
  set_results (fun r =>
    Results (L ∪ loose_strings r) (S ∪ strict_strings r) (observations r ++ O))
    self.

(** Number of times an observation occurs in a list of observations. *)
Definition count (ref : string) (O : list string) : nat :=
  length (filter (fun x => x = ref) O).

(** The set of the texts that [g] takes from the matches [ms]. *)
Definition texts {A : Type} (g : A -> str) (ms : list A) : gset str :=
  list_to_set (map g ms).

(** One observation if there is a match, none otherwise. *)
Definition once (ref : string) {A : Type} (ms : list A) : list string :=
  match ms with
  | [] => []
  | _ :: _ => [ref]
  end.

(** The observations of the cross-reference step: one [OBS003] for each
    change identifier that is not among the revisions. *)
Definition cross_reference (revisions ids : list str) : list string :=
  flat_map
    (fun id => if bool_decide (id ∈ revisions) then [] else ["OBS003"%string])
    ids.

(** The matches of the seven change markers in the order in which the loops
    of [_find_rsid_tags] visit them. *)
Definition marker_matches (data : str) : list mobj :=
  flat_map (fun marker => finditer (re_marker marker) data) change_markers.

(** An extractor run on an object that has its text returns, without an
    exception, the object extended by strings and by observations taken from
    [refs]. *)
Definition extends_with (refs : list string) (self : analyser)
    (o : outcome analyser) : Prop :=
  ∃ L S O, o = Ok (extend L S O self) ∧ Forall (fun ref => ref ∈ refs) O.

(** The four extractors in the order of [_parse_data], the last one under
    its gate. *)
Definition extractors (self : analyser) : outcome analyser :=
  let! self := _find_rsid_tags self in
  let! self := _find_blip_tags self in
  let! self := _find_image_sizes self in
  if _risky_items self then _find_information_group self else Ok self.

(** The test of [_parse_data] for a byte outside [string.printable]. *)
Definition nonprintable (data : bytes) : bool :=
  existsb (fun x => negb (in_printable (chr x))) data.

(** The observations that [_parse_data] raises before it runs the
    extractors. *)
Definition preamble (data : bytes) : list string :=
  (if nonprintable data then ["OBS001"%string] else [])
  ++ (if negb (bool_decide (slice 4 6 (decode_ascii_ignore data) = s#"f1"))
      then ["OBS002"%string] else []).

(** The assignment [self._data = text]. *)
Definition with_data (text : str) (self : analyser) : analyser :=
  Analyser (results self) (_risky_items self) (Some text).

(** The object at the start of [__init__]. *)
Definition fresh (risky_items : bool) : analyser :=
  Analyser (Results ∅ ∅ []) risky_items None.

(** The RTF magic of [_parse_data]. *)
Definition magic : str := s#"{\rt".

End Effect.

(** ** What the patterns look for, without the matcher *)

(** Each pattern of the analyser is described again as a function that reads
    the text directly: the words that must be present, then the longest run
    of the characters of a class.  The properties below show that the
    matcher finds exactly this. *)
Module Spec.

Import Py Re Rtfsig.

(** [s] starts with the word [w]: what follows the word. *)
Definition word_at (w s : str) : option str :=
  if startswith w s then Some (drop (length w) s) else None.

(** One or more characters of the class [p], as many as there are: the run
    and what follows it. *)
Definition run_at (p : ascii -> bool) (s : str) : option (str * str) :=
  match takewhile p s with
  | [] => None
  | ds => Some (ds, dropwhile p s)
  end.

(** The first word of [ws] that [s] starts with and after which [next]
    finds what it wants. *)
Fixpoint one_of {B : Type} (ws : list str) (next : str -> option B) (s : str)
    : option B :=
  match ws with
  | [] => None
  | w :: ws' =>
      match word_at w s ≫= next with
      | Some x => Some x
      | None => one_of ws' next s
      end
  end.

(** A control word with a number: a backslash, the word, one or more
    digits.  Gives the digits and what follows them. *)
Definition marker_at (marker s : str) : option (str * str) :=
  word_at (backslash :: marker) s ≫= run_at isdigit.

(** [\bliptag], an optional minus sign, digits.  Gives the text after the
    backslash and what follows. *)
Definition bliptag_at (s : str) : option (str * str) :=
  r ← word_at (backslash :: s#"bliptag") s;
  match r with
  | "-"%char :: r' =>
      '(ds, rest) ← run_at isdigit r'; Some (s#"bliptag-" ++ ds, rest)
  | _ => '(ds, rest) ← run_at isdigit r; Some (s#"bliptag" ++ ds, rest)
  end.

(** [\blipuid], whitespace, lowercase hexadecimal digits.  Gives the text
    after the backslash together with the identifier, and what follows. *)
Definition blipuid_at (s : str) : option ((str * str) * str) :=
  r ← word_at (backslash :: s#"blipuid") s;
  '(ws, r') ← run_at isspace r;
  '(id, rest) ← run_at hex_lower r';
  Some ((s#"blipuid" ++ ws ++ id, id), rest).

(** The revision table: [\*\rsidtbl], one whitespace character, one or more
    characters other than [}], and [}].  Gives the characters between the
    whitespace and the brace, and what follows the brace. *)
Definition rsidtbl_at (s : str) : option (str * str) :=
  r ← word_at (backslash :: "*"%char :: backslash :: s#"rsidtbl") s;
  match r with
  | a :: r' =>
      if isspace a then
        '(body, r'') ← run_at not_rbrace r';
        match r'' with
        | "}"%char :: rest => Some (body, rest)
        | _ => None
        end
      else None
  | [] => None
  end.

(** An image size: a backslash, one of the four tags, digits, and the
    whitespace after them.  Gives what follows. *)
Definition size_tags : list str :=
  [ s#"picw"; s#"pich"; s#"picwgoal"; s#"pichgoal" ].

Definition size_item (s : str) : option str :=
  r ← word_at [backslash] s;
  one_of size_tags
    (fun r => '(_, r') ← run_at isdigit r; Some (dropwhile isspace r')) r.

(** What follows the image sizes at the front of [s], at most [n] of them. *)
Fixpoint size_items (n : nat) (s : str) : str :=
  match n with
  | 0 => s
  | S n' =>
      match size_item s with
      | Some r => size_items n' r
      | None => s
      end
  end.

(** A run of image sizes at the front of [s], as long as it can be: the run
    and what follows it. *)
Definition size_run_at (s : str) : option (str * str) :=
  r ← size_item s;
  let rest := size_items (length r) r in
  Some (take (length s - length rest) s, rest).

(** One or more characters other than [}], and then [}].  Gives what
    follows the brace. *)
Definition closing (t : str) : option str :=
  '(_, r2) ← run_at not_rbrace t;
  match r2 with
  | "}"%char :: rest => Some rest
  | _ => None
  end.

(** The value of a metadata tag: a whitespace character and then
    [closing]. *)
Definition info_value (r : str) : option str :=
  match r with
  | a :: r1 => if isspace a then closing r1 else None
  | [] => None
  end.

(** A metadata group: [{], optional whitespace, a backslash, one of the
    eleven tags, a whitespace character, at least one more character other
    than [}], and the first [}] that comes.  Gives the group with its braces
    and what follows it. *)
Definition info_group_at (s : str) : option (str * str) :=
  match s with
  | "{"%char :: s1 =>
      r ← word_at [backslash] (dropwhile isspace s1);
      rest ← one_of info_tags info_value r;
      Some (take (length s - length rest) s, rest)
  | _ => None
  end.

(** The suffixes of a text, one for each position, the empty one included. *)
Fixpoint suffixes (s : str) : list str :=
  s :: match s with
       | [] => []
       | _ :: s' => suffixes s'
       end.

(** What [f] finds at the positions of [s], every position tried. *)
Definition everywhere {M : Type} (f : str -> option (M * str)) (s : str)
    : list M :=
  omap (fun t => fst <$> f t) (suffixes s).

(** A text cut from left to right into what [f] finds and, between the
    finds, single characters at which [f] finds nothing: every position of
    the text is either inside a find or a position where nothing starts. *)
Inductive tiling {M : Type} (f : str -> option (M * str))
    : str -> list M -> Prop :=
  | tiling_end : f [] = None -> tiling f [] []
  | tiling_gap a s ms :
      f (a :: s) = None -> tiling f s ms -> tiling f (a :: s) ms
  | tiling_find w rest m ms :
      w <> [] -> f (w ++ rest) = Some (m, rest) -> tiling f rest ms ->
      tiling f (w ++ rest) (m :: ms).

(** The revision table of a document: the payload of the first table
    declaration, if the document has one. *)
Definition rsidtbl_payload (text : str) : option str :=
  strip <$> first_at rsidtbl_at text.

(** The revision identifiers that a table payload declares, in order. *)
Definition table_ids (payload : str) : list str :=
  everywhere (marker_at s#"rsid") payload.

(** The identifiers of all the change markers of a document, marker by
    marker in the order of [change_markers]. *)
Definition marker_ids (text : str) : list str :=
  flat_map (fun marker => everywhere (marker_at marker) text) change_markers.

(** The same with the name of the marker in front of each identifier. *)
Definition marker_tokens (text : str) : list str :=
  flat_map
    (fun marker => map (app marker) (everywhere (marker_at marker) text))
    change_markers.

(** The [bliptag] control words and the [blipuid] control words of a
    document. *)
Definition bliptags (text : str) : list str := everywhere bliptag_at text.
Definition blipuids (text : str) : list (str * str) := everywhere blipuid_at text.

(** The runs of image sizes and the metadata groups of a document, from left
    to right, each taken as long as it can be. *)
Definition size_runs (text : str) : list str := scan size_run_at text 0.
Definition info_groups (text : str) : list str := scan info_group_at text 0.

End Spec.

(** ** The result of an analysis, in terms of the text *)

Module Summary.

Import Py Re Rtfsig Effect Spec.

(** What the revision extractor contributes: nothing without a table. *)
Definition table_loose (text : str) : gset str :=
  match rsidtbl_payload text with
  | Some payload =>
      list_to_set (marker_tokens text)
      ∪ list_to_set (map (app (backslash :: s#"rsid")) (table_ids payload))
  | None => ∅
  end.

Definition table_strict (text : str) : gset str :=
  match rsidtbl_payload text with
  | Some payload => {[payload]}
  | None => ∅
  end.

Definition table_observations (text : str) : list string :=
  match rsidtbl_payload text with
  | Some payload =>
      "OBS007"%string :: cross_reference (table_ids payload) (marker_ids text)
  | None => []
  end.

(** The strings and the observations of the four extractors together, in
    the order in which [_parse_data] runs them. *)
Definition found_loose (risky_items : bool) (text : str) : gset str :=
  (if risky_items then list_to_set (info_groups text) else ∅)
  ∪ list_to_set (map rstrip (size_runs text))
  ∪ (list_to_set (map snd (blipuids text)) ∪ list_to_set (bliptags text))
  ∪ table_loose text.

Definition found_strict (text : str) : gset str :=
  list_to_set (map fst (blipuids text)) ∪ table_strict text.

Definition found_observations (risky_items : bool) (text : str)
    : list string :=
  table_observations text
  ++ once "OBS006" (bliptags text)
  ++ once "OBS004" (size_runs text)
  ++ (if risky_items then once "OBS005" (info_groups text) else []).

(** [x] is a contiguous part of [s]. *)
Definition part_of {A : Type} (x s : list A) : Prop :=
  ∃ pre post, s = pre ++ x ++ post.


(** [s.encode("ascii")] for ASCII text. *)
Definition encode_ascii (s : str) : bytes := map byte_of_ascii s.

(** The arguments with which the constructor parses nothing: no file name
    or an empty one, and a buffer that is false in Python's sense. *)
Definition nothing_to_parse (filename : option str) (data : pyval) : bool :=
  match filename with
  | Some (_ :: _) => false
  | _ => negb (truthy data)
  end.

End Summary.

(** ** The rule generator of [rtfsig/yara.py] *)

Module Yara.

Import Py Rtfsig.

Definition quote : ascii := ascii_of_nat 34.
Definition newline : ascii := ascii_of_nat 10.

(** [s.replace(old, new)]: the occurrences of [old] are replaced from left
    to right, and the search resumes after each occurrence.  [skip] counts
    the characters of the current occurrence that are still to be passed.
    For an empty [old], [new] is put in front of every character and at the
    end. *)
Fixpoint replace_from (old new : str) (skip : nat) (s : str) : str :=
  match s with
  | [] => []
  | a :: s' =>
      match skip with
      | S n => replace_from old new n s'
      | 0 =>
          if startswith old s
          then new ++ replace_from old new (length old - 1) s'
          else a :: replace_from old new 0 s'
      end
  end.

Definition replace (old new s : str) : str :=
  match old with
  | [] => new ++ flat_map (fun a => a :: new) s
  | _ :: _ => replace_from old new 0 s
  end.

(** [str(i)] for a natural number and [sep.join(l)]. *)
Definition str_of_nat (n : nat) : str :=
  lit (DecimalString.NilZero.string_of_uint (Nat.to_uint n)).

Fixpoint join (sep : str) (l : list str) : str :=
  match l with
  | [] => []
  | [x] => x
  | x :: l' => x ++ sep ++ join sep l'
  end.

(** The version of [rtfsig/__init__.py]. *)
Definition VERSION_MAJOR : nat := 0.
Definition VERSION_MINOR : nat := 1.
Definition VERSION_PATCH : nat := 0.
Definition VERSION_STRING : str :=
  join s#"." (map str_of_nat [VERSION_MAJOR; VERSION_MINOR; VERSION_PATCH]).

(** *** The fragment of Jinja2 used by the template *)

(** A template is text with, in between, [{{ x }}], which prints the
    variable [x], and [{% for x in xs %} body {% endfor %}], which renders
    [body] once for each element of the list [xs] with [x] bound to it.  A
    variable that is not defined prints as the empty text and loops zero
    times.  [jinja2.Template] does not escape what it prints. *)
Inductive node : Type :=
  | Text (t : str)
  | Var (x : string)
  | For (x xs : string) (body : list node).

(** The arguments of [render]: the variables that hold a string and those
    that hold a list of strings. *)
Record context : Type := Context {
  scalars : gmap string str;
  lists : gmap string (list str)
}.

Definition bind_scalar (x : string) (v : str) (ctx : context) : context :=
  Context (<[x := v]> (scalars ctx)) (lists ctx).

Fixpoint render_node (ctx : context) (n : node) : str :=
  match n with
  | Text t => t
  | Var x => default [] (scalars ctx !! x)
  | For x xs body =>
      flat_map
        (fun v => flat_map (render_node (bind_scalar x v ctx)) body)
        (default [] (lists ctx !! xs))
  end.

Definition render (template : list node) (ctx : context) : str :=
  flat_map (render_node ctx) template.

(** [RULE_TEMPLATE] as [jinja2.Template] reads it.  With the default
    settings the whitespace of the text is kept, except that [-%}] at the
    end of the [for] tag removes the whitespace that follows the tag (the
    end of its line and the indentation of the next one) and that the last
    newline of the template is dropped. *)
Definition RULE_TEMPLATE : list node :=
  [ Text ([newline] ++ s#"rule ");
    Var "rule_name";
    Text (s#" {" ++ [newline]
          ++ s#"  meta:" ++ [newline]
          ++ s#"    description = " ++ [quote]);
    Var "description";
    Text ([quote] ++ [newline]
          ++ s#"    generated_by = " ++ [quote] ++ s#"rtfsig version ");
    Var "version";
    Text ([quote] ++ [newline]
          ++ [newline]
          ++ s#"  strings:" ++ [newline]
          ++ s#"    ");
    For "string" "strings"
      [ Text (s#"$ = " ++ [quote]);
        Var "string";
        Text ([quote] ++ s#" ascii" ++ [newline]
              ++ s#"    ") ];
    Text ([newline]
          ++ s#"  condition:" ++ [newline]
          ++ s#"    uint32be(0) == 0x7b5c7274 and any of them" ++ [newline]
          ++ s#"}" ++ [newline]) ].

(** The body of the loop of [generate_yara_rule]: the backslashes are
    doubled, then a backslash is put in front of every double quote. *)
Definition safe_string (string : str) : str :=
  let string := replace [backslash] [backslash; backslash] string in
  let string := replace [quote] [backslash; quote] string in
  string.

(** [generate_yara_rule(name, description, strings)]. *)
Definition generate_yara_rule (name description : str) (strings : list str)
    : str :=
  let template := RULE_TEMPLATE in
  let safe_strings := map safe_string strings in
  let args :=
    Context
      {[ "rule_name"%string := name;
         "description"%string := description;
         "version"%string := VERSION_STRING ]}
      {[ "strings"%string := safe_strings ]} in
  render template args.

End Yara.

(** ** A generated rule, read back *)

Module YaraText.

Import Py Rtfsig Spec Yara.

(** A character as it has to stand inside a text string of a rule. *)
Definition escape_char (a : ascii) : str :=
  if Ascii.eqb a backslash then [backslash; backslash]
  else if Ascii.eqb a quote then [backslash; quote]
  else [a].

(** Reading a text string from behind its opening quote: up to the first
    quote that has no backslash in front of it, a backslash giving the
    character after it.  Gives the text and what follows the closing
    quote. *)
Fixpoint read_literal (t : str) : option (str * str) :=
  match t with
  | [] => None
  | a :: t' =>
      if Ascii.eqb a quote then Some ([], t')
      else if Ascii.eqb a backslash then
        match t' with
        | b :: t'' =>
            if Ascii.eqb b backslash || Ascii.eqb b quote
            then '(s, rest) ← read_literal t''; Some (b :: s, rest)
            else None
        | [] => None
        end
      else '(s, rest) ← read_literal t'; Some (a :: s, rest)
  end.

(** The line of a string in the [strings:] section, with the indentation of
    the line after it. *)
Definition line_start : str := s#"$ = " ++ [quote].
Definition line_end : str := s#" ascii" ++ [newline] ++ s#"    ".

Definition string_line (s : str) : str :=
  line_start ++ safe_string s ++ [quote] ++ line_end.

(** Reading the lines of the [strings:] section, at most [n] of them: the
    strings and what follows the last line. *)
Fixpoint read_lines (n : nat) (t : str) : option (list str * str) :=
  match word_at line_start t with
  | None => Some ([], t)
  | Some r =>
      match n with
      | 0 => None
      | S n' =>
          '(s, r1) ← read_literal r;
          r2 ← word_at line_end r1;
          '(l, rest) ← read_lines n' r2;
          Some (s :: l, rest)
      end
  end.

Definition read_strings (t : str) : option (list str * str) :=
  read_lines (length t) t.

(** A rule up to the first line of its strings, and from the end of the
    last one. *)
Definition rule_head (name description : str) : str :=
  [newline]
  ++ s#"rule " ++ name ++ s#" {" ++ [newline]
  ++ s#"  meta:" ++ [newline]
  ++ s#"    description = " ++ [quote] ++ description ++ [quote] ++ [newline]
  ++ s#"    generated_by = " ++ [quote] ++ s#"rtfsig version 0.1.0" ++ [quote]
  ++ [newline]
  ++ [newline]
  ++ s#"  strings:" ++ [newline]
  ++ s#"    ".

Definition rule_tail : str :=
  [newline]
  ++ s#"  condition:" ++ [newline]
  ++ s#"    uint32be(0) == 0x7b5c7274 and any of them" ++ [newline]
  ++ s#"}" ++ [newline].

End YaraText.

(** ** The console program of [rtfsig/app.py] *)

Module App.

Import Py Rtfsig Yara.

(** The namespace that [_get_arguments] returns: [-f] is required, [-y] is
    [None] unless it is given. *)
Record arguments : Type := Namespace {
  rtf_file : str;
  exclude_risky : bool;
  yara : option str;
  verbose : bool
}.

(** What can leave [main]: an exception of the analyser, or the [KeyError]
    of [OBSERVATIONS[reference]]. *)
Inductive error : Type :=
  | Analyser_error (e : exn)
  | KeyError.

(** How [main] ends: it returns, [sys.exit(status)] is called, or an
    exception is not caught. *)
Inductive ending : Type :=
  | Return
  | SysExit (status : Z)
  | Uncaught (e : error).

(** The descriptions of the two rules. *)
Definition loose_description : str :=
  s#"RTF file matching known unique identifiers (higher chance of FP, adjust 'any of them' if required)".

Definition strict_description : str :=
  s#"RTF file matching known unique identifiers (lower chance of FP)".

(** [_save_yara_rules(filename, rules)]: the name of the file that is
    opened for writing and the text that is written to it. *)
Definition _save_yara_rules (filename : str) (rules : list str) : str * str :=
  (filename, concat rules).

(** [main()] for the arguments [args]: how it ends and which files it has
    written.  Logging is left out, it does not change what [main] does.  A
    Python set is iterated in an order of its own, which is [order]. *)
Definition main (order : gset str -> list str) (fs : filesystem)
    (args : arguments) : ending * list (str * str) :=
  match __init__ fs (Some (rtf_file args)) PNone true with
  | Raise FileNotFoundError => (SysExit (-1), [])
  | Raise e => (Uncaught (Analyser_error e), [])
  | Ok parser =>
      if forallb (fun reference =>
                    bool_decide (is_Some (OBSERVATIONS !! reference)))
           (observations (results parser))
      then
        let rules := [] in
        let rules :=
          if bool_decide (loose_strings (results parser) ≠ ∅)
          then rules ++
               [ generate_yara_rule s#"loose_rule" loose_description
                   (order (loose_strings (results parser))) ]
          else rules in
        let rules :=
          if bool_decide (strict_strings (results parser) ≠ ∅)
          then rules ++
               [ generate_yara_rule s#"strict_rule" strict_description
                   (order (strict_strings (results parser))) ]
          else rules in
        match rules with
        | _ :: _ =>
            match yara args with
            | Some (a :: f) => (Return, [_save_yara_rules (a :: f) rules])
            | _ => (Return, [])
            end
        | [] => (Return, [])
        end
      else (Uncaught KeyError, [])
  end.

End App.

(** ** What the program writes, in terms of the text *)

Module Program.

Import Py Rtfsig Spec Summary Yara App.

(** The rules for a document with the text [text]: the loose rule if there
    is a loose string, then the strict rule if there is a strict string. *)
Definition rules (order : gset str -> list str) (text : str) : list str :=
  (if bool_decide (found_loose true text ≠ ∅)
   then [ generate_yara_rule s#"loose_rule" loose_description
            (order (found_loose true text)) ]
   else [])
  ++ (if bool_decide (found_strict text ≠ ∅)
      then [ generate_yara_rule s#"strict_rule" strict_description
               (order (found_strict text)) ]
      else []).

(** The files written for this text: the rules, if there are any and the
    option [-y] names a file. *)
Definition written (order : gset str -> list str) (yara : option str)
    (text : str) : list (str * str) :=
  match rules order text, yara with
  | _ :: _, Some (a :: f) => [(a :: f, concat (rules order text))]
  | _, _ => []
  end.

End Program.

(** * Properties *)

Import Py Re Rtfsig Effect Spec Summary.

(** ** The results algebra *)

Lemma analyser_eta (self : analyser) :
  Analyser (results self) (_risky_items self) (_data self) = self.
Proof. by destruct self. Qed.

Lemma extend_empty (self : analyser) : extend ∅ ∅ [] self = self.
Proof.
  destruct self as [[L S O] r d]. unfold extend, set_results. simpl.
  rewrite app_nil_r. by rewrite !(left_id_L ∅ (∪)).
Qed.

Lemma extend_extend L1 S1 O1 L2 S2 O2 (self : analyser) :
  extend L2 S2 O2 (extend L1 S1 O1 self)
  = extend (L2 ∪ L1) (S2 ∪ S1) (O1 ++ O2) self.
Proof.
  unfold extend, set_results. simpl.
  by rewrite !(assoc_L (∪)), (assoc_L (++)).
Qed.

Lemma loose_add_extend x self : loose_add x self = extend {[x]} ∅ [] self.
Proof.
  unfold loose_add, extend, set_results. simpl.
  by rewrite app_nil_r, (left_id_L ∅ (∪)).
Qed.

Lemma strict_add_extend x self : strict_add x self = extend ∅ {[x]} [] self.
Proof.
  unfold strict_add, extend, set_results. simpl.
  by rewrite app_nil_r, (left_id_L ∅ (∪)).
Qed.

Lemma observations_append_extend ref self :
  observations_append ref self = extend ∅ ∅ [ref] self.
Proof.
  unfold observations_append, extend, set_results. simpl.
  by rewrite !(left_id_L ∅ (∪)).
Qed.

Lemma extend_data L S O self : _data (extend L S O self) = _data self.
Proof. reflexivity. Qed.

Lemma extend_risky L S O self :
  _risky_items (extend L S O self) = _risky_items self.
Proof. reflexivity. Qed.

Lemma extend_loose L S O self :
  loose_strings (results (extend L S O self)) = L ∪ loose_strings (results self).
Proof. reflexivity. Qed.

Lemma extend_strict L S O self :
  strict_strings (results (extend L S O self)) = S ∪ strict_strings (results self).
Proof. reflexivity. Qed.

Lemma extend_observations L S O self :
  observations (results (extend L S O self)) = observations (results self) ++ O.
Proof. reflexivity. Qed.

Lemma count_app ref O1 O2 : count ref (O1 ++ O2) = count ref O1 + count ref O2.
Proof. unfold count. by rewrite filter_app, length_app. Qed.

Lemma count_once_eq ref {A} (ms : list A) :
  count ref (once ref ms) = if ms is [] then 0 else 1.
Proof.
  destruct ms; [done|]. unfold count, once.
  rewrite filter_cons_True by done. done.
Qed.

Lemma count_once_ne ref ref' {A} (ms : list A) :
  ref' ≠ ref → count ref (once ref' ms) = 0.
Proof.
  intros Hne. destruct ms; [done|]. unfold count, once.
  by rewrite filter_cons_False.
Qed.

(** ** The methods never fail on the observations they raise *)

Lemma _add_observation_known ref self :
  ref ∈ ["OBS001"; "OBS002"; "OBS003"; "OBS004"; "OBS005"; "OBS006"; "OBS007"]%string →
  _add_observation ref self = Ok (extend ∅ ∅ [ref] self).
Proof.
  intros Hin. rewrite <- observations_append_extend.
  repeat (apply elem_of_cons in Hin as [-> | Hin]; [reflexivity|]).
  by apply elem_of_nil in Hin.
Qed.

(** ** Loops *)

Lemma for_each_counting {A} (f : A → analyser → analyser) (l : list A) n self :
  for_each l (fun m '(found, self) => Ok (found + 1, f m self)) (n, self)
  = Ok (n + length l, foldl (fun s m => f m s) self l).
Proof.
  revert n self. induction l as [|m l IH]; intros n self; simpl.
  - by rewrite Nat.add_0_r.
  - rewrite IH. do 2 f_equal. lia.
Qed.

Lemma foldl_extend {A} (L S : A → gset str) (l : list A) self :
  foldl (fun s m => extend (L m) (S m) [] s) self l
  = extend (⋃ (map L l)) (⋃ (map S l)) [] self.
Proof.
  revert self. induction l as [|m l IH]; intros self; simpl.
  - by rewrite extend_empty.
  - rewrite IH, extend_extend. simpl.
    by rewrite !(comm_L (∪) (⋃ _) _).
Qed.

Lemma union_list_singletons {A} (g : A → str) (l : list A) :
  ⋃ (map (fun m => ({[g m]} : gset str)) l) = texts g l.
Proof.
  unfold texts. induction l as [|m l IH]; simpl; [done|]. by rewrite IH.
Qed.

Lemma union_list_empties {A} (l : list A) :
  ⋃ (map (fun _ => (∅ : gset str)) l) = ∅.
Proof. induction l as [|m l IH]; simpl; [done|]. rewrite IH. set_solver. Qed.

Lemma for_each_loose {A} (g : A → str) (l : list A) n self :
  for_each l (fun m '(found, self) => Ok (found + 1, loose_add (g m) self))
    (n, self)
  = Ok (n + length l, extend (texts g l) ∅ [] self).
Proof.
  rewrite (for_each_counting (fun m s => loose_add (g m) s)).
  do 2 f_equal.
  rewrite <- (union_list_empties l), <- (union_list_singletons g l).
  rewrite <- foldl_extend. revert self.
  induction l as [|m l IH]; intros self; simpl; [done|].
  by rewrite loose_add_extend, IH.
Qed.

Lemma for_each_loose_strict {A} (gl gs : A → str) (l : list A) n self :
  for_each l
    (fun m '(found, self) =>
       Ok (found + 1, strict_add (gs m) (loose_add (gl m) self)))
    (n, self)
  = Ok (n + length l,
        extend (texts gl l) (texts gs l) [] self).
Proof.
  rewrite (for_each_counting (fun m s => strict_add (gs m) (loose_add (gl m) s))).
  do 2 f_equal.
  rewrite <- (union_list_singletons gs l), <- (union_list_singletons gl l).
  rewrite <- foldl_extend. revert self.
  induction l as [|m l IH]; intros self; simpl; [done|].
  rewrite loose_add_extend, strict_add_extend, extend_extend, IH. simpl.
  by rewrite (left_id_L ∅ (∪)), (right_id_L ∅ (∪)).
Qed.

(** ** The three extractors that only collect strings *)

Ltac tidy :=
  rewrite ?(left_id_L ∅ (∪)), ?(right_id_L ∅ (∪)), ?app_nil_r; cbn [app].

Lemma _find_image_sizes_effect self data :
  _data self = Some data →
  let ms := finditer re_image_sizes data in
  _find_image_sizes self
  = Ok (extend (texts (fun m => strip (group longest_match m)) ms) ∅
          (once "OBS004" ms) self).
Proof.
  intros Hd ms. unfold _find_image_sizes, get_data. rewrite Hd. cbn [bind].
  rewrite for_each_loose. fold ms. cbn [bind].
  destruct ms as [|m ms']; cbn [length Nat.add once].
  - done.
  - rewrite _add_observation_known by set_solver.
    rewrite extend_extend. by tidy.
Qed.

Lemma _find_information_group_effect self data :
  _data self = Some data →
  let ms := finditer re_info_group data in
  _find_information_group self
  = Ok (extend (texts (group whole_tag) ms) ∅ (once "OBS005" ms) self).
Proof.
  intros Hd ms. unfold _find_information_group, get_data. rewrite Hd.
  cbn [bind]. rewrite for_each_loose. fold ms. cbn [bind].
  destruct ms as [|m ms']; cbn [length Nat.add once].
  - done.
  - rewrite _add_observation_known by set_solver.
    rewrite extend_extend. by tidy.
Qed.

Lemma _find_blip_tags_effect self data :
  _data self = Some data →
  let tags := if contains s#"bliptag" data then finditer re_bliptag data else [] in
  let uids := if contains s#"blipuid" data then finditer re_blipuid data else [] in
  _find_blip_tags self
  = Ok (extend (texts (group unique_id) uids ∪ texts (group whole_tag) tags)
          (texts (group whole_tag) uids) (once "OBS006" tags) self).
Proof.
  intros Hd tags uids. unfold _find_blip_tags, get_data. rewrite Hd.
  cbn [bind].
  assert (Hs : ∀ s : analyser,
    (if contains s#"blipuid" data
     then let! (_, self0) :=
            for_each (finditer re_blipuid data)
              (fun m '(found, self0) =>
                 Ok (found + 1,
                     strict_add (group whole_tag m)
                       (loose_add (group unique_id m) self0)))
              (0, s) in Ok self0
     else Ok s)
    = Ok (extend (texts (group unique_id) uids) (texts (group whole_tag) uids) [] s)).
  { intros s. subst uids. destruct (contains s#"blipuid" data).
    - by rewrite for_each_loose_strict.
    - by rewrite extend_empty. }
  subst tags. destruct (contains s#"bliptag" data).
  - rewrite for_each_loose. cbn [bind].
    destruct (finditer re_bliptag data) as [|m ms'] eqn:Hms;
      cbn [length Nat.add once].
    + cbn [bind]. rewrite Hs, extend_extend. by tidy.
    + rewrite _add_observation_known by set_solver. cbn [bind].
      rewrite Hs, !extend_extend. by tidy.
  - cbn [bind]. rewrite Hs.
    change (texts (group whole_tag) []) with (∅ : gset str). by tidy.
Qed.

(** ** The revision extractor *)

Lemma for_each_extend {A} (L S : A → gset str) (O : A → list string)
    (body : A → analyser → outcome analyser) (l : list A) self :
  (∀ x s, body x s = Ok (extend (L x) (S x) (O x) s)) →
  for_each l body self
  = Ok (extend (⋃ (map L l)) (⋃ (map S l)) (concat (map O l)) self).
Proof.
  intros Hbody. revert self.
  induction l as [|x l IH]; intros self; cbn [for_each map concat union_list].
  - by rewrite extend_empty.
  - rewrite Hbody. cbn [bind]. rewrite IH, extend_extend.
    by rewrite !(comm_L (∪) (⋃ _) _).
Qed.

Lemma for_each_revisions {A} (gr gw : A → str) (l : list A) revisions self :
  for_each l
    (fun m '(revisions, self) =>
       Ok (revisions ++ [gr m], loose_add (gw m) self))
    (revisions, self)
  = Ok (revisions ++ map gr l, extend (texts gw l) ∅ [] self).
Proof.
  revert revisions self.
  induction l as [|m l IH]; intros revisions self; cbn [for_each map].
  - by rewrite app_nil_r, extend_empty.
  - cbn [bind]. rewrite IH, loose_add_extend, extend_extend.
    rewrite <- (assoc_L (++)). cbn [app]. unfold texts. cbn [map list_to_set].
    tidy. by rewrite (comm_L (∪) (list_to_set _) _).
Qed.

Lemma texts_app {A} (g : A → str) (l1 l2 : list A) :
  texts g (l1 ++ l2) = texts g l1 ∪ texts g l2.
Proof. unfold texts. by rewrite map_app, list_to_set_app_L. Qed.

Lemma texts_flat_map {A B} (g : B → str) (f : A → list B) (l : list A) :
  ⋃ (map (fun x => texts g (f x)) l) = texts g (flat_map f l).
Proof.
  induction l as [|x l IH]; cbn [map flat_map]; [done|].
  by rewrite texts_app, <- IH.
Qed.

Lemma cross_reference_app revisions ids1 ids2 :
  cross_reference revisions (ids1 ++ ids2)
  = cross_reference revisions ids1 ++ cross_reference revisions ids2.
Proof. unfold cross_reference. by rewrite flat_map_app. Qed.

Lemma cross_reference_flat_map {A B} revisions (g : B → str) (f : A → list B)
    (l : list A) :
  concat (map (fun x => cross_reference revisions (map g (f x))) l)
  = cross_reference revisions (map g (flat_map f l)).
Proof.
  induction l as [|x l IH]; cbn [map concat flat_map]; [done|].
  by rewrite map_app, cross_reference_app, IH.
Qed.

Lemma cross_reference_map {A} revisions (g : A → str) (l : list A) :
  concat (map (fun m =>
     if bool_decide (g m ∈ revisions) then [] else ["OBS003"%string]) l)
  = cross_reference revisions (map g l).
Proof.
  unfold cross_reference.
  induction l as [|x l IH]; cbn [map concat flat_map]; [done|].
  by rewrite IH.
Qed.

Lemma _find_rsid_tags_absent self data :
  _data self = Some data →
  search re_rsidtbl data = None →
  _find_rsid_tags self = Ok self.
Proof.
  intros Hd Hs. unfold _find_rsid_tags, get_data. rewrite Hd. cbn [bind].
  by rewrite Hs.
Qed.

Lemma _find_rsid_tags_present self data m :
  _data self = Some data →
  search re_rsidtbl data = Some m →
  let raw_data := strip (group 1 m) in
  let rs := finditer re_rsid raw_data in
  let revisions := map (group revision_id) rs in
  let mm := marker_matches data in
  _find_rsid_tags self
  = Ok (extend
          (texts (fun m => group 1 m ++ group 2 m) mm ∪ texts (group whole_tag) rs)
          {[raw_data]}
          ("OBS007"%string :: cross_reference revisions (map (group 2) mm))
          self).
Proof.
  intros Hd Hs raw_data rs revisions mm.
  unfold _find_rsid_tags, get_data. rewrite Hd. cbn [bind]. rewrite Hs.
  rewrite _add_observation_known by set_solver. cbn [bind]. cbv zeta.
  fold raw_data. rewrite for_each_revisions. fold rs. cbn [bind app].
  fold revisions.
  rewrite (for_each_extend
    (fun marker => texts (fun m => group 1 m ++ group 2 m)
                     (finditer (re_marker marker) data))
    (fun _ => ∅)
    (fun marker => cross_reference revisions
                     (map (group 2) (finditer (re_marker marker) data)))).
  - rewrite texts_flat_map, cross_reference_flat_map, union_list_empties.
    fold (marker_matches data). fold mm.
    rewrite strict_add_extend, !extend_extend. by tidy.
  - intros marker s.
    rewrite (for_each_extend
      (fun m => {[group 1 m ++ group 2 m]}) (fun _ => ∅)
      (fun m => if bool_decide (group 2 m ∈ revisions) then []
                else ["OBS003"%string])).
    + by rewrite union_list_singletons, union_list_empties, cross_reference_map.
    + intros m' s'. destruct (bool_decide (group 2 m' ∈ revisions)).
      * cbn [bind]. by rewrite loose_add_extend.
      * rewrite _add_observation_known by set_solver. cbn [bind].
        rewrite loose_add_extend, extend_extend. by tidy.
Qed.

(** ** Shape of what each extractor returns *)

Lemma Forall_once ref (refs : list string) {A} (ms : list A) :
  ref ∈ refs → Forall (fun ref => ref ∈ refs) (once ref ms).
Proof. intros Hin. destruct ms; cbn [once]; by repeat constructor. Qed.

Lemma Forall_cross_reference (refs : list string) revisions ids :
  "OBS003"%string ∈ refs →
  Forall (fun ref => ref ∈ refs) (cross_reference revisions ids).
Proof.
  intros Hin. unfold cross_reference.
  induction ids as [|id ids IH]; cbn [flat_map]; [constructor|].
  apply Forall_app. split; [|done].
  destruct (bool_decide _); by repeat constructor.
Qed.

Lemma _find_rsid_tags_shape self data :
  _data self = Some data →
  extends_with ["OBS007"; "OBS003"]%string self (_find_rsid_tags self).
Proof.
  intros Hd. destruct (search re_rsidtbl data) as [m|] eqn:Hs.
  - rewrite (_find_rsid_tags_present _ _ _ Hd Hs). do 3 eexists.
    split; [reflexivity|]. constructor; [set_solver|].
    apply Forall_cross_reference. set_solver.
  - rewrite (_find_rsid_tags_absent _ _ Hd Hs). exists ∅, ∅, [].
    by rewrite extend_empty.
Qed.

Lemma _find_blip_tags_shape self data :
  _data self = Some data →
  extends_with ["OBS006"]%string self (_find_blip_tags self).
Proof.
  intros Hd. rewrite (_find_blip_tags_effect _ _ Hd). do 3 eexists.
  split; [reflexivity|]. apply Forall_once. set_solver.
Qed.

Lemma _find_image_sizes_shape self data :
  _data self = Some data →
  extends_with ["OBS004"]%string self (_find_image_sizes self).
Proof.
  intros Hd. rewrite (_find_image_sizes_effect _ _ Hd). do 3 eexists.
  split; [reflexivity|]. apply Forall_once. set_solver.
Qed.

Lemma _find_information_group_shape self data :
  _data self = Some data →
  extends_with ["OBS005"]%string self (_find_information_group self).
Proof.
  intros Hd. rewrite (_find_information_group_effect _ _ Hd). do 3 eexists.
  split; [reflexivity|]. apply Forall_once. set_solver.
Qed.

Lemma count_absent ref (refs O : list string) :
  Forall (fun r => r ∈ refs) O → ref ∉ refs → count ref O = 0.
Proof.
  intros HO Hnot. unfold count.
  induction HO as [|r O Hr HO IH]; [done|].
  rewrite filter_cons_False; [done|]. intros ->. done.
Qed.

Lemma extractors_shape self data :
  _data self = Some data →
  extends_with ["OBS007"; "OBS003"; "OBS006"; "OBS004"; "OBS005"]%string self
    (extractors self).
Proof.
  intros Hd. unfold extractors.
  destruct (_find_rsid_tags_shape self data Hd) as (L1 & S1 & O1 & -> & H1).
  cbn [bind].
  destruct (_find_blip_tags_shape (extend L1 S1 O1 self) data Hd)
    as (L2 & S2 & O2 & -> & H2).
  cbn [bind].
  destruct (_find_image_sizes_shape (extend L2 S2 O2 (extend L1 S1 O1 self))
              data Hd) as (L3 & S3 & O3 & -> & H3).
  cbn [bind]. rewrite !extend_risky.
  assert (Hsub : ∀ (refs O : list string),
    refs ⊆ ["OBS007"; "OBS003"; "OBS006"; "OBS004"; "OBS005"]%string →
    Forall (fun r => r ∈ refs) O →
    Forall (fun r => r ∈ ["OBS007"; "OBS003"; "OBS006"; "OBS004"; "OBS005"]%string) O).
  { intros refs O Hsub HO. eapply Forall_impl; [exact HO|]. intros r Hr.
    by apply Hsub. }
  destruct (_risky_items self).
  - destruct (_find_information_group_shape
                (extend L3 S3 O3 (extend L2 S2 O2 (extend L1 S1 O1 self)))
                data Hd) as (L4 & S4 & O4 & -> & H4).
    rewrite !extend_extend. do 3 eexists. split; [reflexivity|].
    rewrite !Forall_app. repeat split.
    + eapply Hsub; [|exact H1]; set_solver.
    + eapply Hsub; [|exact H2]; set_solver.
    + eapply Hsub; [|exact H3]; set_solver.
    + eapply Hsub; [|exact H4]; set_solver.
  - rewrite !extend_extend. do 3 eexists. split; [reflexivity|].
    rewrite !Forall_app. repeat split.
    + eapply Hsub; [|exact H1]; set_solver.
    + eapply Hsub; [|exact H2]; set_solver.
    + eapply Hsub; [|exact H3]; set_solver.
Qed.

(** ** [_parse_data] and [__init__] *)

Lemma _parse_data_bad_magic data self :
  slice 0 4 (decode_ascii_ignore data) ≠ magic →
  _parse_data data self = Raise ParsingException.
Proof.
  intros Hbad. unfold _parse_data.
  assert (Hd : bool_decide (slice 0 4 (decode_ascii_ignore data) = s#"{\rt") = false)
    by (by apply bool_decide_eq_false).
  destruct (existsb _ data).
  - rewrite _add_observation_known by set_solver. cbn [bind]. cbv zeta.
    by rewrite Hd.
  - cbn [bind]. cbv zeta. by rewrite Hd.
Qed.

Lemma _parse_data_good_magic data self :
  slice 0 4 (decode_ascii_ignore data) = magic →
  _parse_data data self
  = extractors
      (with_data (decode_ascii_ignore data) (extend ∅ ∅ (preamble data) self)).
Proof.
  intros Hgood. unfold _parse_data, preamble, nonprintable.
  assert (Hd : bool_decide (slice 0 4 (decode_ascii_ignore data) = s#"{\rt") = true)
    by (by apply bool_decide_eq_true).
  destruct self as [[L S O] r d].
  destruct (existsb _ data);
    [rewrite _add_observation_known by set_solver|]; cbn [bind]; cbv zeta;
    rewrite Hd; cbn [negb];
    (destruct (negb (bool_decide (slice 4 6 _ = _)));
     [rewrite _add_observation_known by set_solver|]; cbn [bind]);
    unfold extractors, with_data, extend, set_results;
    cbn [results _risky_items _data loose_strings strict_strings observations];
    tidy; rewrite <- ?(assoc_L (++)); cbn [app]; done.
Qed.

Lemma __init___data fs risky data :
  data ≠ [] →
  __init__ fs None (PBytes data) risky = _parse_data data (fresh risky).
Proof.
  intros Hne. unfold __init__. cbn [truthy isinstance_bytes].
  by rewrite bool_decide_eq_false_2.
Qed.

Lemma __init___file fs risky f v data :
  f ≠ [] → fs f = Some data →
  __init__ fs (Some f) v risky = _parse_data data (fresh risky).
Proof.
  intros Hne Hfs. destruct f as [|a f]; [done|].
  unfold __init__, _parse_file. by rewrite Hfs.
Qed.

Lemma _parse_data_observations data self self' :
  _parse_data data self = Ok self' →
  ∃ O, observations (results self')
       = observations (results self) ++ preamble data ++ O
     ∧ Forall (fun r => r ∈ ["OBS007"; "OBS003"; "OBS006"; "OBS004"; "OBS005"]%string) O.
Proof.
  intros Hok.
  destruct (decide (slice 0 4 (decode_ascii_ignore data) = magic)) as [Hm|Hm].
  - rewrite (_parse_data_good_magic _ _ Hm) in Hok.
    destruct (extractors_shape
                (with_data (decode_ascii_ignore data)
                   (extend ∅ ∅ (preamble data) self))
                (decode_ascii_ignore data) eq_refl) as (L & S & O & Heq & HO).
    rewrite Heq in Hok. injection Hok as <-. exists O. split; [|done].
    cbn [extend set_results results observations with_data].
    by rewrite (assoc_L (++)).
  - by rewrite (_parse_data_bad_magic _ _ Hm) in Hok.
Qed.

Lemma count_preamble_OBS001 data :
  count "OBS001" (preamble data) = if nonprintable data then 1 else 0.
Proof.
  unfold preamble.
  destruct (nonprintable data), (negb (bool_decide _)); reflexivity.
Qed.

Lemma count_preamble_OBS002 data :
  count "OBS002" (preamble data)
  = if bool_decide (slice 4 6 (decode_ascii_ignore data) = s#"f1") then 0 else 1.
Proof.
  unfold preamble.
  destruct (nonprintable data), (bool_decide _); reflexivity.
Qed.

Lemma _parse_data_count_OBS001 data self self' :
  _parse_data data self = Ok self' →
  count "OBS001" (observations (results self'))
  = count "OBS001" (observations (results self))
    + if nonprintable data then 1 else 0.
Proof.
  intros Hok. destruct (_parse_data_observations _ _ _ Hok) as (O & -> & HO).
  rewrite !count_app, count_preamble_OBS001.
  rewrite (count_absent "OBS001" _ O HO) by set_solver. lia.
Qed.

(** ** The constructor: arguments, empty input, magic *)

(** C7, as amended: with no file name and no data the constructor raises
    [ValueError]; with no file name and a data value that is true in a
    condition and is not of type [bytes] it raises [TypeError], which is a
    different exception; in both cases no object is returned. *)
Theorem C7_constructor_argument_errors fs risky data :
  truthy data = true →
  isinstance_bytes data = None →
  __init__ fs None PNone risky = Raise ValueError
  ∧ __init__ fs None data risky = Raise TypeError
  ∧ TypeError ≠ ValueError.
Proof.
  intros Ht Hi. repeat split; [|done].
  unfold __init__. rewrite Ht, Hi. by destruct data.
Qed.

Lemma C7_constructor_argument_errors_witness :
  truthy (PStr s#"{\rtf1}") = true
  ∧ isinstance_bytes (PStr s#"{\rtf1}") = None
  ∧ __init__ (fun _ => None) None PNone true = Raise ValueError
  ∧ __init__ (fun _ => None) None (PStr s#"{\rtf1}") true = Raise TypeError
  ∧ TypeError ≠ ValueError.
Proof.
  split; [reflexivity|]. split; [reflexivity|].
  apply (C7_constructor_argument_errors (fun _ => None) true (PStr s#"{\rtf1}"));
    reflexivity.
Defined.

(** C7 as stated fails: the empty [str] is a data value that is not a byte
    sequence, and the constructor accepts it without any exception. *)
Lemma C7_empty_str_counterexample :
  isinstance_bytes (PStr []) = None
  ∧ __init__ (fun _ => None) None (PStr []) true = Ok (fresh true).
Proof. split; reflexivity. Qed.

(** C10: with no file name and the empty byte string the constructor
    returns an object, nothing is parsed ([_data] is never assigned), the
    two sets and the list of observations are empty, although the empty text
    does not start with the magic. *)
Theorem C10_empty_bytes_accepted fs risky :
  __init__ fs None (PBytes []) risky = Ok (fresh risky)
  ∧ _data (fresh risky) = None
  ∧ loose_strings (results (fresh risky)) = ∅
  ∧ strict_strings (results (fresh risky)) = ∅
  ∧ observations (results (fresh risky)) = []
  ∧ slice 0 4 (decode_ascii_ignore []) ≠ magic.
Proof. repeat split. done. Qed.

(** C1, as amended: when the decoded text does not begin with the magic,
    [_parse_data] raises [ParsingException] whatever the object was, and so
    does the constructor for a file with these bytes and for a non-empty
    byte string; what the caller gets is the exception and no object. *)
Theorem C1_bad_magic_raises fs risky data :
  slice 0 4 (decode_ascii_ignore data) ≠ magic →
  (∀ self, _parse_data data self = Raise ParsingException)
  ∧ (∀ f v, f ≠ [] → fs f = Some data →
       __init__ fs (Some f) v risky = Raise ParsingException)
  ∧ (data ≠ [] → __init__ fs None (PBytes data) risky = Raise ParsingException).
Proof.
  intros Hbad. split; [|split].
  - intros self. by apply _parse_data_bad_magic.
  - intros f v Hf Hfs. rewrite (__init___file _ _ _ _ _ Hf Hfs).
    by apply _parse_data_bad_magic.
  - intros Hne. rewrite (__init___data _ _ _ Hne).
    by apply _parse_data_bad_magic.
Qed.

Lemma C1_bad_magic_raises_witness :
  slice 0 4 (decode_ascii_ignore (blit "{\rxf1}")) ≠ magic
  ∧ __init__ (fun _ => None) None (PBytes (blit "{\rxf1}")) true
    = Raise ParsingException.
Proof.
  split; [by vm_compute|].
  apply (C1_bad_magic_raises (fun _ => None) true (blit "{\rxf1}"));
    by vm_compute.
Defined.

(** C1 as stated fails on the empty byte string: its text does not begin
    with the magic, and the constructor returns an object. *)
Lemma C1_empty_bytes_counterexample :
  slice 0 4 (decode_ascii_ignore []) ≠ magic
  ∧ __init__ (fun _ => None) None (PBytes []) true = Ok (fresh true)
  ∧ __init__ (fun _ => None) None (PBytes []) true ≠ Raise ParsingException.
Proof. repeat split; done. Qed.

(** ** Observations 1 and 2 *)

(** C8: in the object that the constructor returns for a byte string,
    [OBS001] occurs once if some byte is outside [string.printable], however
    many there are, and not at all otherwise. *)
Theorem C8_OBS001_at_most_once fs risky data self :
  __init__ fs None (PBytes data) risky = Ok self →
  count "OBS001" (observations (results self))
  = if nonprintable data then 1 else 0.
Proof.
  intros Hok. destruct data as [|b data].
  - injection Hok as <-. reflexivity.
  - rewrite __init___data in Hok by done.
    by rewrite (_parse_data_count_OBS001 _ _ _ Hok).
Qed.

Lemma C8_OBS001_at_most_once_witness :
  let data := blit "{\rtf1}" ++ [Byte.x13; Byte.x37] in
  let self :=
    Analyser (Results ∅ ∅ ["OBS001"%string]) true
      (Some (s#"{\rtf1}" ++ [ascii_of_nat 19; ascii_of_nat 55])) in
  __init__ (fun _ => None) None (PBytes data) true = Ok self
  ∧ nonprintable data = true
  ∧ count "OBS001" (observations (results self)) = 1.
Proof.
  intros data self.
  assert (H : __init__ (fun _ => None) None (PBytes data) true = Ok self)
    by (by vm_compute).
  split; [exact H|]. split; [reflexivity|].
  exact (C8_OBS001_at_most_once (fun _ => None) true data self H).
Defined.

(** C9, as amended: when the text starts with the magic and its characters
    4 and 5 are not [f1], [_parse_data] raises [OBS002] once and no
    exception; the revision, image-identifier and image-dimension extractors
    run one after the other on the object, then the metadata extractor if
    [_risky_items] is set, and the object they leave is returned. *)
Theorem C9_version_marker_is_soft data self :
  slice 0 4 (decode_ascii_ignore data) = magic →
  slice 4 6 (decode_ascii_ignore data) ≠ s#"f1" →
  ∃ s1 s2 s3 s4,
    count "OBS002" (preamble data) = 1
    ∧ _find_rsid_tags
        (with_data (decode_ascii_ignore data)
           (extend ∅ ∅ (preamble data) self)) = Ok s1
    ∧ _find_blip_tags s1 = Ok s2
    ∧ _find_image_sizes s2 = Ok s3
    ∧ (if _risky_items self then _find_information_group s3 = Ok s4
       else s4 = s3)
    ∧ _parse_data data self = Ok s4
    ∧ count "OBS002" (observations (results s4))
      = count "OBS002" (observations (results self)) + 1.
Proof.
  intros Hm Hv.
  set (s0 := with_data (decode_ascii_ignore data)
               (extend ∅ ∅ (preamble data) self)).
  assert (Hc : count "OBS002" (preamble data) = 1).
  { rewrite count_preamble_OBS002. by rewrite bool_decide_eq_false_2. }
  assert (Hd : _data s0 = Some (decode_ascii_ignore data)) by reflexivity.
  destruct (_find_rsid_tags_shape s0 _ Hd) as (L1 & S1 & O1 & E1 & H1).
  destruct (_find_blip_tags_shape (extend L1 S1 O1 s0) _ Hd)
    as (L2 & S2 & O2 & E2 & H2).
  destruct (_find_image_sizes_shape (extend L2 S2 O2 (extend L1 S1 O1 s0)) _ Hd)
    as (L3 & S3 & O3 & E3 & H3).
  set (s3 := extend L3 S3 O3 (extend L2 S2 O2 (extend L1 S1 O1 s0))) in *.
  destruct (_find_information_group_shape s3 _ Hd) as (L4 & S4 & O4 & E4 & H4).
  assert (Hrun : _parse_data data self
                 = if _risky_items self then _find_information_group s3
                   else Ok s3).
  { rewrite (_parse_data_good_magic _ _ Hm). fold s0. unfold extractors.
    rewrite E1. cbn [bind]. rewrite E2. cbn [bind]. rewrite E3. cbn [bind].
    reflexivity. }
  exists (extend L1 S1 O1 s0), (extend L2 S2 O2 (extend L1 S1 O1 s0)), s3,
    (if _risky_items self then extend L4 S4 O4 s3 else s3).
  split; [exact Hc|]. split; [exact E1|]. split; [exact E2|].
  split; [exact E3|].
  split; [|split].
  - by destruct (_risky_items self).
  - rewrite Hrun. by destruct (_risky_items self).
  - assert (C1 := count_absent "OBS002" _ O1 H1 ltac:(set_solver)).
    assert (C2 := count_absent "OBS002" _ O2 H2 ltac:(set_solver)).
    assert (C3 := count_absent "OBS002" _ O3 H3 ltac:(set_solver)).
    assert (C4 := count_absent "OBS002" _ O4 H4 ltac:(set_solver)).
    destruct (_risky_items self); subst s3 s0;
      cbn [extend set_results results observations with_data];
      rewrite !count_app, Hc, C1, C2, C3, ?C4; lia.
Qed.

Lemma C9_version_marker_is_soft_witness :
  slice 0 4 (decode_ascii_ignore (blit "{\rtXY")) = magic
  ∧ slice 4 6 (decode_ascii_ignore (blit "{\rtXY")) ≠ s#"f1"
  ∧ ∃ self',
      _parse_data (blit "{\rtXY") (fresh true) = Ok self'
      ∧ count "OBS002" (observations (results self')) = 1.
Proof.
  assert (Hm : slice 0 4 (decode_ascii_ignore (blit "{\rtXY")) = magic)
    by reflexivity.
  assert (Hv : slice 4 6 (decode_ascii_ignore (blit "{\rtXY")) ≠ s#"f1")
    by (by vm_compute).
  split; [exact Hm|]. split; [exact Hv|].
  destruct (C9_version_marker_is_soft (blit "{\rtXY") (fresh true) Hm Hv)
    as (s1 & s2 & s3 & s4 & _ & _ & _ & _ & _ & Hok & Hc).
  exists s4. split; [exact Hok|exact Hc].
Defined.

(** C9 as stated fails when the caller excludes the risky items: the text
    below has the magic, a version other than [f1] and an author group; the
    constructor returns an object with [OBS002] only, while the metadata
    extractor, had it run on that object, would have added the group and
    [OBS005]. *)
Lemma C9_risky_items_counterexample :
  let data := blit "{\rtXY{\author x}" in
  let self :=
    Analyser (Results ∅ ∅ ["OBS002"%string]) false
      (Some s#"{\rtXY{\author x}") in
  slice 0 4 (decode_ascii_ignore data) = magic
  ∧ slice 4 6 (decode_ascii_ignore data) ≠ s#"f1"
  ∧ __init__ (fun _ => None) None (PBytes data) false = Ok self
  ∧ _find_information_group self
    = Ok (Analyser (Results {[ s#"{\author x}" ]} ∅ ["OBS002"; "OBS005"]%string)
            false (Some s#"{\rtXY{\author x}")).
Proof.
  intros data self. split; [reflexivity|]. split; [by vm_compute|].
  split; by vm_compute.
Qed.

(** ** The matcher on words and on runs of a character class *)

Lemma take_drop_while p (s : str) : takewhile p s ++ dropwhile p s = s.
Proof.
  induction s as [|a s IH]; [done|]. cbn [takewhile dropwhile].
  destruct (p a); [|done]. cbn [app]. by rewrite IH.
Qed.

Lemma drop_takewhile p (s : str) :
  drop (length (takewhile p s)) s = dropwhile p s.
Proof.
  induction s as [|a s IH]; [done|]. cbn [takewhile dropwhile].
  by destruct (p a).
Qed.

Lemma Forall_takewhile p (s : str) : Forall (fun a => p a = true) (takewhile p s).
Proof.
  induction s as [|a s IH]; [constructor|]. cbn [takewhile].
  destruct (p a) eqn:Hp; by constructor.
Qed.

Lemma length_dropwhile p (s : str) : length (dropwhile p s) ≤ length s.
Proof.
  induction s as [|a s IH]; [done|]. cbn [dropwhile].
  destruct (p a); cbn [length]; lia.
Qed.

Lemma dropwhile_head p (s : str) a t : dropwhile p s = a :: t → p a = false.
Proof.
  induction s as [|b s IH]; [done|]. cbn [dropwhile].
  destruct (p b) eqn:Hp; [done|]. by intros [= <- <-].
Qed.

Lemma mtch_Lit {A} w s c (k : str → caps → option A) :
  mtch (Lit w) s c k
  = match word_at w s with Some r => k r c | None => None end.
Proof.
  unfold word_at. revert s. induction w as [|a w IH]; intros s.
  - reflexivity.
  - destruct s as [|b s]; [done|]. cbn [Lit mtch Chr startswith].
    destruct (Ascii.eqb a b); [|done]. cbn [andb]. rewrite IH.
    by destruct (startswith w s).
Qed.

Lemma mtch_Chr {A} a s c (k : str → caps → option A) :
  mtch (Chr a) s c k
  = match word_at [a] s with Some r => k r c | None => None end.
Proof.
  unfold word_at. destruct s as [|b s]; [done|]. cbn [Chr mtch startswith].
  destruct (Ascii.eqb a b); [|done]. by destruct s.
Qed.

Lemma mtch_Cls {A} p s c (k : str → caps → option A) :
  mtch (Cls p) s c k
  = match s with
    | a :: s' => if p a then k s' c else None
    | [] => None
    end.
Proof. reflexivity. Qed.

Lemma mtch_Star {A} r s c (k : str → caps → option A) :
  mtch (Star r) s c k = star_loop r k (length s) s c.
Proof. reflexivity. Qed.

Lemma mtch_Seq {A} r1 r2 s c (k : str → caps → option A) :
  mtch (Seq r1 r2) s c k = mtch r1 s c (fun s' c' => mtch r2 s' c' k).
Proof. reflexivity. Qed.

Lemma mtch_Grp {A} i r s c (k : str → caps → option A) :
  mtch (Grp i r) s c k
  = mtch r s c (fun s' c' => k s' ((i, take (length s - length s') s) :: c')).
Proof. reflexivity. Qed.

Lemma backtrack_cons {A} (k : str → option A) a s n :
  backtrack k (a :: s) (S n)
  = match backtrack k s n with
    | Some x => Some x
    | None => k (a :: s)
    end.
Proof.
  induction n as [|n IH].
  - cbn [backtrack drop]. by rewrite drop_0.
  - change (backtrack k (a :: s) (S (S n)))
      with (match k (drop (S n) s) with
            | Some x => Some x
            | None => backtrack k (a :: s) (S n)
            end).
    rewrite IH. cbn [backtrack]. by destruct (k (drop (S n) s)).
Qed.

Lemma star_loop_Cls {A} p (k : str → caps → option A) n s c :
  length s ≤ n →
  star_loop (Cls p) k n s c
  = backtrack (fun t => k t c) s (length (takewhile p s)).
Proof.
  revert s. induction n as [|n IH]; intros s Hn.
  - destruct s; [done|]. cbn [length] in Hn. lia.
  - destruct s as [|a s]; [done|]. cbn [star_loop mtch takewhile].
    destruct (p a); [|done].
    replace (length s <? length (a :: s)) with true
      by (symmetry; apply Nat.ltb_lt; cbn [length]; lia).
    cbn [length] in Hn. fold (@star_loop A (Cls p) k).
    rewrite IH by lia. cbn [length]. by rewrite backtrack_cons.
Qed.

Lemma mtch_Star_Cls {A} p s c (k : str → caps → option A) :
  mtch (Star (Cls p)) s c k
  = backtrack (fun t => k t c) s (length (takewhile p s)).
Proof. rewrite mtch_Star. by apply star_loop_Cls. Qed.

Lemma mtch_Plus_Cls {A} p s c (k : str → caps → option A) :
  mtch (Plus (Cls p)) s c k
  = match s with
    | a :: s' =>
        if p a then backtrack (fun t => k t c) s' (length (takewhile p s'))
        else None
    | [] => None
    end.
Proof.
  unfold Plus. rewrite mtch_Seq, mtch_Cls. destruct s as [|a s]; [done|].
  destruct (p a); [|done]. by rewrite mtch_Star_Cls.
Qed.

(** The longest split is the one taken when the rest of the pattern accepts
    it. *)
Lemma backtrack_greedy {A} (k : str → option A) s n x :
  k (drop n s) = Some x → backtrack k s n = Some x.
Proof.
  intros Hk. destruct n; cbn [backtrack]; [|by rewrite Hk].
  by rewrite drop_0 in Hk.
Qed.

(** No split is taken when the rest of the pattern accepts none. *)
Lemma backtrack_none {A} (k : str → option A) s n :
  (∀ i, i ≤ n → k (drop i s) = None) → backtrack k s n = None.
Proof.
  induction n as [|n IH]; intros Hk.
  - rewrite <- (drop_0 s). apply (Hk 0). lia.
  - cbn [backtrack]. rewrite (Hk (S n)) by lia. apply IH. intros i Hi.
    apply Hk. lia.
Qed.

(** Only the longest split counts when the rest of the pattern accepts no
    shorter one. *)
Lemma backtrack_exact {A} (k : str → option A) s n :
  (∀ i, i < n → k (drop i s) = None) → backtrack k s n = k (drop n s).
Proof.
  intros Hk. destruct n as [|n]; [by rewrite drop_0|]. cbn [backtrack].
  destruct (k (drop (S n) s)); [done|]. apply backtrack_none.
  intros i Hi. apply Hk. lia.
Qed.

(** ** Words, runs and the text they cover *)

Lemma startswith_app w (r : str) : startswith w (w ++ r) = true.
Proof.
  induction w as [|a w IH]; [done|]. cbn [app startswith].
  by rewrite Ascii.eqb_refl, IH.
Qed.

Lemma startswith_inv w (s : str) :
  startswith w s = true → s = w ++ drop (length w) s.
Proof.
  revert s. induction w as [|a w IH]; intros s Hs.
  - by rewrite drop_0.
  - destruct s as [|b s]; [done|]. cbn [startswith] in Hs.
    apply andb_prop in Hs as [Hab Hs]. apply Ascii.eqb_eq in Hab as ->.
    cbn [length drop app]. f_equal. by apply IH.
Qed.

Lemma word_at_Some w (s r : str) : word_at w s = Some r ↔ s = w ++ r.
Proof.
  unfold word_at. split.
  - destruct (startswith w s) eqn:Hs; [|done]. intros [= <-].
    by apply startswith_inv.
  - intros ->. rewrite startswith_app. f_equal. by rewrite drop_app_length.
Qed.

Lemma word_at_app w (r : str) : word_at w (w ++ r) = Some r.
Proof. by apply word_at_Some. Qed.

Lemma take_covered (w r : str) : take (length (w ++ r) - length r) (w ++ r) = w.
Proof.
  rewrite length_app. replace (length w + length r - length r) with (length w) by lia.
  by rewrite take_app_length.
Qed.

Lemma run_at_Some p (s ds rest : str) :
  run_at p s = Some (ds, rest) →
  s = ds ++ rest ∧ ds = takewhile p s ∧ rest = dropwhile p s ∧ ds ≠ [].
Proof.
  unfold run_at. destruct (takewhile p s) as [|a t] eqn:Ht; [done|].
  intros [= <- <-]. rewrite <- Ht. repeat split.
  - by rewrite take_drop_while.
  - by rewrite Ht.
Qed.

(** [\d+] (or another class) in front of a part of the pattern that accepts
    whatever comes: the longest run is taken. *)
Lemma mtch_Plus_Cls_accept {A} p s c (k : str → caps → option A) :
  (∀ t c', is_Some (k t c')) →
  mtch (Plus (Cls p)) s c k
  = match run_at p s with
    | Some (_, rest) => k rest c
    | None => None
    end.
Proof.
  intros Hk. rewrite mtch_Plus_Cls. unfold run_at.
  destruct s as [|a s]; [done|]. cbn [takewhile dropwhile].
  destruct (p a); [|done].
  destruct (Hk (dropwhile p s) c) as [x Hx]. rewrite Hx.
  apply backtrack_greedy. by rewrite drop_takewhile.
Qed.

(** The same in front of a part of the pattern that cannot start with a
    character of the class: only the longest run is tried with success. *)
Lemma backtrack_class_exact {A} p (k : str → option A) s :
  (∀ a t, p a = true → k (a :: t) = None) →
  backtrack k s (length (takewhile p s)) = k (dropwhile p s).
Proof.
  intros Hk. induction s as [|a s IH]; [done|]. cbn [takewhile dropwhile].
  destruct (p a) eqn:Hp; [|done]. cbn [length].
  rewrite backtrack_cons, IH, (Hk a s Hp). by destruct (k (dropwhile p s)).
Qed.

Lemma mtch_Plus_Cls_exact {A} p s c (k : str → caps → option A) :
  (∀ a t c', p a = true → k (a :: t) c' = None) →
  mtch (Plus (Cls p)) s c k
  = match run_at p s with
    | Some (_, rest) => k rest c
    | None => None
    end.
Proof.
  intros Hk. rewrite mtch_Plus_Cls. unfold run_at.
  destruct s as [|a s]; [done|]. cbn [takewhile dropwhile].
  destruct (p a); [|done]. apply backtrack_class_exact. intros b t. apply Hk.
Qed.

Lemma mtch_Star_Cls_exact {A} p s c (k : str → caps → option A) :
  (∀ a t c', p a = true → k (a :: t) c' = None) →
  mtch (Star (Cls p)) s c k = k (dropwhile p s) c.
Proof.
  intros Hk. rewrite mtch_Star_Cls. apply backtrack_class_exact.
  intros b t. apply Hk.
Qed.

Lemma mtch_Star_Cls_accept {A} p s c (k : str → caps → option A) :
  (∀ t c', is_Some (k t c')) →
  mtch (Star (Cls p)) s c k = k (dropwhile p s) c.
Proof.
  intros Hk. rewrite mtch_Star_Cls.
  destruct (Hk (dropwhile p s) c) as [x Hx]. rewrite Hx.
  apply backtrack_greedy. by rewrite drop_takewhile.
Qed.

Lemma word_at_cat w1 w2 (s : str) :
  word_at (w1 ++ w2) s = word_at w1 s ≫= word_at w2.
Proof.
  destruct (word_at (w1 ++ w2) s) as [r2|] eqn:H3.
  - apply word_at_Some in H3 as ->. rewrite <- (assoc_L (++)).
    rewrite word_at_app. cbn. by rewrite word_at_app.
  - destruct (word_at w1 s) as [r|] eqn:H1; [|done]. cbn.
    apply word_at_Some in H1 as ->.
    destruct (word_at w2 r) as [r2|] eqn:H2; [|done].
    apply word_at_Some in H2 as ->.
    by rewrite (assoc_L (++)), word_at_app in H3.
Qed.

Lemma word_at_cons a w (s : str) :
  word_at (a :: w) s = word_at [a] s ≫= word_at w.
Proof. apply (word_at_cat [a] w). Qed.

Lemma match_at_marker marker s :
  match_at (re_marker marker) s
  = prod_map (fun id => MObj (backslash :: marker ++ id) [(2, id); (1, marker)]) id
      <$> marker_at marker s.
Proof.
  unfold match_at, re_marker, marker_at, Seqs.
  rewrite mtch_Seq, mtch_Chr, (word_at_cons backslash marker).
  destruct (word_at [backslash] s) as [r|] eqn:H1; [|reflexivity].
  apply word_at_Some in H1 as ->. cbn [mbind option_bind].
  rewrite mtch_Seq, mtch_Grp, mtch_Lit.
  destruct (word_at marker r) as [r2|] eqn:H2; [|reflexivity].
  apply word_at_Some in H2 as ->. cbn [mbind option_bind].
  rewrite take_covered, mtch_Grp. unfold d_.
  rewrite mtch_Plus_Cls_accept by (intros; eexists; reflexivity).
  destruct (run_at isdigit r2) as [[ds rest]|] eqn:H3; [|reflexivity].
  apply run_at_Some in H3 as (-> & _ & _ & _).
  cbn [fmap option_fmap option_map prod_map fst snd id].
  rewrite take_covered.
  by rewrite !(assoc_L (++)), take_covered, <- !(assoc_L (++)).
Qed.

Lemma scan_fmap {M N} (g : M → N) (f : str → option (M * str)) s n :
  scan (fun t => prod_map g id <$> f t) s n = map g (scan f s n).
Proof.
  revert n. induction s as [|a s IH]; intros n.
  - cbn [scan]. destruct n; [|done]. by destruct (f []) as [[m r]|].
  - cbn [scan]. destruct n; [|by apply IH].
    destruct (f (a :: s)) as [[m r]|]; cbn; by rewrite IH.
Qed.

Lemma scan_ext {M} (f g : str → option (M * str)) s n :
  (∀ t, f t = g t) → scan f s n = scan g s n.
Proof.
  intros Hfg. revert n. induction s as [|a s IH]; intros n.
  - cbn [scan]. by rewrite Hfg.
  - cbn [scan]. rewrite Hfg. destruct n; [|done].
    destruct (g (a :: s)) as [[m r]|]; by rewrite IH.
Qed.

Lemma first_at_ext {M} (f g : str → option (M * str)) s :
  (∀ t, f t = g t) → first_at f s = first_at g s.
Proof.
  intros Hfg. induction s as [|a s IH]; cbn [first_at]; rewrite Hfg; [done|].
  by rewrite IH.
Qed.

Lemma first_at_fmap {M N} (g : M → N) (f : str → option (M * str)) s :
  first_at (fun t => prod_map g id <$> f t) s = g <$> first_at f s.
Proof.
  induction s as [|a s IH]; cbn [first_at].
  - by destruct (f []) as [[m r]|].
  - destruct (f (a :: s)) as [[m r]|]; [done|]. apply IH.
Qed.

Lemma finditer_marker marker s :
  finditer (re_marker marker) s
  = map (fun id => MObj (backslash :: marker ++ id) [(2, id); (1, marker)])
      (scan (marker_at marker) s 0).
Proof.
  unfold finditer. rewrite <- scan_fmap. apply scan_ext, match_at_marker.
Qed.

Lemma match_at_rsid s :
  match_at re_rsid s
  = prod_map
      (fun id => MObj (backslash :: s#"rsid" ++ id)
                   [(whole_tag, backslash :: s#"rsid" ++ id); (revision_id, id)])
      id
      <$> marker_at s#"rsid" s.
Proof.
  unfold match_at, re_rsid, marker_at, Seqs.
  rewrite mtch_Grp, mtch_Seq, mtch_Chr, (word_at_cons backslash s#"rsid").
  destruct (word_at [backslash] s) as [r|] eqn:H1; [|reflexivity].
  apply word_at_Some in H1 as ->. cbn [mbind option_bind].
  rewrite mtch_Seq, mtch_Lit.
  destruct (word_at s#"rsid" r) as [r2|] eqn:H2; [|reflexivity].
  apply word_at_Some in H2 as ->. cbn [mbind option_bind].
  rewrite mtch_Grp. unfold d_.
  rewrite mtch_Plus_Cls_accept by (intros; eexists; reflexivity).
  destruct (run_at isdigit r2) as [[ds rest]|] eqn:H3; [|reflexivity].
  apply run_at_Some in H3 as (-> & _ & _ & _).
  cbn [fmap option_fmap option_map prod_map fst snd id].
  rewrite take_covered.
  by rewrite !(assoc_L (++)), take_covered, <- !(assoc_L (++)).
Qed.

Lemma finditer_rsid s :
  finditer re_rsid s
  = map (fun id => MObj (backslash :: s#"rsid" ++ id)
                     [(whole_tag, backslash :: s#"rsid" ++ id); (revision_id, id)])
      (scan (marker_at s#"rsid") s 0).
Proof.
  unfold finditer. rewrite <- scan_fmap. apply scan_ext, match_at_rsid.
Qed.

Lemma run_at_head_false p a (s : str) : p a = false → run_at p (a :: s) = None.
Proof. intros Hp. unfold run_at. cbn [takewhile]. by rewrite Hp. Qed.

Lemma mtch_Opt_Chr {A} a s c (k : str → caps → option A) :
  (∀ t c', k (a :: t) c' = None) →
  mtch (Opt (Chr a)) s c k
  = match s with
    | b :: t => if Ascii.eqb a b then k t c else k s c
    | [] => k s c
    end.
Proof.
  intros Hk. unfold Opt, Chr. cbn [mtch]. destruct s as [|b t]; [done|].
  destruct (Ascii.eqb a b) eqn:Hab; [|done].
  apply Ascii.eqb_eq in Hab as <-. rewrite Hk. by destruct (k t c).
Qed.

Lemma match_at_bliptag s :
  match_at re_bliptag s
  = prod_map (fun w => MObj (backslash :: w) [(whole_tag, w)]) id
      <$> bliptag_at s.
Proof.
  unfold match_at, re_bliptag, bliptag_at, Seqs.
  rewrite mtch_Seq, mtch_Chr, (word_at_cons backslash s#"bliptag").
  destruct (word_at [backslash] s) as [r|] eqn:H1; [|reflexivity].
  apply word_at_Some in H1 as ->. cbn [mbind option_bind].
  rewrite mtch_Grp, mtch_Seq, mtch_Lit.
  destruct (word_at s#"bliptag" r) as [r2|] eqn:H2; [|reflexivity].
  apply word_at_Some in H2 as ->. cbn [mbind option_bind].
  rewrite mtch_Seq, mtch_Opt_Chr.
  2:{ intros t c'. unfold d_. rewrite mtch_Plus_Cls. reflexivity. }
  unfold d_.
  destruct r2 as [|b t].
  { rewrite mtch_Plus_Cls. reflexivity. }
  destruct (Ascii.eqb "-" b) eqn:Hb.
  - apply Ascii.eqb_eq in Hb as <-.
    rewrite mtch_Plus_Cls_accept by (intros; eexists; reflexivity).
    destruct (run_at isdigit t) as [[ds rest]|] eqn:H3; [|reflexivity].
    apply run_at_Some in H3 as (-> & _ & _ & _).
    cbn [fmap option_fmap option_map prod_map fst snd id mbind option_bind].
    f_equal. f_equal. 
    assert (E : [backslash] ++ s#"bliptag" ++ "-"%char :: ds ++ rest
                = ([backslash] ++ s#"bliptag-" ++ ds) ++ rest)
      by (by rewrite <- !(assoc_L (++))).
    assert (E2 : s#"bliptag" ++ "-"%char :: ds ++ rest
                = (s#"bliptag-" ++ ds) ++ rest)
      by (by rewrite <- !(assoc_L (++))).
    rewrite E, E2, !take_covered. reflexivity.
  - rewrite mtch_Plus_Cls_accept by (intros; eexists; reflexivity).
    assert (Hm : ∀ X (x y : X), match b with "-"%char => x | _ => y end = y).
    { intros X x y. apply Ascii.eqb_neq in Hb.
      destruct b as [[] [] [] [] [] [] [] []]; try reflexivity. done. }
    rewrite Hm.
    destruct (run_at isdigit (b :: t)) as [[ds rest]|] eqn:H3; [|reflexivity].
    apply run_at_Some in H3 as (E3 & _ & _ & _). rewrite E3.
    cbn [fmap option_fmap option_map prod_map fst snd id mbind option_bind].
    rewrite !(assoc_L (++)), !take_covered. reflexivity.
Qed.

Lemma isspace_not_hex a : isspace a = true → hex_lower a = false.
Proof. destruct a as [[] [] [] [] [] [] [] []]; by vm_compute. Qed.

Lemma isspace_not_rbrace a : isspace a = true → not_rbrace a = true.
Proof. destruct a as [[] [] [] [] [] [] [] []]; by vm_compute. Qed.

Lemma isdigit_not_backslash a : isdigit a = true → a ≠ backslash.
Proof. destruct a as [[] [] [] [] [] [] [] []]; by vm_compute. Qed.

Lemma isspace_not_backslash a : isspace a = true → a ≠ backslash.
Proof. destruct a as [[] [] [] [] [] [] [] []]; by vm_compute. Qed.

Lemma hex_not_backslash a : hex_lower a = true → a ≠ backslash.
Proof. destruct a as [[] [] [] [] [] [] [] []]; by vm_compute. Qed.

Lemma match_at_blipuid s :
  match_at re_blipuid s
  = prod_map
      (fun '(w, u) => MObj (backslash :: w) [(whole_tag, w); (unique_id, u)]) id
      <$> blipuid_at s.
Proof.
  unfold match_at, re_blipuid, blipuid_at, Seqs.
  rewrite mtch_Seq, mtch_Chr, (word_at_cons backslash s#"blipuid").
  destruct (word_at [backslash] s) as [r|] eqn:H1; [|reflexivity].
  apply word_at_Some in H1 as ->. cbn [mbind option_bind].
  rewrite mtch_Grp, mtch_Seq, mtch_Lit.
  destruct (word_at s#"blipuid" r) as [r2|] eqn:H2; [|reflexivity].
  apply word_at_Some in H2 as ->. cbn [mbind option_bind].
  rewrite mtch_Seq. unfold s_.
  rewrite mtch_Plus_Cls_exact.
  2:{ intros a t c' Ha. rewrite mtch_Grp, mtch_Plus_Cls.
      by rewrite (isspace_not_hex a Ha). }
  destruct (run_at isspace r2) as [[ws r3]|] eqn:H3; [|reflexivity].
  apply run_at_Some in H3 as (-> & _ & _ & _). cbn [mbind option_bind].
  rewrite mtch_Grp.
  rewrite mtch_Plus_Cls_accept by (intros; eexists; reflexivity).
  destruct (run_at hex_lower r3) as [[u rest]|] eqn:H4; [|reflexivity].
  apply run_at_Some in H4 as (-> & _ & _ & _).
  cbn [fmap option_fmap option_map prod_map fst snd id mbind option_bind].
  rewrite take_covered.
  assert (E : [backslash] ++ s#"blipuid" ++ ws ++ u ++ rest
              = ([backslash] ++ s#"blipuid" ++ ws ++ u) ++ rest)
    by (by rewrite <- !(assoc_L (++))).
  assert (E2 : s#"blipuid" ++ ws ++ u ++ rest = (s#"blipuid" ++ ws ++ u) ++ rest)
    by (by rewrite <- !(assoc_L (++))).
  rewrite E, E2, !take_covered. reflexivity.
Qed.

Lemma match_at_rsidtbl s :
  prod_map (group 1) id <$> match_at re_rsidtbl s = rsidtbl_at s.
Proof.
  unfold match_at, re_rsidtbl, rsidtbl_at, Seqs.
  rewrite mtch_Seq, mtch_Chr,
    (word_at_cons backslash ("*"%char :: backslash :: s#"rsidtbl")).
  destruct (word_at [backslash] s) as [r|] eqn:H1; [|reflexivity].
  apply word_at_Some in H1 as ->. cbn [mbind option_bind].
  rewrite mtch_Seq, mtch_Chr, (word_at_cons "*"%char (backslash :: s#"rsidtbl")).
  destruct (word_at ["*"%char] r) as [r1|] eqn:H2; [|reflexivity].
  apply word_at_Some in H2 as ->. cbn [mbind option_bind].
  rewrite mtch_Seq, mtch_Chr, (word_at_cons backslash s#"rsidtbl").
  destruct (word_at [backslash] r1) as [r2|] eqn:H3; [|reflexivity].
  apply word_at_Some in H3 as ->. cbn [mbind option_bind].
  rewrite mtch_Seq, mtch_Lit.
  destruct (word_at s#"rsidtbl" r2) as [r3|] eqn:H4; [|reflexivity].
  apply word_at_Some in H4 as ->. cbn [mbind option_bind].
  rewrite mtch_Seq. unfold s_. rewrite mtch_Cls.
  destruct r3 as [|a r4]; [reflexivity|].
  destruct (isspace a); [|reflexivity].
  rewrite mtch_Seq, mtch_Grp, mtch_Plus_Cls_exact.
  2:{ intros b t c' Hb. rewrite mtch_Chr. unfold word_at. cbn [startswith].
      unfold not_rbrace in Hb. apply negb_true_iff in Hb.
      rewrite Ascii.eqb_sym in Hb. by rewrite Hb. }
  destruct (run_at not_rbrace r4) as [[body r5]|] eqn:H5; [|reflexivity].
  apply run_at_Some in H5 as (-> & _ & _ & _). cbn [mbind option_bind].
  rewrite mtch_Chr, take_covered.
  destruct r5 as [|b rest]; [reflexivity|].
  unfold word_at. cbn [startswith length drop].
  destruct (Ascii.eqb "}" b) eqn:Hb.
  - apply Ascii.eqb_eq in Hb as <-. destruct rest; reflexivity.
  - cbn [andb].
    assert (Hm : ∀ X (x y : X), match b with "}"%char => x | _ => y end = y).
    { intros X x y. apply Ascii.eqb_neq in Hb.
      destruct b as [[] [] [] [] [] [] [] []]; try reflexivity. done. }
    by rewrite Hm.
Qed.

Lemma search_rsidtbl s :
  group 1 <$> search re_rsidtbl s = first_at rsidtbl_at s.
Proof.
  unfold search. rewrite <- first_at_fmap. apply first_at_ext, match_at_rsidtbl.
Qed.

(** ** The matcher and its continuation *)

Lemma star_loop_ext {A} r (k1 k2 : str → caps → option A) :
  (∀ s c (k k' : str → caps → option A),
     (∀ s' c', k s' c' = k' s' c') → mtch r s c k = mtch r s c k') →
  (∀ s' c', k1 s' c' = k2 s' c') →
  ∀ n s c, star_loop r k1 n s c = star_loop r k2 n s c.
Proof.
  intros Hr Hk n. induction n as [|n IH]; intros s c; cbn [star_loop].
  - apply Hk.
  - fold (@star_loop A r k1). fold (@star_loop A r k2).
    rewrite (Hr s c _ (fun s' c' =>
      if length s' <? length s then star_loop r k2 n s' c' else None)).
    + by rewrite Hk.
    + intros s' c'. by rewrite IH.
Qed.

Lemma mtch_ext {A} r s c (k1 k2 : str → caps → option A) :
  (∀ s' c', k1 s' c' = k2 s' c') → mtch r s c k1 = mtch r s c k2.
Proof.
  revert s c k1 k2.
  induction r as [|p|r1 IH1 r2 IH2|r1 IH1 r2 IH2|r IH|i r IH];
    intros s c k1 k2 Hk.
  - apply Hk.
  - rewrite !mtch_Cls. destruct s as [|a s]; [done|]. by rewrite Hk.
  - rewrite !mtch_Seq. apply IH1. intros s' c'. by apply IH2.
  - cbn [mtch]. by rewrite (IH1 s c k1 k2 Hk), (IH2 s c k1 k2 Hk).
  - rewrite !mtch_Star. by apply star_loop_ext.
  - rewrite !mtch_Grp. apply IH. intros s' c'. apply Hk.
Qed.

Lemma star_loop_fmap {A B} (f : A → B) r (k : str → caps → option A) :
  (∀ s c (k : str → caps → option A),
     f <$> mtch r s c k = mtch r s c (fun s' c' => f <$> k s' c')) →
  ∀ n s c,
    f <$> star_loop r k n s c = star_loop r (fun s' c' => f <$> k s' c') n s c.
Proof.
  intros Hr n. induction n as [|n IH]; intros s c; cbn [star_loop]; [done|].
  fold (@star_loop A r k). fold (@star_loop B r (fun s' c' => f <$> k s' c')).
  rewrite <- (mtch_ext r s c
    (fun s' c' => f <$> (if length s' <? length s then star_loop r k n s' c'
                         else None))).
  - rewrite <- Hr.
    by destruct (mtch r s c _).
  - intros s' c'. destruct (length s' <? length s); [apply IH|done].
Qed.

Lemma mtch_fmap {A B} (f : A → B) r s c (k : str → caps → option A) :
  f <$> mtch r s c k = mtch r s c (fun s' c' => f <$> k s' c').
Proof.
  revert s c k.
  induction r as [|p|r1 IH1 r2 IH2|r1 IH1 r2 IH2|r IH|i r IH]; intros s c k.
  - done.
  - rewrite !mtch_Cls. destruct s as [|a s]; [done|]. by destruct (p a).
  - rewrite !mtch_Seq, IH1. apply mtch_ext. intros s' c'. apply IH2.
  - cbn [mtch]. rewrite <- IH1, <- IH2. by destruct (mtch r1 s c k).
  - rewrite !mtch_Star. by apply star_loop_fmap.
  - rewrite !mtch_Grp. apply IH.
Qed.

(** The text of group 1 when the whole pattern is that group. *)
Lemma match_at_Grp_1 r s :
  prod_map (group 1) id <$> match_at (Grp 1 r) s
  = mtch r s [] (fun s' _ => Some (take (length s - length s') s, s')).
Proof. unfold match_at. by rewrite mtch_fmap, mtch_Grp. Qed.

(** A group around a part of the pattern does not matter to a continuation
    that does not look at the groups. *)
Lemma mtch_Grp_ignored {A} i r s c (k : str → option A) :
  mtch (Grp i r) s c (fun s' _ => k s') = mtch r s c (fun s' _ => k s').
Proof. by rewrite mtch_Grp. Qed.

(** ** Alternatives of words *)

Lemma mtch_Alts_cons {A} r1 r2 rs s c (k : str → caps → option A) :
  mtch (Alts (r1 :: r2 :: rs)) s c k
  = match mtch r1 s c k with
    | Some x => Some x
    | None => mtch (Alts (r2 :: rs)) s c k
    end.
Proof. reflexivity. Qed.

(** The words are tried in order; a word counts when the text starts with it
    and the rest of the pattern, which [next] describes, goes through. *)
Lemma mtch_Alts_Lit_None {A B} ws (next : str → option B) s c
    (k : str → caps → option A) :
  (∀ s', next s' = None → k s' c = None) →
  one_of ws next s = None →
  mtch (Alts (map Lit ws)) s c k = None.
Proof.
  intros H1. induction ws as [|w ws IH]; [by destruct s|].
  cbn [one_of]. destruct (word_at w s ≫= next) as [b|] eqn:Hw; [done|].
  intros Hrest.
  assert (Hone : mtch (Lit w) s c k = None).
  { rewrite mtch_Lit. destruct (word_at w s) as [r|]; [|done].
    apply H1. exact Hw. }
  destruct ws as [|w2 ws]; [exact Hone|].
  change (map Lit (w :: w2 :: ws)) with (Lit w :: Lit w2 :: map Lit ws).
  rewrite mtch_Alts_cons, Hone. by apply IH.
Qed.

Lemma mtch_Alts_Lit_Some {A B} ws (next : str → option B) s c
    (k : str → caps → option A) b x :
  (∀ s', next s' = None → k s' c = None) →
  (∀ s', next s' = Some b → k s' c = Some x) →
  one_of ws next s = Some b →
  mtch (Alts (map Lit ws)) s c k = Some x.
Proof.
  intros H1 H2. induction ws as [|w ws IH]; [done|].
  cbn [one_of]. destruct (word_at w s ≫= next) as [b'|] eqn:Hw.
  - intros [= ->].
    assert (Hone : mtch (Lit w) s c k = Some x).
    { rewrite mtch_Lit. destruct (word_at w s) as [r|]; [|done].
      apply H2. exact Hw. }
    destruct ws as [|w2 ws]; [exact Hone|].
    change (map Lit (w :: w2 :: ws)) with (Lit w :: Lit w2 :: map Lit ws).
    by rewrite mtch_Alts_cons, Hone.
  - intros Hrest.
    assert (Hone : mtch (Lit w) s c k = None).
    { rewrite mtch_Lit. destruct (word_at w s) as [r|]; [|done].
      apply H1. exact Hw. }
    destruct ws as [|w2 ws]; [done|].
    change (map Lit (w :: w2 :: ws)) with (Lit w :: Lit w2 :: map Lit ws).
    rewrite mtch_Alts_cons, Hone. by apply IH.
Qed.

(** ** Image sizes *)

Lemma size_item_shorter s r : size_item s = Some r → length r < length s.
Proof.
  unfold size_item. destruct (word_at [backslash] s) as [r0|] eqn:H0; [|done].
  apply word_at_Some in H0 as ->. cbn [mbind option_bind].
  assert (Hone : ∀ ws r',
    one_of ws
      (fun r => '(_, r') ← run_at isdigit r; Some (dropwhile isspace r')) r0
    = Some r' → length r' ≤ length r0).
  { intros ws. induction ws as [|w ws IH]; intros r'; [done|]. cbn [one_of].
    destruct (word_at w r0) as [r1|] eqn:H1; [|by apply IH].
    cbn [mbind option_bind].
    destruct (run_at isdigit r1) as [[ds r2]|] eqn:H2; [|by apply IH].
    cbn [mbind option_bind]. intros [= <-].
    apply word_at_Some in H1 as ->. apply run_at_Some in H2 as (-> & _).
    rewrite !length_app. pose proof (length_dropwhile isspace r2). lia. }
  intros Hr. apply Hone in Hr. cbn [app length]. lia.
Qed.

(** The digits and the whitespace that end an image size. *)
Lemma mtch_size_tail_None {A} s c (k : str → caps → option A) :
  run_at isdigit s = None → mtch (Seq (Plus d_) (Star s_)) s c k = None.
Proof.
  unfold run_at, d_. rewrite mtch_Seq, mtch_Plus_Cls.
  destruct s as [|a s]; [done|]. cbn [takewhile]. by destruct (isdigit a).
Qed.

Lemma mtch_size_tail_Some {A} s c (k : str → caps → option A) ds r x :
  run_at isdigit s = Some (ds, r) →
  k (dropwhile isspace r) c = Some x →
  mtch (Seq (Plus d_) (Star s_)) s c k = Some x.
Proof.
  unfold run_at, d_, s_. rewrite mtch_Seq, mtch_Plus_Cls.
  destruct s as [|a s]; [done|]. cbn [takewhile dropwhile].
  destruct (isdigit a); [|done]. intros [= _ <-] Hk.
  apply backtrack_greedy. rewrite drop_takewhile, mtch_Star_Cls.
  apply backtrack_greedy. by rewrite drop_takewhile.
Qed.

(** One image size in front of a continuation: without one there is no
    match; with one, the continuation gets what follows it, and what it
    answers is the answer when it accepts. *)
Lemma mtch_image_size_None {A} s c (k : str → caps → option A) :
  size_item s = None → mtch re_image_size s c k = None.
Proof.
  unfold size_item, re_image_size, Seqs. rewrite mtch_Seq, mtch_Chr.
  destruct (word_at [backslash] s) as [r|]; [|done]. cbn [mbind option_bind].
  intros Hnone. rewrite mtch_Seq.
  refine (mtch_Alts_Lit_None size_tags _ _ _ _ _ Hnone).
  intros s' Hs'. apply mtch_size_tail_None.
  by destruct (run_at isdigit s') as [[ds r']|].
Qed.

Lemma mtch_image_size_Some {A} s c (k : str → caps → option A) r x :
  size_item s = Some r → k r c = Some x → mtch re_image_size s c k = Some x.
Proof.
  unfold size_item, re_image_size, Seqs. rewrite mtch_Seq, mtch_Chr.
  destruct (word_at [backslash] s) as [r0|]; [|done]. cbn [mbind option_bind].
  intros Hsome Hk. rewrite mtch_Seq.
  refine (mtch_Alts_Lit_Some size_tags _ _ _ _ r x _ _ Hsome).
  - intros s' Hs'. apply mtch_size_tail_None.
    by destruct (run_at isdigit s') as [[ds r']|].
  - intros s' Hs'. destruct (run_at isdigit s') as [[ds r']|] eqn:Hrun; [|done].
    cbn [mbind option_bind] in Hs'. injection Hs' as <-.
    by apply (mtch_size_tail_Some _ _ _ ds r').
Qed.

(** The repetition of image sizes in front of a continuation that accepts
    whatever comes. *)
Lemma star_loop_image_sizes {A} (k : str → caps → option A) n s c :
  (∀ t c', is_Some (k t c')) →
  star_loop re_image_size k n s c = k (size_items n s) c.
Proof.
  intros Hk. revert s. induction n as [|n IH]; intros s; [done|].
  cbn [star_loop size_items]. fold (@star_loop A re_image_size k).
  destruct (size_item s) as [r|] eqn:Hitem.
  - destruct (Hk (size_items n r) c) as [x Hx].
    rewrite (mtch_image_size_Some s c _ r x Hitem); [by rewrite Hx|].
    apply size_item_shorter in Hitem.
    replace (length r <? length s) with true
      by (symmetry; by apply Nat.ltb_lt).
    by rewrite IH.
  - by rewrite mtch_image_size_None.
Qed.

Lemma match_at_image_sizes s :
  prod_map (group longest_match) id <$> match_at re_image_sizes s
  = size_run_at s.
Proof.
  unfold re_image_sizes, longest_match. rewrite match_at_Grp_1.
  unfold Plus, size_run_at. rewrite mtch_Seq.
  destruct (size_item s) as [r|] eqn:Hitem; cbn [mbind option_bind].
  - apply (mtch_image_size_Some s [] _ r _ Hitem).
    rewrite mtch_Star. by rewrite star_loop_image_sizes by (intros; eexists; reflexivity).
  - by apply mtch_image_size_None.
Qed.

Lemma finditer_image_sizes s :
  map (group longest_match) (finditer re_image_sizes s) = size_runs s.
Proof.
  unfold finditer, size_runs. rewrite <- scan_fmap.
  apply scan_ext, match_at_image_sizes.
Qed.

(** ** Metadata groups *)

Lemma backtrack_ext {A} (k1 k2 : str → option A) s n :
  (∀ t, k1 t = k2 t) → backtrack k1 s n = backtrack k2 s n.
Proof.
  intros Hk. induction n as [|n IH]; cbn [backtrack]; rewrite Hk; [done|].
  by rewrite IH.
Qed.

(** All the splits that the rest of the pattern accepts give the same
    answer, and the shortest one is accepted. *)
Lemma backtrack_same {A} (k : str → option A) s n x :
  (∀ i, i ≤ n → k (drop i s) = None ∨ k (drop i s) = Some x) →
  k s = Some x →
  backtrack k s n = Some x.
Proof.
  intros Hall H0. induction n as [|n IH]; [done|]. cbn [backtrack].
  destruct (Hall (S n) ltac:(lia)) as [-> | ->]; [|done].
  apply IH. intros i Hi. apply Hall. lia.
Qed.

Lemma Forall_dropwhile (P : ascii → Prop) p (s : str) :
  Forall P s → Forall P (dropwhile p s).
Proof.
  induction 1 as [|a s Ha Hs IH]; [constructor|]. cbn [dropwhile].
  destruct (p a); [done|]. by constructor.
Qed.

Lemma Forall_drop_takewhile p (s : str) i :
  dropwhile p s = [] → Forall (fun a => p a = true) (drop i s).
Proof.
  intros Hd. apply Forall_drop. rewrite <- (take_drop_while p s), Hd, app_nil_r.
  apply Forall_takewhile.
Qed.

Lemma mtch_closing_None {A} u c (k : str → caps → option A) :
  Forall (fun a => not_rbrace a = true) u →
  mtch (Seq (Star s_) (Chr "}")) u c k = None.
Proof.
  intros Hu. unfold s_. rewrite mtch_Seq, mtch_Star_Cls_exact.
  - rewrite mtch_Chr. apply (Forall_dropwhile _ isspace) in Hu.
    destruct (dropwhile isspace u) as [|b t]; [done|].
    apply Forall_cons in Hu as [Hb _]. unfold word_at. cbn [startswith].
    unfold not_rbrace in Hb. apply negb_true_iff in Hb.
    rewrite Ascii.eqb_sym in Hb. by rewrite Hb.
  - intros a t c' Ha. rewrite mtch_Chr. unfold word_at. cbn [startswith].
    apply isspace_not_rbrace in Ha. unfold not_rbrace in Ha.
    apply negb_true_iff in Ha. rewrite Ascii.eqb_sym in Ha. by rewrite Ha.
Qed.

Lemma mtch_closing_Some {A} rest c (k : str → caps → option A) :
  mtch (Seq (Star s_) (Chr "}")) ("}"%char :: rest) c k = k rest c.
Proof.
  unfold s_. rewrite mtch_Seq, mtch_Star_Cls. cbn [takewhile length backtrack].
  change (isspace "}") with false. cbn [length backtrack].
  rewrite mtch_Chr. unfold word_at. cbn [startswith length drop].
  rewrite Ascii.eqb_refl. by destruct rest.
Qed.

(** The second group and the end of the metadata pattern, in front of a
    continuation that accepts whatever comes and does not look at the
    groups. *)
Lemma mtch_info_closing {A} t c (k : str → option A) :
  (∀ t, is_Some (k t)) →
  mtch (Seq (Grp 2 (Plus (Cls not_rbrace))) (Seq (Star s_) (Chr "}"))) t c
    (fun s' _ => k s')
  = match closing t with
    | Some rest => k rest
    | None => None
    end.
Proof.
  intros Hk. unfold closing, run_at. rewrite mtch_Seq, mtch_Grp, mtch_Plus_Cls.
  destruct t as [|b t]; [done|]. cbn [takewhile dropwhile].
  destruct (not_rbrace b) eqn:Hb; [|done]. cbn [mbind option_bind].
  destruct (dropwhile not_rbrace t) as [|a rest] eqn:Hd.
  - apply backtrack_none. intros i _. apply mtch_closing_None.
    by apply Forall_drop_takewhile.
  - assert (Ha := dropwhile_head _ _ _ _ Hd).
    unfold not_rbrace in Ha. apply negb_false_iff, Ascii.eqb_eq in Ha as ->.
    destruct (Hk rest) as [x Hx]. rewrite Hx. apply backtrack_greedy.
    by rewrite drop_takewhile, Hd, mtch_closing_Some.
Qed.

Lemma closing_cons a t :
  not_rbrace a = true → closing t = None ∨ closing t = closing (a :: t).
Proof.
  intros Ha. unfold closing, run_at. cbn [takewhile dropwhile]. rewrite Ha.
  destruct (takewhile not_rbrace t); [by left|by right].
Qed.

Lemma closing_drop_space t i :
  i ≤ length (takewhile isspace t) →
  closing (drop i t) = None ∨ closing (drop i t) = closing t.
Proof.
  revert t. induction i as [|i IH]; intros t Hi; [right; by rewrite drop_0|].
  destruct t as [|a t]; [by right|]. cbn [takewhile] in Hi.
  destruct (isspace a) eqn:Ha; [|cbn [length] in Hi; lia].
  cbn [length] in Hi. cbn [drop].
  destruct (IH t ltac:(lia)) as [H|H]; [by left|].
  rewrite H. by apply closing_cons, isspace_not_rbrace.
Qed.

(** The whitespace after the tag, the value and the closing brace. *)
Lemma mtch_info_value {A} r c (k : str → option A) :
  (∀ t, is_Some (k t)) →
  mtch (Seqs [Plus s_; Grp 2 (Plus (Cls not_rbrace)); Star s_; Chr "}"]) r c
    (fun s' _ => k s')
  = match info_value r with
    | Some rest => k rest
    | None => None
    end.
Proof.
  intros Hk. unfold Seqs, info_value, s_. rewrite mtch_Seq, mtch_Plus_Cls.
  destruct r as [|a r1]; [done|]. destruct (isspace a); [|done].
  rewrite (backtrack_ext _
    (fun t => match closing t with Some rest => k rest | None => None end))
    by (intros t; by apply mtch_info_closing).
  destruct (closing r1) as [rest|] eqn:Hc.
  - destruct (Hk rest) as [x Hx]. rewrite Hx. apply backtrack_same.
    + intros i Hi. destruct (closing_drop_space r1 i Hi) as [-> | ->];
        [by left|right]. by rewrite Hc.
    + by rewrite Hc.
  - apply backtrack_none. intros i Hi.
    destruct (closing_drop_space r1 i Hi) as [-> | ->]; [done|]. by rewrite Hc.
Qed.

Lemma match_at_info_group s :
  prod_map (group whole_tag) id <$> match_at re_info_group s
  = info_group_at s.
Proof.
  unfold re_info_group, whole_tag. rewrite match_at_Grp_1.
  unfold info_group_at.
  change (Seqs [Chr "{"; Star s_; Chr backslash; Alts (map Lit info_tags);
                Plus s_; Grp 2 (Plus (Cls not_rbrace)); Star s_; Chr "}"])
    with (Seq (Chr "{") (Seq (Star s_) (Seq (Chr backslash)
           (Seq (Alts (map Lit info_tags))
              (Seqs [Plus s_; Grp 2 (Plus (Cls not_rbrace)); Star s_;
                     Chr "}"]))))).
  rewrite mtch_Seq. unfold Chr at 1. rewrite mtch_Cls.
  destruct s as [|b s1]; [done|].
  destruct (Ascii.eqb "{" b) eqn:Hb.
  2:{ apply Ascii.eqb_neq in Hb.
      destruct b as [[] [] [] [] [] [] [] []]; try reflexivity. done. }
  apply Ascii.eqb_eq in Hb as <-.
  rewrite mtch_Seq. unfold s_ at 1. rewrite mtch_Star_Cls_exact.
  2:{ intros a t c' Ha. rewrite mtch_Seq, mtch_Chr. unfold word_at.
      cbn [startswith]. apply isspace_not_backslash in Ha.
      apply Ascii.eqb_neq in Ha. rewrite Ascii.eqb_sym in Ha. by rewrite Ha. }
  rewrite mtch_Seq, mtch_Chr.
  destruct (word_at [backslash] (dropwhile isspace s1)) as [r|]; [|done].
  cbn [mbind option_bind]. rewrite mtch_Seq.
  set (kk := fun s' : str =>
         Some (take (length ("{"%char :: s1) - length s') ("{"%char :: s1), s')).
  assert (Hkk : ∀ t, is_Some (kk t)) by (intros; eexists; reflexivity).
  destruct (one_of info_tags info_value r) as [rest|] eqn:Hone;
    cbn [mbind option_bind].
  - refine (mtch_Alts_Lit_Some info_tags _ _ _ _ rest _ _ _ Hone).
    + intros s' Hs'. etransitivity; [exact (mtch_info_value s' [] kk Hkk)|]. by rewrite Hs'.
    + intros s' Hs'. etransitivity; [exact (mtch_info_value s' [] kk Hkk)|]. by rewrite Hs'.
  - refine (mtch_Alts_Lit_None info_tags _ _ _ _ _ Hone).
    intros s' Hs'. etransitivity; [exact (mtch_info_value s' [] kk Hkk)|]. by rewrite Hs'.
Qed.

Lemma finditer_info_group s :
  map (group whole_tag) (finditer re_info_group s) = info_groups s.
Proof.
  unfold finditer, info_groups. rewrite <- scan_fmap.
  apply scan_ext, match_at_info_group.
Qed.

(** ** Scanning without overlap and trying every position *)

Lemma suffixes_cons a (s : str) : suffixes (a :: s) = (a :: s) :: suffixes s.
Proof. reflexivity. Qed.

Lemma everywhere_cons {M} (f : str → option (M * str)) a s :
  everywhere f (a :: s)
  = match f (a :: s) with
    | Some (m, _) => m :: everywhere f s
    | None => everywhere f s
    end.
Proof.
  unfold everywhere. rewrite suffixes_cons. cbn [omap list_omap].
  by destruct (f (a :: s)) as [[m r]|].
Qed.

Lemma everywhere_nil {M} (f : str → option (M * str)) :
  everywhere f [] = match f [] with Some (m, _) => [m] | None => [] end.
Proof. unfold everywhere. cbn. by destruct (f []) as [[m r]|]. Qed.

(** When nothing can be found at a position inside what was found before,
    the scan finds what there is to find at every position. *)
Lemma scan_everywhere_from {M} (f : str → option (M * str)) s n :
  (∀ t m rest i, f t = Some (m, rest) →
     0 < i → i < length t - length rest → f (drop i t) = None) →
  (∀ i, i < n → f (drop i s) = None) →
  scan f s n = everywhere f s.
Proof.
  intros Hno. revert n. induction s as [|a s IH]; intros n Hn.
  - rewrite everywhere_nil. cbn [scan]. destruct n as [|n]; [done|].
    pose proof (Hn 0 ltac:(lia)) as H0. rewrite drop_0 in H0. by rewrite H0.
  - rewrite everywhere_cons. cbn [scan]. destruct n as [|n].
    + destruct (f (a :: s)) as [[m rest]|] eqn:Hf.
      * f_equal. apply IH. intros i Hi.
        apply (Hno (a :: s) m rest (S i) Hf); cbn [length] in *; lia.
      * apply IH. intros i Hi. lia.
    + pose proof (Hn 0 ltac:(lia)) as H0. rewrite drop_0 in H0. rewrite H0.
      apply IH. intros i Hi. apply (Hn (S i)). lia.
Qed.

Lemma scan_everywhere {M} (f : str → option (M * str)) s :
  (∀ t m rest i, f t = Some (m, rest) →
     0 < i → i < length t - length rest → f (drop i t) = None) →
  scan f s 0 = everywhere f s.
Proof. intros Hno. apply scan_everywhere_from; [done|]. intros i Hi. lia. Qed.

(** A reader that only starts at a backslash and never reads past another
    one cannot find anything inside what it has found. *)
Lemma no_overlap_backslash {M} (f : str → option (M * str)) :
  (∀ t m rest, f t = Some (m, rest) →
     ∃ body, t = backslash :: body ++ rest
             ∧ Forall (fun a => a ≠ backslash) body) →
  ∀ t m rest i, f t = Some (m, rest) →
    0 < i → i < length t - length rest → f (drop i t) = None.
Proof.
  intros Hshape t m rest i Hf Hi0 Hi.
  destruct (Hshape _ _ _ Hf) as (body & -> & Hbody).
  destruct (f (drop i (backslash :: body ++ rest))) as [[m' rest']|] eqn:Hf';
    [|done].
  destruct (Hshape _ _ _ Hf') as (body' & Hd & _).
  destruct i as [|i]; [lia|]. cbn [drop] in Hd.
  cbn [length] in Hi. rewrite length_app in Hi.
  rewrite drop_app_le in Hd by lia.
  destruct (drop i body) as [|b t'] eqn:Hdb.
  - apply (f_equal length) in Hdb. rewrite length_drop in Hdb.
    cbn [length] in Hdb. lia.
  - cbn [app] in Hd. injection Hd as -> _.
    assert (Hin : backslash ∈ drop i body) by (rewrite Hdb; left).
    apply (Forall_drop _ i) in Hbody. rewrite Forall_forall in Hbody.
    by apply Hbody in Hin.
Qed.

Lemma Forall_isdigit_not_backslash (ds : str) :
  Forall (fun a => isdigit a = true) ds → Forall (fun a => a ≠ backslash) ds.
Proof.
  intros H. eapply Forall_impl; [exact H|]. intros a. apply isdigit_not_backslash.
Qed.

Lemma run_at_Forall p s ds rest :
  run_at p s = Some (ds, rest) → Forall (fun a => p a = true) ds.
Proof.
  intros H. apply run_at_Some in H as (_ & -> & _). apply Forall_takewhile.
Qed.

Lemma marker_at_shape marker t id rest :
  marker_at marker t = Some (id, rest) →
  t = backslash :: (marker ++ id) ++ rest
  ∧ Forall (fun a => isdigit a = true) id ∧ id ≠ [].
Proof.
  unfold marker_at.
  destruct (word_at (backslash :: marker) t) as [r|] eqn:Hw; [|done].
  apply word_at_Some in Hw as ->. cbn [mbind option_bind]. intros Hr.
  pose proof (run_at_Forall _ _ _ _ Hr) as Hds.
  apply run_at_Some in Hr as (-> & _ & _ & Hne).
  split; [|done]. cbn [app]. by rewrite <- !(assoc_L (++)).
Qed.

Lemma marker_scan_everywhere marker s :
  Forall (fun a => a ≠ backslash) marker →
  scan (marker_at marker) s 0 = everywhere (marker_at marker) s.
Proof.
  intros Hm. apply scan_everywhere, no_overlap_backslash.
  intros t id rest Hf. apply marker_at_shape in Hf as (-> & Hds & _).
  eexists. split; [reflexivity|]. apply Forall_app. split; [done|].
  by apply Forall_isdigit_not_backslash.
Qed.

Lemma bliptag_at_shape t w rest :
  bliptag_at t = Some (w, rest) →
  t = backslash :: w ++ rest
  ∧ Forall (fun a => a ≠ backslash) w
  ∧ startswith s#"bliptag" w = true.
Proof.
  unfold bliptag_at.
  destruct (word_at (backslash :: s#"bliptag") t) as [r|] eqn:Hw; [|done].
  apply word_at_Some in Hw as ->. cbn [mbind option_bind].
  assert (Hlit : Forall (fun a => a ≠ backslash) s#"bliptag")
    by (by repeat constructor).
  assert (Hlit' : Forall (fun a => a ≠ backslash) s#"bliptag-")
    by (by repeat constructor).
  assert (Hcase : ∀ pre r0,
    Forall (fun a => a ≠ backslash) pre →
    startswith s#"bliptag" pre = true →
    ('(ds, rest) ← run_at isdigit r0; Some (pre ++ ds, rest)) = Some (w, rest) →
    backslash :: pre ++ r0 = backslash :: w ++ rest
    ∧ Forall (fun a => a ≠ backslash) w ∧ startswith s#"bliptag" w = true).
  { intros pre r0 Hpre Hst.
    destruct (run_at isdigit r0) as [[ds rest0]|] eqn:Hr; [|done].
    cbn [mbind option_bind]. intros [= <- <-].
    pose proof (run_at_Forall _ _ _ _ Hr) as Hds.
    apply run_at_Some in Hr as (-> & _). repeat split.
    - by rewrite <- !(assoc_L (++)).
    - apply Forall_app. split; [done|]. by apply Forall_isdigit_not_backslash.
    - apply startswith_inv in Hst. rewrite Hst, <- (assoc_L (++)).
      apply startswith_app. }
  destruct r as [|b r'].
  - intros H. by apply (Hcase s#"bliptag" []) in H.
  - destruct (Ascii.eqb "-" b) eqn:Hb.
    + apply Ascii.eqb_eq in Hb as <-. intros H.
      apply (Hcase s#"bliptag-" r') in H; [|done..].
      destruct H as (E & H1 & H2). split; [|done]. rewrite <- E. reflexivity.
    + assert (Hm : ∀ X (x y : X), match b with "-"%char => x | _ => y end = y).
      { intros X x y. apply Ascii.eqb_neq in Hb.
        destruct b as [[] [] [] [] [] [] [] []]; try reflexivity. done. }
      rewrite Hm. intros H. by apply (Hcase s#"bliptag" (b :: r')) in H.
Qed.

Lemma blipuid_at_shape t w u rest :
  blipuid_at t = Some ((w, u), rest) →
  t = backslash :: w ++ rest
  ∧ Forall (fun a => a ≠ backslash) w
  ∧ startswith s#"blipuid" w = true
  ∧ ∃ ws, w = s#"blipuid" ++ ws ++ u
          ∧ ws ≠ [] ∧ Forall (fun a => isspace a = true) ws
          ∧ u ≠ [] ∧ Forall (fun a => hex_lower a = true) u.
Proof.
  unfold blipuid_at.
  destruct (word_at (backslash :: s#"blipuid") t) as [r|] eqn:Hw; [|done].
  apply word_at_Some in Hw as ->. cbn [mbind option_bind].
  destruct (run_at isspace r) as [[ws r1]|] eqn:H1; [|done].
  cbn [mbind option_bind].
  destruct (run_at hex_lower r1) as [[u' rest']|] eqn:H2; [|done].
  cbn [mbind option_bind]. intros [= <- <- <-].
  pose proof (run_at_Forall _ _ _ _ H1) as Hws.
  pose proof (run_at_Forall _ _ _ _ H2) as Hu.
  apply run_at_Some in H1 as (-> & _ & _ & Hws0).
  apply run_at_Some in H2 as (-> & _ & _ & Hu0).
  split; [cbn; by rewrite <- (assoc_L (++) ws)|]. split; [|split].
  - repeat (constructor; [done|]). apply Forall_app. split.
    + eapply Forall_impl; [exact Hws|]. intros a. apply isspace_not_backslash.
    + eapply Forall_impl; [exact Hu|]. intros a. apply hex_not_backslash.
  - reflexivity.
  - by exists ws.
Qed.

Lemma bliptag_scan_everywhere s : scan bliptag_at s 0 = bliptags s.
Proof.
  apply scan_everywhere, no_overlap_backslash.
  intros t w rest Hf. apply bliptag_at_shape in Hf as (-> & Hw & _).
  by exists w.
Qed.

Lemma blipuid_scan_everywhere s : scan blipuid_at s 0 = blipuids s.
Proof.
  apply scan_everywhere, no_overlap_backslash.
  intros t [w u] rest Hf. apply blipuid_at_shape in Hf as (-> & Hw & _).
  by exists w.
Qed.

(** ** The substring tests of [_find_blip_tags] *)

Lemma contains_cons w a (s : str) :
  contains w (a :: s) = startswith w (a :: s) || contains w s.
Proof. reflexivity. Qed.

Lemma contains_head w (s : str) : startswith w s = true → contains w s = true.
Proof. intros H. destruct s; cbn [contains]; by rewrite H. Qed.

(** A reader that needs the word [w] after one character finds nothing in a
    text that does not contain [w]. *)
Lemma everywhere_not_contains {M} (f : str → option (M * str)) w s :
  (∀ t x, f t = Some x → ∃ a t', t = a :: t' ∧ startswith w t' = true) →
  contains w s = false →
  everywhere f s = [].
Proof.
  intros Hf. induction s as [|a s IH]; intros Hc.
  - rewrite everywhere_nil. destruct (f []) as [[m r]|] eqn:H; [|done].
    by destruct (Hf _ _ H) as (? & ? & ? & _).
  - rewrite everywhere_cons. rewrite contains_cons in Hc.
    apply orb_false_iff in Hc as [_ Hc].
    destruct (f (a :: s)) as [[m r]|] eqn:H; [|by apply IH].
    destruct (Hf _ _ H) as (a' & t' & [= <- <-] & Hst).
    by rewrite (contains_head _ _ Hst) in Hc.
Qed.

Lemma startswith_app_l w1 w2 (s : str) :
  startswith w1 w2 = true → startswith w1 (w2 ++ s) = true.
Proof.
  intros H. apply startswith_inv in H. rewrite H, <- (assoc_L (++)).
  apply startswith_app.
Qed.

Lemma bliptags_not_contains s :
  contains s#"bliptag" s = false → bliptags s = [].
Proof.
  apply everywhere_not_contains. intros t [w rest] Hf.
  apply bliptag_at_shape in Hf as (-> & _ & Hst).
  eexists _, _. split; [reflexivity|]. by apply startswith_app_l.
Qed.

Lemma blipuids_not_contains s :
  contains s#"blipuid" s = false → blipuids s = [].
Proof.
  apply everywhere_not_contains. intros t [[w u] rest] Hf.
  apply blipuid_at_shape in Hf as (-> & _ & Hst & _).
  eexists _, _. split; [reflexivity|]. by apply startswith_app_l.
Qed.

(** ** What the extractors collect, in terms of the text *)

Lemma once_map ref {A B} (g : A → B) (l : list A) :
  once ref (map g l) = once ref l.
Proof. by destruct l. Qed.

Lemma change_markers_no_backslash :
  Forall (fun marker => Forall (fun a => a ≠ backslash) marker) change_markers.
Proof. repeat constructor; done. Qed.

Lemma marker_matches_ids text :
  map (group 2) (marker_matches text) = marker_ids text.
Proof.
  unfold marker_matches, marker_ids.
  pose proof change_markers_no_backslash as Hm.
  induction Hm as [|marker ms Hmarker Hms IH]; [done|].
  cbn [flat_map]. rewrite map_app, IH. f_equal.
  rewrite finditer_marker, map_map, <- marker_scan_everywhere by done.
  by rewrite map_id.
Qed.

Lemma marker_matches_tokens text :
  map (fun m => group 1 m ++ group 2 m) (marker_matches text)
  = marker_tokens text.
Proof.
  unfold marker_matches, marker_tokens.
  pose proof change_markers_no_backslash as Hm.
  induction Hm as [|marker ms Hmarker Hms IH]; [done|].
  cbn [flat_map]. rewrite map_app, IH. f_equal.
  by rewrite finditer_marker, map_map, <- marker_scan_everywhere by done.
Qed.

Lemma rsid_revisions payload :
  map (group revision_id) (finditer re_rsid payload) = table_ids payload.
Proof.
  unfold table_ids. rewrite finditer_rsid, map_map.
  rewrite <- marker_scan_everywhere by (by repeat constructor).
  by rewrite map_id.
Qed.

Lemma rsid_whole_tags payload :
  map (group whole_tag) (finditer re_rsid payload)
  = map (app (backslash :: s#"rsid")) (table_ids payload).
Proof.
  unfold table_ids. rewrite finditer_rsid, map_map.
  by rewrite <- marker_scan_everywhere by (by repeat constructor).
Qed.

Lemma rsidtbl_payload_search text :
  rsidtbl_payload text = (fun m => strip (group 1 m)) <$> search re_rsidtbl text.
Proof.
  unfold rsidtbl_payload. rewrite <- search_rsidtbl.
  by destruct (search re_rsidtbl text).
Qed.

(** The revision extractor when the document has a table. *)
Lemma _find_rsid_tags_table self text payload :
  _data self = Some text →
  rsidtbl_payload text = Some payload →
  _find_rsid_tags self
  = Ok (extend
          (list_to_set (marker_tokens text)
           ∪ list_to_set (map (app (backslash :: s#"rsid")) (table_ids payload)))
          {[payload]}
          ("OBS007"%string
           :: cross_reference (table_ids payload) (marker_ids text))
          self).
Proof.
  intros Hd Hp. rewrite rsidtbl_payload_search in Hp.
  destruct (search re_rsidtbl text) as [m|] eqn:Hs; [|done].
  injection Hp as <-.
  rewrite (_find_rsid_tags_present _ _ _ Hd Hs). cbv zeta. unfold texts.
  by rewrite marker_matches_tokens, marker_matches_ids, rsid_revisions,
    rsid_whole_tags.
Qed.

Lemma _find_rsid_tags_no_table self text :
  _data self = Some text →
  rsidtbl_payload text = None →
  _find_rsid_tags self = Ok self.
Proof.
  intros Hd Hp. rewrite rsidtbl_payload_search in Hp.
  destruct (search re_rsidtbl text) as [m|] eqn:Hs; [done|].
  by apply (_find_rsid_tags_absent _ _ Hd).
Qed.

Lemma count_cross_reference revisions ids :
  count "OBS003" (cross_reference revisions ids)
  = length (filter (fun id => id ∉ revisions) ids).
Proof.
  unfold cross_reference.
  induction ids as [|id ids IH]; [done|]. cbn [flat_map].
  rewrite count_app, IH. destruct (decide (id ∈ revisions)) as [Hin|Hin].
  - rewrite bool_decide_eq_true_2 by done.
    by rewrite filter_cons_False by (intros H; by apply H).
  - rewrite bool_decide_eq_false_2 by done.
    by rewrite filter_cons_True by done.
Qed.

Lemma count_cross_reference_other ref revisions ids :
  ref ≠ "OBS003"%string → count ref (cross_reference revisions ids) = 0.
Proof.
  intros Hne. apply (count_absent ref ["OBS003"%string]).
  - apply Forall_cross_reference. set_solver.
  - set_solver.
Qed.

(** ** Revision table and cross-reference *)

(** C2: in a document with a revision table, every occurrence of one of the
    seven change markers followed by digits whose digits are not among the
    identifiers that the table declares adds one [OBS003], so that the
    number of [OBS003] grows by the number of such occurrences; when the
    identifiers of all occurrences are in the table no [OBS003] is added. *)
Theorem C2_cross_reference self text payload :
  _data self = Some text →
  rsidtbl_payload text = Some payload →
  ∃ self',
    _find_rsid_tags self = Ok self'
    ∧ observations (results self')
      = observations (results self)
        ++ "OBS007"%string
           :: cross_reference (table_ids payload) (marker_ids text)
    ∧ count "OBS003" (observations (results self'))
      = count "OBS003" (observations (results self))
        + length (filter (fun id => id ∉ table_ids payload) (marker_ids text))
    ∧ (Forall (fun id => id ∈ table_ids payload) (marker_ids text) →
       count "OBS003" (observations (results self'))
       = count "OBS003" (observations (results self))).
Proof.
  intros Hd Hp. eexists. split; [by apply _find_rsid_tags_table|].
  rewrite extend_observations. split; [done|].
  rewrite count_app.
  change ("OBS007"%string :: ?l) with (["OBS007"%string] ++ l).
  rewrite count_app, count_cross_reference.
  assert (H7 : count "OBS003" ["OBS007"%string] = 0) by reflexivity.
  rewrite H7, Nat.add_0_l. split; [reflexivity|].
  intros Hall.
  replace (filter (fun id => id ∉ table_ids payload) (marker_ids text))
    with (@nil str); [cbn [length]; lia|].
  symmetry. induction Hall as [|id ids Hin Hall IH]; [done|].
  by rewrite filter_cons_False by (intros H; by apply H).
Qed.

Lemma C2_cross_reference_witness :
  let text := s#"{\rtf1}{\*\rsidtbl \rsid1234\rsid5678}\pard \pararsid9012\insrsid1234" in
  let self := with_data text (fresh true) in
  rsidtbl_payload text = Some s#"\rsid1234\rsid5678"
  ∧ table_ids s#"\rsid1234\rsid5678" = [s#"1234"; s#"5678"]
  ∧ marker_ids text = [s#"1234"; s#"9012"]
  ∧ ∃ self',
      _find_rsid_tags self = Ok self'
      ∧ observations (results self') = ["OBS007"; "OBS003"]%string.
Proof.
  intros text self.
  assert (Hp : rsidtbl_payload text = Some s#"\rsid1234\rsid5678")
    by (by vm_compute).
  split; [exact Hp|]. split; [by vm_compute|]. split; [by vm_compute|].
  destruct (C2_cross_reference self text _ eq_refl Hp)
    as (self' & Hok & Hobs & _).
  exists self'. split; [exact Hok|]. rewrite Hobs. by vm_compute.
Defined.

(** C3, as amended: when the document has a revision table, [OBS007] is
    raised once, the payload of the table, stripped, is added to the strict
    strings, and for every identifier of the table the control word with its
    backslash, such as [\rsid1234], is added to the loose strings; when it
    has none, the extractor returns the object as it was. *)
Theorem C3_revision_table self text :
  _data self = Some text →
  match rsidtbl_payload text with
  | Some payload =>
      ∃ self',
        _find_rsid_tags self = Ok self'
        ∧ count "OBS007" (observations (results self'))
          = count "OBS007" (observations (results self)) + 1
        ∧ strict_strings (results self')
          = {[payload]} ∪ strict_strings (results self)
        ∧ ∀ id, id ∈ table_ids payload →
            backslash :: s#"rsid" ++ id ∈ loose_strings (results self')
  | None => _find_rsid_tags self = Ok self
  end.
Proof.
  intros Hd. destruct (rsidtbl_payload text) as [payload|] eqn:Hp.
  - eexists. split; [by apply _find_rsid_tags_table|].
    rewrite extend_observations, extend_strict, extend_loose.
    split; [|split; [done|]].
    + rewrite count_app.
      change ("OBS007"%string :: ?l) with (["OBS007"%string] ++ l).
      by rewrite count_app, count_cross_reference_other.
    + intros id Hid. apply elem_of_union_l, elem_of_union_r.
      apply elem_of_list_to_set, list_elem_of_fmap. by exists id.
  - by apply (_find_rsid_tags_no_table _ text).
Qed.

Lemma C3_revision_table_witness :
  let text := s#"{\rtf1}{\*\rsidtbl \rsid1234\rsid5678}" in
  let self := with_data text (fresh true) in
  rsidtbl_payload text = Some s#"\rsid1234\rsid5678"
  ∧ s#"1234" ∈ table_ids s#"\rsid1234\rsid5678"
  ∧ ∃ self',
      _find_rsid_tags self = Ok self'
      ∧ count "OBS007" (observations (results self')) = 1
      ∧ s#"\rsid1234\rsid5678" ∈ strict_strings (results self')
      ∧ s#"\rsid1234" ∈ loose_strings (results self').
Proof.
  intros text self.
  assert (Hp : rsidtbl_payload text = Some s#"\rsid1234\rsid5678")
    by (by vm_compute).
  assert (Hid : s#"1234" ∈ table_ids s#"\rsid1234\rsid5678")
    by (by vm_compute; left).
  split; [exact Hp|]. split; [exact Hid|].
  pose proof (C3_revision_table self text eq_refl) as H. rewrite Hp in H.
  destruct H as (self' & Hok & Hc & Hs & Hl).
  exists self'. split; [exact Hok|]. split; [exact Hc|]. split.
  - rewrite Hs. apply elem_of_union_l. by apply elem_of_singleton.
  - exact (Hl _ Hid).
Defined.

(** C3 as stated fails on the example it gives: for the document of the
    test suite the loose strings are the two control words with their
    backslash; [rsid1234] without it is not among them. *)
Lemma C3_backslash_counterexample :
  let data := blit "{\rtf1}{\*\rsidtbl \rsid1234\rsid5678}" in
  ∃ self,
    __init__ (fun _ => None) None (PBytes data) true = Ok self
    ∧ loose_strings (results self) = {[ s#"\rsid1234"; s#"\rsid5678" ]}
    ∧ s#"rsid1234" ∉ loose_strings (results self).
Proof.
  intros data. eexists. split; [by vm_compute|]. split; [by vm_compute|].
  by vm_compute.
Qed.

(** ** Image identifiers *)

Lemma everywhere_elem {M} (f : str → option (M * str)) s x :
  x ∈ everywhere f s → ∃ t rest, f t = Some (x, rest).
Proof.
  induction s as [|a s IH].
  - rewrite everywhere_nil. destruct (f []) as [[m r]|] eqn:Hf.
    + intros ->%list_elem_of_singleton. by exists [], r.
    + by intros ?%elem_of_nil.
  - rewrite everywhere_cons. destruct (f (a :: s)) as [[m r]|] eqn:Hf; [|done].
    intros [->|Hin]%elem_of_cons; [by exists (a :: s), r|by apply IH].
Qed.

Lemma bliptag_at_digits t w rest :
  bliptag_at t = Some (w, rest) →
  ∃ sign ds, w = s#"bliptag" ++ sign ++ ds
             ∧ (sign = [] ∨ sign = ["-"%char])
             ∧ ds ≠ [] ∧ Forall (fun a => isdigit a = true) ds.
Proof.
  unfold bliptag_at.
  destruct (word_at (backslash :: s#"bliptag") t) as [r|] eqn:Hw; [|done].
  cbn [mbind option_bind].
  assert (Hcase : ∀ sign r0,
    (sign = [] ∨ sign = ["-"%char]) →
    ('(ds, rest) ← run_at isdigit r0; Some (s#"bliptag" ++ sign ++ ds, rest))
    = Some (w, rest) →
    ∃ sign ds, w = s#"bliptag" ++ sign ++ ds
               ∧ (sign = [] ∨ sign = ["-"%char])
               ∧ ds ≠ [] ∧ Forall (fun a => isdigit a = true) ds).
  { intros sign r0 Hsign.
    destruct (run_at isdigit r0) as [[ds rest0]|] eqn:Hr; [|done].
    cbn [mbind option_bind]. intros [= <- <-].
    pose proof (run_at_Forall _ _ _ _ Hr) as Hds.
    apply run_at_Some in Hr as (_ & _ & _ & Hne). by exists sign, ds. }
  destruct r as [|b r'].
  - apply (Hcase [] []). by left.
  - destruct (Ascii.eqb "-" b) eqn:Hb.
    + apply Ascii.eqb_eq in Hb as <-. apply (Hcase ["-"%char] r'). by right.
    + assert (Hm : ∀ X (x y : X), match b with "-"%char => x | _ => y end = y).
      { intros X x y. apply Ascii.eqb_neq in Hb.
        destruct b as [[] [] [] [] [] [] [] []]; try reflexivity. done. }
      rewrite Hm. apply (Hcase [] (b :: r')). by left.
Qed.

Lemma finditer_bliptag text :
  map (group whole_tag) (finditer re_bliptag text) = bliptags text.
Proof.
  unfold finditer.
  rewrite (scan_ext _ _ _ _ match_at_bliptag), scan_fmap, map_map.
  rewrite bliptag_scan_everywhere. apply map_id.
Qed.

Lemma finditer_blipuid text :
  map (fun m => (group whole_tag m, group unique_id m)) (finditer re_blipuid text)
  = blipuids text.
Proof.
  unfold finditer.
  rewrite (scan_ext _ _ _ _ match_at_blipuid), scan_fmap, map_map.
  rewrite blipuid_scan_everywhere.
  rewrite <- (map_id (blipuids text)) at 2. apply map_ext. by intros [w u].
Qed.

Lemma _find_blip_tags_text self text :
  _data self = Some text →
  _find_blip_tags self
  = Ok (extend
          (list_to_set (map snd (blipuids text)) ∪ list_to_set (bliptags text))
          (list_to_set (map fst (blipuids text)))
          (once "OBS006" (bliptags text)) self).
Proof.
  intros Hd. rewrite (_find_blip_tags_effect _ _ Hd). cbv zeta.
  assert (Ht : map (group whole_tag)
                 (if contains s#"bliptag" text then finditer re_bliptag text
                  else [])
               = bliptags text).
  { destruct (contains s#"bliptag" text) eqn:Hc; [apply finditer_bliptag|].
    by rewrite bliptags_not_contains. }
  assert (Hu : map (fun m => (group whole_tag m, group unique_id m))
                 (if contains s#"blipuid" text then finditer re_blipuid text
                  else [])
               = blipuids text).
  { destruct (contains s#"blipuid" text) eqn:Hc; [apply finditer_blipuid|].
    by rewrite blipuids_not_contains. }
  unfold texts. rewrite <- Ht, <- Hu, once_map, !map_map. reflexivity.
Qed.

(** C5: the image-identifier extractor adds to the loose strings every
    [bliptag] control word of the text without its backslash, that is
    [bliptag], an optional minus sign and digits, and raises [OBS006] once
    if there is at least one and not otherwise; for every [blipuid] control
    word it adds the hexadecimal identifier to the loose strings and
    [blipuid], the whitespace and the identifier to the strict strings, and
    raises nothing for them. *)
Theorem C5_blip_tags self text :
  _data self = Some text →
  _find_blip_tags self
  = Ok (extend
          (list_to_set (map snd (blipuids text)) ∪ list_to_set (bliptags text))
          (list_to_set (map fst (blipuids text)))
          (if bliptags text is [] then [] else ["OBS006"%string]) self)
  ∧ (∀ w, w ∈ bliptags text →
       ∃ sign ds, w = s#"bliptag" ++ sign ++ ds
                  ∧ (sign = [] ∨ sign = ["-"%char])
                  ∧ ds ≠ [] ∧ Forall (fun a => isdigit a = true) ds)
  ∧ (∀ w u, (w, u) ∈ blipuids text →
       ∃ ws, w = s#"blipuid" ++ ws ++ u
             ∧ ws ≠ [] ∧ Forall (fun a => isspace a = true) ws
             ∧ u ≠ [] ∧ Forall (fun a => hex_lower a = true) u).
Proof.
  intros Hd. split; [|split].
  - rewrite (_find_blip_tags_text _ _ Hd). by destruct (bliptags text).
  - intros w Hw. apply everywhere_elem in Hw as (t & rest & Hf).
    by apply bliptag_at_digits in Hf.
  - intros w u Hwu. apply everywhere_elem in Hwu as (t & rest & Hf).
    by apply blipuid_at_shape in Hf as (_ & _ & _ & H).
Qed.

Lemma C5_blip_tags_witness :
  let text :=
    s#"{\rtf1}\bliptag-1234567890\blipupi-111{\*\blipuid 0011223344556677889900aabbccddeeff}" in
  let self := with_data text (fresh true) in
  bliptags text = [s#"bliptag-1234567890"]
  ∧ blipuids text
    = [(s#"blipuid 0011223344556677889900aabbccddeeff",
        s#"0011223344556677889900aabbccddeeff")]
  ∧ _find_blip_tags self
    = Ok (Analyser
            (Results
               {[ s#"0011223344556677889900aabbccddeeff"; s#"bliptag-1234567890" ]}
               {[ s#"blipuid 0011223344556677889900aabbccddeeff" ]}
               ["OBS006"%string])
            true (Some text)).
Proof.
  intros text self. split; [by vm_compute|]. split; [by vm_compute|].
  destruct (C5_blip_tags self text eq_refl) as (Hok & _ & _).
  rewrite Hok. by vm_compute.
Defined.

(** ** What a scan finds *)

Lemma scan_elem {M} (f : str → option (M * str)) s n x :
  x ∈ scan f s n → ∃ pre t rest, s = pre ++ t ∧ f t = Some (x, rest).
Proof.
  revert n. induction s as [|a s IH]; intros n; cbn [scan].
  - destruct n; [|by intros ?%elem_of_nil].
    destruct (f []) as [[m r]|] eqn:Hf; [|by intros ?%elem_of_nil].
    intros ->%list_elem_of_singleton. by exists [], [], r.
  - assert (Hrec : ∀ k, x ∈ scan f s k →
              ∃ pre t rest, a :: s = pre ++ t ∧ f t = Some (x, rest)).
    { intros k Hin. destruct (IH k Hin) as (pre & t & rest & -> & Hf).
      by exists (a :: pre), t, rest. }
    destruct n as [|n]; [|apply Hrec].
    destruct (f (a :: s)) as [[m r]|] eqn:Hf; [|apply Hrec].
    intros [->|Hin]%elem_of_cons; [by exists [], (a :: s), r|].
    by apply Hrec in Hin.
Qed.

Lemma scan_skip {M} (f : str → option (M * str)) s n :
  n ≤ length s → scan f s n = scan f (drop n s) 0.
Proof.
  revert n. induction s as [|a s IH]; intros n Hn.
  - cbn [length] in Hn. by replace n with 0 by lia.
  - destruct n as [|n]; [done|]. cbn [length] in Hn. cbn [scan drop].
    apply IH. lia.
Qed.

(** The scan cuts the text into its finds and the positions in between,
    when a find is never empty. *)
Lemma scan_tiling {M} (f : str → option (M * str)) :
  (∀ t m rest, f t = Some (m, rest) → ∃ w, t = w ++ rest ∧ w ≠ []) →
  ∀ s, tiling f s (scan f s 0).
Proof.
  intros Hf s. remember (length s) as n eqn:Hn.
  revert s Hn. induction n as [n IH] using lt_wf_ind. intros s ->.
  destruct s as [|a s].
  - cbn [scan]. destruct (f []) as [[m rest]|] eqn:H0.
    + destruct (Hf _ _ _ H0) as (w & Hw & Hne). by destruct w.
    + by constructor.
  - cbn [scan]. destruct (f (a :: s)) as [[m rest]|] eqn:H0.
    + destruct (Hf _ _ _ H0) as (w & Hw & Hne).
      destruct w as [|b w]; [done|]. cbn [app] in Hw. injection Hw as <- ->.
      replace (length (a :: w ++ rest) - length rest - 1) with (length w)
        by (cbn [length]; rewrite length_app; lia).
      rewrite scan_skip by (rewrite length_app; lia).
      rewrite drop_app_length.
      apply (tiling_find f (a :: w) rest m); [done|exact H0|].
      apply (IH (length rest)); [|done]. cbn [length]. rewrite length_app. lia.
    + apply tiling_gap; [exact H0|]. apply (IH (length s)); [|done].
      cbn [length]. lia.
Qed.

Lemma one_of_Some {B} ws (next : str → option B) s b :
  one_of ws next s = Some b →
  ∃ w r, w ∈ ws ∧ s = w ++ r ∧ next r = Some b.
Proof.
  induction ws as [|w ws IH]; [done|]. cbn [one_of].
  destruct (word_at w s) as [r|] eqn:Hw; cbn [mbind option_bind].
  - destruct (next r) as [b'|] eqn:Hn.
    + intros [= ->]. apply word_at_Some in Hw. exists w, r.
      split; [left|done].
    + intros H. destruct (IH H) as (w' & r' & Hin & Hs & Hn').
      exists w', r'. split; [by right|done].
  - intros H. destruct (IH H) as (w' & r' & Hin & Hs & Hn').
    exists w', r'. split; [by right|done].
Qed.

Lemma take_prefix (w rest : str) : take (length (w ++ rest) - length rest) (w ++ rest) = w.
Proof. apply take_covered. Qed.

(** ** Metadata groups in the text *)

Lemma closing_Some t rest :
  closing t = Some rest →
  ∃ v, t = v ++ "}"%char :: rest
       ∧ v ≠ [] ∧ Forall (fun a => not_rbrace a = true) v.
Proof.
  unfold closing. destruct (run_at not_rbrace t) as [[v r2]|] eqn:Hr; [|done].
  cbn [mbind option_bind]. pose proof (run_at_Forall _ _ _ _ Hr) as Hv.
  pose proof Hr as Hr'. apply run_at_Some in Hr' as (-> & _ & Hd & Hne).
  destruct r2 as [|b rest']; [done|].
  symmetry in Hd. apply dropwhile_head in Hd.
  unfold not_rbrace in Hd. apply negb_false_iff, Ascii.eqb_eq in Hd as ->.
  intros [= ->]. by exists v.
Qed.

Lemma info_group_at_shape t g post :
  info_group_at t = Some (g, post) →
  t = g ++ post
  ∧ ∃ ws tag a v,
      g = "{"%char :: ws ++ backslash :: tag ++ a :: v ++ ["}"%char]
      ∧ Forall (fun a => isspace a = true) ws
      ∧ tag ∈ info_tags
      ∧ isspace a = true
      ∧ v ≠ [] ∧ Forall (fun a => not_rbrace a = true) v.
Proof.
  unfold info_group_at. destruct t as [|b s1]; [done|].
  destruct (Ascii.eqb "{" b) eqn:Hb.
  2:{ apply Ascii.eqb_neq in Hb.
      destruct b as [[] [] [] [] [] [] [] []]; try done. }
  apply Ascii.eqb_eq in Hb as <-.
  destruct (word_at [backslash] (dropwhile isspace s1)) as [r|] eqn:Hw;
    [|done].
  cbn [mbind option_bind].
  destruct (one_of info_tags info_value r) as [rest|] eqn:Hone; [|done].
  cbn [mbind option_bind]. intros [= <- <-].
  apply word_at_Some in Hw.
  apply one_of_Some in Hone as (tag & r0 & Htag & -> & Hval).
  unfold info_value in Hval. destruct r0 as [|a r1]; [done|].
  destruct (isspace a) eqn:Ha; [|done].
  apply closing_Some in Hval as (v & -> & Hne & Hv).
  assert (Ht : "{"%char :: s1
               = ("{"%char :: takewhile isspace s1 ++ backslash :: tag
                    ++ a :: v ++ ["}"%char]) ++ rest).
  { rewrite <- (take_drop_while isspace s1) at 1. rewrite Hw. cbn [app].
    rewrite <- !(assoc_L (++)). cbn [app]. rewrite <- !(assoc_L (++)).
    cbn [app]. rewrite <- !(assoc_L (++)). reflexivity. }
  change (S (length s1)) with (length ("{"%char :: s1)).
  rewrite Ht, take_prefix. split; [done|].
  exists (takewhile isspace s1), tag, a, v. split; [done|].
  split; [apply Forall_takewhile|done].
Qed.

Lemma _find_information_group_text self text :
  _data self = Some text →
  _find_information_group self
  = Ok (extend (list_to_set (info_groups text)) ∅
          (once "OBS005" (info_groups text)) self).
Proof.
  intros Hd. rewrite (_find_information_group_effect _ _ Hd). cbv zeta.
  unfold texts. by rewrite <- finditer_info_group, once_map.
Qed.

Lemma scan_nil_everywhere {M} (f : str → option (M * str)) s :
  scan f s 0 = [] ↔ everywhere f s = [].
Proof.
  induction s as [|a s IH].
  - rewrite everywhere_nil. cbn [scan]. by destruct (f []) as [[m r]|].
  - rewrite everywhere_cons. cbn [scan].
    by destruct (f (a :: s)) as [[m r]|].
Qed.

(** C6: the metadata extractor scans the text from left to right for
    metadata groups and resumes after each group that it finds.  It adds
    every group found in this way to the loose strings, whole and with its
    braces, and raises [OBS005] once if there is at least one group and not
    otherwise; nothing is found exactly when no group starts anywhere in
    the text.  The groups found cut the text from left to right so that no
    group starts outside them; a group that starts inside one of them is
    not found.  A group is [{], optional whitespace, a backslash, one of
    the eleven tags, a whitespace character, one or more characters other
    than [}], and [}]. *)
Theorem C6_information_group self text :
  _data self = Some text →
  _find_information_group self
  = Ok (extend (list_to_set (info_groups text)) ∅
          (if info_groups text is [] then [] else ["OBS005"%string]) self)
  ∧ (info_groups text = [] ↔ everywhere info_group_at text = [])
  ∧ tiling info_group_at text (info_groups text)
  ∧ ∀ g, g ∈ info_groups text →
      ∃ pre post ws tag a v,
        text = pre ++ g ++ post
        ∧ g = "{"%char :: ws ++ backslash :: tag ++ a :: v ++ ["}"%char]
        ∧ Forall (fun a => isspace a = true) ws
        ∧ tag ∈ info_tags
        ∧ isspace a = true
        ∧ v ≠ [] ∧ Forall (fun a => not_rbrace a = true) v.
Proof.
  intros Hd. split; [|split; [|split]].
  - rewrite (_find_information_group_text _ _ Hd). by destruct (info_groups text).
  - apply scan_nil_everywhere.
  - apply scan_tiling. intros t g rest Hf.
    apply info_group_at_shape in Hf as (-> & ws & tag & a & v & -> & _).
    by eexists.
  - intros g Hg. apply scan_elem in Hg as (pre & t & post & -> & Hf).
    apply info_group_at_shape in Hf as (-> & ws & tag & a & v & H).
    by exists pre, post, ws, tag, a, v.
Qed.

Lemma C6_information_group_witness :
  let data :=
    blit "{\rtf1}{\info{\title My first document}{\author edeca}{\operator Neo}}" in
  let text :=
    s#"{\rtf1}{\info{\title My first document}{\author edeca}{\operator Neo}}" in
  let final :=
    Analyser
      (Results
         {[ s#"{\title My first document}"; s#"{\author edeca}";
            s#"{\operator Neo}" ]}
         ∅ ["OBS005"%string])
      true (Some text) in
  info_groups text
  = [ s#"{\title My first document}"; s#"{\author edeca}"; s#"{\operator Neo}" ]
  ∧ _find_information_group (with_data text (fresh true)) = Ok final
  ∧ __init__ (fun _ => None) None (PBytes data) true = Ok final
  ∧ "OBS005"%string ∈ observations (results final)
  ∧ s#"{\author edeca}" ∈ loose_strings (results final).
Proof.
  intros data text final. split; [by vm_compute|]. split.
  - destruct (C6_information_group (with_data text (fresh true)) text eq_refl)
      as (Hok & _ & _).
    rewrite Hok. by vm_compute.
  - split; [by vm_compute|]. split; [by left|]. by vm_compute.
Defined.

(** ** Runs of image sizes in the text *)

Lemma size_item_suffix s r :
  size_item s = Some r → ∃ w, s = backslash :: w ++ r.
Proof.
  unfold size_item. destruct (word_at [backslash] s) as [r0|] eqn:H0; [|done].
  apply word_at_Some in H0 as ->. cbn [mbind option_bind]. intros Hone.
  apply one_of_Some in Hone as (tag & r1 & _ & -> & Hn).
  destruct (run_at isdigit r1) as [[ds r2]|] eqn:Hr; [|done].
  cbn [mbind option_bind] in Hn. injection Hn as <-.
  apply run_at_Some in Hr as (-> & _).
  exists (tag ++ ds ++ takewhile isspace r2). cbn [app].
  rewrite <- !(assoc_L (++)). by rewrite take_drop_while.
Qed.

Lemma size_items_suffix n s : ∃ w, s = w ++ size_items n s.
Proof.
  revert s. induction n as [|n IH]; intros s; [by exists []|].
  cbn [size_items]. destruct (size_item s) as [r|] eqn:Hi; [|by exists []].
  apply size_item_suffix in Hi as (w & ->). destruct (IH r) as (w' & Hw').
  exists (backslash :: w ++ w'). cbn [app]. rewrite <- (assoc_L (++)).
  by rewrite <- Hw'.
Qed.

(** With enough fuel the reading of image sizes stops only where no image
    size follows. *)
Lemma size_items_stop n s :
  length s ≤ n → size_item (size_items n s) = None.
Proof.
  revert s. induction n as [|n IH]; intros s Hn.
  - destruct s; [done|]. cbn [length] in Hn. lia.
  - cbn [size_items]. destruct (size_item s) as [r|] eqn:Hi; [|done].
    apply IH. apply size_item_shorter in Hi. lia.
Qed.

Lemma size_run_at_shape t r post :
  size_run_at t = Some (r, post) →
  t = r ++ post ∧ (∃ r', r = backslash :: r') ∧ size_item post = None.
Proof.
  unfold size_run_at. destruct (size_item t) as [r1|] eqn:Hi; [|done].
  cbn [mbind option_bind]. intros [= <- <-].
  apply size_item_suffix in Hi as (w & ->).
  destruct (size_items_suffix (length r1) r1) as (w' & Hw').
  assert (Ht : backslash :: w ++ r1
               = (backslash :: w ++ w') ++ size_items (length r1) r1).
  { cbn [app]. rewrite <- (assoc_L (++)). by rewrite <- Hw'. }
  rewrite Ht, take_prefix. split; [done|].
  split; [by eexists|]. by apply size_items_stop.
Qed.

Lemma strip_backslash r : strip (backslash :: r) = rstrip (backslash :: r).
Proof. reflexivity. Qed.

Lemma size_runs_strip text :
  map strip (size_runs text) = map rstrip (size_runs text).
Proof.
  apply map_ext_in. intros r Hr. apply list_elem_of_In in Hr.
  apply scan_elem in Hr as (pre & t & post & _ & Hf).
  apply size_run_at_shape in Hf as (_ & (r' & ->) & _).
  apply strip_backslash.
Qed.

Lemma _find_image_sizes_text self text :
  _data self = Some text →
  _find_image_sizes self
  = Ok (extend (list_to_set (map rstrip (size_runs text))) ∅
          (once "OBS004" (size_runs text)) self).
Proof.
  intros Hd. rewrite (_find_image_sizes_effect _ _ Hd). cbv zeta.
  unfold texts.
  rewrite <- size_runs_strip, <- finditer_image_sizes, once_map, map_map.
  reflexivity.
Qed.

(** C4: the image-dimension extractor adds to the loose strings one entry
    for every run of image sizes of the text, the whole run without its
    trailing whitespace, and raises [OBS004] once if there is at least one
    run and not otherwise.  The runs cut the text so that no image size
    starts outside a run; a run starts at a backslash and ends only where
    no further image size follows, so that adjacent sizes are one run. *)
Theorem C4_image_sizes self text :
  _data self = Some text →
  _find_image_sizes self
  = Ok (extend (list_to_set (map rstrip (size_runs text))) ∅
          (if size_runs text is [] then [] else ["OBS004"%string]) self)
  ∧ tiling size_run_at text (size_runs text)
  ∧ ∀ r, r ∈ size_runs text →
      ∃ pre post r',
        text = pre ++ r ++ post
        ∧ r = backslash :: r'
        ∧ size_run_at (r ++ post) = Some (r, post)
        ∧ size_item post = None.
Proof.
  intros Hd. split; [|split].
  - rewrite (_find_image_sizes_text _ _ Hd). by destruct (size_runs text).
  - apply scan_tiling. intros t r rest Hf.
    apply size_run_at_shape in Hf as (-> & (r' & ->) & _). by eexists.
  - intros r Hr. apply scan_elem in Hr as (pre & t & post & -> & Hf).
    pose proof Hf as Hshape.
    apply size_run_at_shape in Hshape as (-> & (r' & ->) & Hstop).
    by exists pre, post, r'.
Qed.

Lemma C4_image_sizes_witness :
  let text :=
    s#"{\rtf1}{\pict{\*\picprop}\wmetafile8\picw10\pich10\picwgoal10\pichgoal10 0011}" in
  let self := with_data text (fresh true) in
  size_runs text = [ s#"\picw10\pich10\picwgoal10\pichgoal10 " ]
  ∧ _find_image_sizes self
    = Ok (Analyser
            (Results {[ s#"\picw10\pich10\picwgoal10\pichgoal10" ]} ∅
               ["OBS004"%string])
            true (Some text)).
Proof.
  intros text self. split; [by vm_compute|].
  destruct (C4_image_sizes self text eq_refl) as (Hok & _ & _).
  rewrite Hok. by vm_compute.
Defined.

(** ** The whole analysis in closed form *)

Lemma _find_rsid_tags_summary self text :
  _data self = Some text →
  _find_rsid_tags self
  = Ok (extend (table_loose text) (table_strict text)
          (table_observations text) self).
Proof.
  intros Hd. unfold table_loose, table_strict, table_observations.
  destruct (rsidtbl_payload text) as [payload|] eqn:Hp.
  - by apply _find_rsid_tags_table.
  - rewrite extend_empty. by apply (_find_rsid_tags_no_table _ text).
Qed.

Lemma extractors_summary self text :
  _data self = Some text →
  extractors self
  = Ok (extend (found_loose (_risky_items self) text) (found_strict text)
          (found_observations (_risky_items self) text) self).
Proof.
  intros Hd. unfold extractors.
  rewrite (_find_rsid_tags_summary _ _ Hd). cbn [bind].
  rewrite (_find_blip_tags_text _ text) by done. cbn [bind].
  rewrite (_find_image_sizes_text _ text) by done. cbn [bind].
  rewrite !extend_risky. unfold found_loose, found_strict, found_observations.
  destruct (_risky_items self).
  - rewrite (_find_information_group_text _ text) by done.
    rewrite !extend_extend. f_equal.
    f_equal; first [by rewrite <- ?(assoc_L (++)) | set_solver].
  - rewrite !extend_extend. f_equal.
    f_equal; first [by rewrite ?app_nil_r, <- ?(assoc_L (++)) | set_solver].
Qed.

Lemma _parse_data_summary data self :
  slice 0 4 (decode_ascii_ignore data) = magic →
  _parse_data data self
  = Ok (with_data (decode_ascii_ignore data)
          (extend (found_loose (_risky_items self) (decode_ascii_ignore data))
             (found_strict (decode_ascii_ignore data))
             (preamble data
              ++ found_observations (_risky_items self)
                   (decode_ascii_ignore data))
             self)).
Proof.
  intros Hm. rewrite (_parse_data_good_magic _ _ Hm).
  rewrite (extractors_summary _ (decode_ascii_ignore data)) by done.
  f_equal. destruct self as [[L S O] r d].
  unfold with_data, extend, set_results.
  cbn [results _risky_items _data loose_strings strict_strings observations].
  rewrite ?(right_id_L ∅ (∪)), ?(left_id_L ∅ (∪)), <- ?(assoc_L (++)).
  reflexivity.
Qed.

(** ** A metadata group inside another one *)

(** C6 as stated fails where a group starts inside another one: the value
    of [\title] runs up to the first [}], so that the scan finds the group
    of [\title] without its own closing brace and resumes after it.  The
    group of [\author], which is a group for one of the eleven tags and
    stands in the text with its braces, is not added. *)
Lemma C6_nested_group_counterexample :
  let data := blit "{\rtf1}{\info{\title {\author x}}}" in
  let text := s#"{\rtf1}{\info{\title {\author x}}}" in
  ∃ self,
    __init__ (fun _ => None) None (PBytes data) true = Ok self
    ∧ text = s#"{\rtf1}{\info{\title " ++ s#"{\author x}" ++ s#"}}"
    ∧ info_group_at (s#"{\author x}" ++ s#"}}") = Some (s#"{\author x}", s#"}}")
    ∧ finditer re_info_group text
      = [MObj s#"{\title {\author x}"
           [(whole_tag, s#"{\title {\author x}"); (2, s#"{\author x")]]
    ∧ loose_strings (results self) = {[ s#"{\title {\author x}" ]}
    ∧ s#"{\author x}" ∉ loose_strings (results self).
Proof.
  intros data text.
  assert (Hinit : __init__ (fun _ => None) None (PBytes data) true
                  = _parse_data data (fresh true)) by (by apply __init___data).
  assert (Hm : slice 0 4 (decode_ascii_ignore data) = magic) by (by vm_compute).
  rewrite (_parse_data_summary _ _ Hm) in Hinit.
  eexists. split; [exact Hinit|]. split; [by vm_compute|].
  split; [by vm_compute|]. split; [by vm_compute|].
  unfold with_data. cbn [results]. rewrite extend_loose.
  cbn [_risky_items fresh results loose_strings].
  assert (HL : found_loose true (decode_ascii_ignore data)
               = {[ s#"{\title {\author x}" ]}).
  { unfold found_loose, table_loose.
    assert (decode_ascii_ignore data = text) as -> by (by vm_compute).
    assert (rsidtbl_payload text = None) as -> by (by vm_compute).
    assert (info_groups text = [s#"{\title {\author x}"]) as -> by (by vm_compute).
    assert (size_runs text = []) as -> by (by vm_compute).
    assert (blipuids text = []) as -> by (by vm_compute).
    assert (bliptags text = []) as -> by (by vm_compute).
    cbn [map list_to_set]. set_solver. }
  rewrite HL, (right_id_L ∅ (∪)).
  split; [done|]. rewrite elem_of_singleton. by vm_compute.
Qed.

(** * Further properties of the analyser *)

(** X1: when [_parse_data] returns, the text starts with the magic and the
    object holds, beside what it held before, exactly the strings and the
    observations that the text determines: the two observations of the
    header, then those of the revision table, of the image identifiers, of
    the image sizes and, if risky items are included, of the metadata. *)
Theorem parse_data_closed_form data self self' :
  _parse_data data self = Ok self' →
  slice 0 4 (decode_ascii_ignore data) = magic
  ∧ _data self' = Some (decode_ascii_ignore data)
  ∧ _risky_items self' = _risky_items self
  ∧ loose_strings (results self')
    = found_loose (_risky_items self) (decode_ascii_ignore data)
      ∪ loose_strings (results self)
  ∧ strict_strings (results self')
    = found_strict (decode_ascii_ignore data) ∪ strict_strings (results self)
  ∧ observations (results self')
    = observations (results self)
      ++ preamble data
      ++ found_observations (_risky_items self) (decode_ascii_ignore data).
Proof.
  intros Hok.
  destruct (decide (slice 0 4 (decode_ascii_ignore data) = magic)) as [Hm|Hm].
  - rewrite (_parse_data_summary _ _ Hm) in Hok. injection Hok as <-.
    by repeat split.
  - by rewrite (_parse_data_bad_magic _ _ Hm) in Hok.
Qed.

Lemma parse_data_closed_form_witness :
  let data := blit "{\rtf2}{\*\rsidtbl \rsid1}\insrsid2\bliptag7\picw1 {\title x}" in
  ∃ self',
    _parse_data data (fresh true) = Ok self'
    ∧ loose_strings (results self')
      = {[ s#"{\title x}"; s#"\picw1"; s#"bliptag7"; s#"insrsid2"; s#"\rsid1" ]}
    ∧ strict_strings (results self') = {[ s#"\rsid1" ]}
    ∧ observations (results self')
      = ["OBS002"; "OBS007"; "OBS003"; "OBS006"; "OBS004"; "OBS005"]%string.
Proof.
  intros data.
  assert (Hm : slice 0 4 (decode_ascii_ignore data) = magic) by (by vm_compute).
  pose proof (_parse_data_summary data (fresh true) Hm) as Hok.
  eexists. split; [exact Hok|].
  destruct (parse_data_closed_form data (fresh true) _ Hok)
    as (_ & _ & _ & HL & HS & HO).
  rewrite HL, HS, HO.
  assert (Hd : decode_ascii_ignore data
               = s#"{\rtf2}{\*\rsidtbl \rsid1}\insrsid2\bliptag7\picw1 {\title x}")
    by (by vm_compute).
  rewrite Hd. clear.
  unfold found_loose, found_strict, found_observations, table_loose,
    table_strict, table_observations.
  set (text := s#"{\rtf2}{\*\rsidtbl \rsid1}\insrsid2\bliptag7\picw1 {\title x}").
  assert (rsidtbl_payload text = Some s#"\rsid1") as -> by (by vm_compute).
  assert (info_groups text = [s#"{\title x}"]) as -> by (by vm_compute).
  assert (map rstrip (size_runs text) = [s#"\picw1"]) as -> by (by vm_compute).
  assert (size_runs text = [s#"\picw1 "]) as -> by (by vm_compute).
  assert (blipuids text = []) as -> by (by vm_compute).
  assert (bliptags text = [s#"bliptag7"]) as -> by (by vm_compute).
  assert (marker_tokens text = [s#"insrsid2"]) as -> by (by vm_compute).
  assert (marker_ids text = [s#"2"]) as -> by (by vm_compute).
  assert (table_ids s#"\rsid1" = [s#"1"]) as -> by (by vm_compute).
  assert (preamble data = ["OBS002"%string]) as -> by (by vm_compute).
  split; [|split].
  - cbn [map list_to_set fresh results loose_strings]. set_solver.
  - cbn [map list_to_set fst fresh results strict_strings]. set_solver.
  - by vm_compute.
Defined.

(** ** What the constructor returns or raises *)


(** The constructor either stops before any parsing or hands the bytes of
    the file or of the buffer to [_parse_data]. *)
Lemma __init___cases fs filename data risky :
  __init__ fs filename data risky = Raise ValueError
  ∨ __init__ fs filename data risky = Raise TypeError
  ∨ __init__ fs filename data risky = Raise FileNotFoundError
  ∨ __init__ fs filename data risky = Ok (fresh risky)
  ∨ ∃ b, __init__ fs filename data risky = _parse_data b (fresh risky).
Proof.
  destruct filename as [[|a f]|].
  - destruct data as [|b|b|s|n]; cbn.
    + by do 3 right; left.
    + destruct (negb _); [do 4 right; by exists b|by do 3 right; left].
    + destruct (negb _); [by right; left|by do 3 right; left].
    + destruct (negb _); [by right; left|by do 3 right; left].
    + destruct (negb _); [by right; left|by do 3 right; left].
  - destruct (fs (a :: f)) as [b|] eqn:Hfs.
    + do 4 right. exists b. unfold __init__, _parse_file. rewrite Hfs.
      by destruct data.
    + right. right. left. unfold __init__, _parse_file. rewrite Hfs.
      by destruct data.
  - destruct data as [|b|b|s|n]; cbn.
    + by left.
    + destruct (negb _); [do 4 right; by exists b|by do 3 right; left].
    + destruct (negb _); [by right; left|by do 3 right; left].
    + destruct (negb _); [by right; left|by do 3 right; left].
    + destruct (negb _); [by right; left|by do 3 right; left].
Qed.

(** The constructor on a non-empty buffer that starts with the magic. *)
Lemma __init___buffer fs risky data :
  data ≠ [] →
  slice 0 4 (decode_ascii_ignore data) = magic →
  __init__ fs None (PBytes data) risky
  = Ok (with_data (decode_ascii_ignore data)
          (extend (found_loose risky (decode_ascii_ignore data))
             (found_strict (decode_ascii_ignore data))
             (preamble data
              ++ found_observations risky (decode_ascii_ignore data))
             (fresh risky))).
Proof.
  intros Hne Hm. rewrite (__init___data _ _ _ Hne).
  exact (_parse_data_summary data (fresh risky) Hm).
Qed.

(** X2: every observation of an object that the constructor returns is a
    key of the [OBSERVATIONS] dictionary, so that a caller can look up the
    text of each of them. *)
Theorem observations_catalogued fs filename data risky self :
  __init__ fs filename data risky = Ok self →
  Forall (fun ref => is_Some (OBSERVATIONS !! ref)) (observations (results self)).
Proof.
  intros Hok.
  destruct (__init___cases fs filename data risky)
    as [H|[H|[H|[H|[b H]]]]]; rewrite H in Hok; try done.
  - injection Hok as <-. constructor.
  - apply _parse_data_observations in Hok as (O & -> & HO).
    cbn [fresh results observations app]. apply Forall_app. split.
    + unfold preamble.
      destruct (nonprintable b), (negb _); repeat constructor; by eexists.
    + eapply Forall_impl; [exact HO|]. intros ref Hin.
      repeat (apply elem_of_cons in Hin as [-> | Hin]; [by eexists|]).
      by apply elem_of_nil in Hin.
Qed.

Lemma observations_catalogued_witness :
  ∃ self,
    __init__ (fun _ => None) None
      (PBytes (blit "{\rtf1}{\*\rsidtbl \rsid1234\rsid5678}\pard \pararsid9012"))
      true = Ok self
    ∧ Forall (fun ref => is_Some (OBSERVATIONS !! ref))
        (observations (results self)).
Proof.
  pose proof (__init___buffer (fun _ => None) true
    (blit "{\rtf1}{\*\rsidtbl \rsid1234\rsid5678}\pard \pararsid9012")
    ltac:(done) ltac:(by vm_compute)) as Hok.
  eexists. split; [exact Hok|].
  exact (observations_catalogued _ _ _ _ _ Hok).
Defined.



(** The constructor analyses the bytes [b], or nothing at all. *)
Lemma __init___returns fs filename data risky self :
  __init__ fs filename data risky = Ok self →
  self = fresh risky
  ∨ ∃ b, slice 0 4 (decode_ascii_ignore b) = magic
         ∧ self = with_data (decode_ascii_ignore b)
             (extend (found_loose risky (decode_ascii_ignore b))
                (found_strict (decode_ascii_ignore b))
                (preamble b
                 ++ found_observations risky (decode_ascii_ignore b))
                (fresh risky)).
Proof.
  intros Hok.
  destruct (__init___cases fs filename data risky)
    as [H|[H|[H|[H|[b H]]]]]; rewrite H in Hok; try done.
  - left. by injection Hok.
  - right. exists b.
    destruct (decide (slice 0 4 (decode_ascii_ignore b) = magic)) as [Hm|Hm].
    + rewrite (_parse_data_summary _ _ Hm) in Hok. by injection Hok.
    + by rewrite (_parse_data_bad_magic _ _ Hm) in Hok.
Qed.

Lemma count_nil ref : count ref [] = 0.
Proof. reflexivity. Qed.

Lemma count_cons ref x O :
  count ref (x :: O) = (if decide (x = ref) then 1 else 0) + count ref O.
Proof.
  unfold count. rewrite filter_cons. by destruct (decide (x = ref)).
Qed.

Lemma count_once_le ref ref' {A} (ms : list A) : count ref (once ref' ms) ≤ 1.
Proof.
  destruct ms; [cbn; lia|]. cbn [once]. rewrite count_cons, count_nil.
  destruct (decide _); lia.
Qed.

Lemma count_preamble_other ref data :
  ref ≠ "OBS001"%string → ref ≠ "OBS002"%string → count ref (preamble data) = 0.
Proof.
  intros H1 H2. unfold preamble. rewrite count_app.
  destruct (nonprintable data), (negb _);
    rewrite ?count_cons, ?count_nil; repeat destruct (decide _);
    first [congruence | done | lia].
Qed.

Lemma count_preamble_le ref data : count ref (preamble data) ≤ 1.
Proof.
  unfold preamble. rewrite count_app.
  destruct (nonprintable data), (negb _);
    rewrite ?count_cons, ?count_nil; repeat destruct (decide _);
    first [congruence | done | lia].
Qed.

Lemma count_found_observations ref risky text :
  ref ≠ "OBS003"%string →
  count ref (found_observations risky text) ≤ 1
  ∧ (ref = "OBS001"%string ∨ ref = "OBS002"%string →
     count ref (found_observations risky text) = 0).
Proof.
  intros H3. unfold found_observations, table_observations.
  rewrite !count_app.
  assert (Ht : count ref
            (match rsidtbl_payload text with
             | Some payload =>
                 "OBS007"%string
                 :: cross_reference (table_ids payload) (marker_ids text)
             | None => []
             end) = if decide (ref = "OBS007"%string)
                    then (if rsidtbl_payload text is Some _ then 1 else 0) else 0).
  { destruct (rsidtbl_payload text) as [p|].
    - rewrite count_cons, (count_cross_reference_other _ _ _ H3).
      repeat destruct (decide _); first [congruence | done | lia].
    - by destruct (decide _). }
  rewrite Ht.
  assert (Hr : count ref (if risky then once "OBS005" (info_groups text) else [])
               = if risky then count ref (once "OBS005" (info_groups text))
                 else 0) by (by destruct risky).
  rewrite Hr.
  destruct (decide (ref = "OBS007"%string)) as [->|H7].
  { rewrite !count_once_ne by done. split; [|intros [?|?]; done].
    destruct (rsidtbl_payload text), risky; lia. }
  destruct (decide (ref = "OBS006"%string)) as [->|H6].
  { rewrite (count_once_ne "OBS006" "OBS004"), (count_once_ne "OBS006" "OBS005")
      by done.
    pose proof (count_once_le "OBS006" "OBS006" (bliptags text)).
    split; [|intros [?|?]; done]. destruct risky; lia. }
  rewrite (count_once_ne ref "OBS006") by done.
  destruct (decide (ref = "OBS004"%string)) as [->|H4].
  { rewrite (count_once_ne "OBS004" "OBS005") by done.
    pose proof (count_once_le "OBS004" "OBS004" (size_runs text)).
    split; [|intros [?|?]; done]. destruct risky; lia. }
  rewrite (count_once_ne ref "OBS004") by done.
  destruct (decide (ref = "OBS005"%string)) as [->|H5].
  { pose proof (count_once_le "OBS005" "OBS005" (info_groups text)).
    split; [|intros [?|?]; done]. destruct risky; lia. }
  rewrite (count_once_ne ref "OBS005") by done.
  split; [destruct risky; lia|]. intros _. destruct risky; lia.
Qed.

(** X4: in the observations of an object that the constructor returns,
    every reference other than [OBS003] occurs at most once. *)
Theorem observations_at_most_once fs filename data risky self ref :
  __init__ fs filename data risky = Ok self →
  ref ≠ "OBS003"%string →
  count ref (observations (results self)) ≤ 1.
Proof.
  intros Hok H3.
  destruct (__init___returns _ _ _ _ _ Hok) as [->|(b & Hm & ->)]; [cbn; lia|].
  unfold with_data. cbn [results]. rewrite extend_observations.
  cbn [fresh results observations app]. rewrite count_app.
  destruct (count_found_observations ref risky (decode_ascii_ignore b) H3)
    as [Hle H0].
  destruct (decide (ref = "OBS001"%string ∨ ref = "OBS002"%string)) as [H12|H12].
  - rewrite (H0 H12). pose proof (count_preamble_le ref b). lia.
  - rewrite count_preamble_other by tauto. lia.
Qed.

Lemma observations_at_most_once_witness :
  ∃ self,
    __init__ (fun _ => None) None
      (PBytes (blit "{\rtf1}{\*\rsidtbl \rsid1}\bliptag1\bliptag2\picw1 \pich2"))
      true = Ok self
    ∧ "OBS006"%string ≠ "OBS003"%string
    ∧ count "OBS006" (observations (results self)) ≤ 1.
Proof.
  pose proof (__init___buffer (fun _ => None) true
    (blit "{\rtf1}{\*\rsidtbl \rsid1}\bliptag1\bliptag2\picw1 \pich2")
    ltac:(done) ltac:(by vm_compute)) as Hok.
  eexists. split; [exact Hok|]. split; [done|].
  exact (observations_at_most_once _ _ _ _ _ "OBS006" Hok ltac:(done)).
Defined.

(** ** A file and a buffer *)

Lemma _parse_data_empty self : _parse_data [] self = Raise ParsingException.
Proof. by apply _parse_data_bad_magic. Qed.

(** X5: with a file name the argument [data] is not looked at, and the
    content of the file is analysed as the same bytes passed as a buffer
    are; the empty file is the exception, it raises [ParsingException]
    while the empty buffer is accepted. *)
Theorem file_or_buffer fs fs' filename data b risky :
  filename ≠ [] →
  fs filename = Some b →
  __init__ fs (Some filename) data risky
  = if b is [] then Raise ParsingException
    else __init__ fs' None (PBytes b) risky.
Proof.
  intros Hf Hb. rewrite (__init___file _ _ _ _ _ Hf Hb).
  destruct b as [|x b]; [apply _parse_data_empty|].
  by rewrite __init___data.
Qed.

Lemma file_or_buffer_witness :
  let fs : filesystem := fun _ => Some (blit "{\rtf1}") in
  s#"a.rtf" ≠ []
  ∧ fs s#"a.rtf" = Some (blit "{\rtf1}")
  ∧ __init__ fs (Some s#"a.rtf") (PInt 7) true
    = __init__ (fun _ => None) None (PBytes (blit "{\rtf1}")) true.
Proof.
  intros fs. split; [done|]. split; [done|].
  exact (file_or_buffer fs (fun _ => None) s#"a.rtf" (PInt 7)
           (blit "{\rtf1}") true ltac:(done) eq_refl).
Defined.

(** ** The flag [risky_items] *)

Lemma __init___uniform fs filename data :
  (∃ e, ∀ risky, __init__ fs filename data risky = Raise e)
  ∨ (∀ risky, __init__ fs filename data risky = Ok (fresh risky))
  ∨ (∃ b, ∀ risky, __init__ fs filename data risky = _parse_data b (fresh risky)).
Proof.
  destruct filename as [[|a f]|].
  - destruct data as [|b|b|s|n]; cbn.
    + by right; left.
    + destruct (negb _); [right; right; by exists b|by right; left].
    + destruct (negb _); [left; by eexists|by right; left].
    + destruct (negb _); [left; by eexists|by right; left].
    + destruct (negb _); [left; by eexists|by right; left].
  - destruct (fs (a :: f)) as [b|] eqn:Hfs.
    + right. right. exists b. intros risky. unfold __init__, _parse_file.
      rewrite Hfs. by destruct data.
    + left. exists FileNotFoundError. intros risky.
      unfold __init__, _parse_file. rewrite Hfs. by destruct data.
  - destruct data as [|b|b|s|n]; cbn.
    + left; by eexists.
    + destruct (negb _); [right; right; by exists b|by right; left].
    + destruct (negb _); [left; by eexists|by right; left].
    + destruct (negb _); [left; by eexists|by right; left].
    + destruct (negb _); [left; by eexists|by right; left].
Qed.

Lemma found_loose_risky text :
  found_loose true text = list_to_set (info_groups text) ∪ found_loose false text.
Proof. unfold found_loose. set_solver. Qed.

(** X6: the flag [risky_items] decides nothing but the metadata: the
    constructor raises the same exception with and without it, and when it
    returns, the object built with the flag has the same text and the same
    strict strings, the loose strings of the other object together with the
    metadata groups found in the text, and the same observations followed
    by [OBS005] if there is such a group. *)
Theorem risky_items_effect fs filename data :
  match __init__ fs filename data true, __init__ fs filename data false with
  | Ok self1, Ok self0 =>
      _data self1 = _data self0
      ∧ strict_strings (results self1) = strict_strings (results self0)
      ∧ loose_strings (results self1)
        = match _data self0 with
          | Some text => list_to_set (info_groups text)
          | None => ∅
          end ∪ loose_strings (results self0)
      ∧ observations (results self1)
        = observations (results self0)
          ++ match _data self0 with
             | Some text => once "OBS005" (info_groups text)
             | None => []
             end
  | Raise e1, Raise e0 => e1 = e0
  | _, _ => False
  end.
Proof.
  destruct (__init___uniform fs filename data) as [[e H]|[H|[b H]]];
    rewrite !H; [done| |].
  - cbn. split; [done|]. split; [done|]. split; [set_solver|done].
  - destruct (decide (slice 0 4 (decode_ascii_ignore b) = magic)) as [Hm|Hm].
    + rewrite !(_parse_data_summary _ _ Hm). unfold with_data.
      cbn [_data results _risky_items fresh].
      rewrite !extend_strict, !extend_loose, !extend_observations.
      cbn [fresh results loose_strings strict_strings observations app].
      split; [done|]. split; [done|]. split.
      * rewrite found_loose_risky. set_solver.
      * unfold found_observations. rewrite app_nil_r.
        by rewrite <- !(assoc_L (++)).
    + by rewrite !(_parse_data_bad_magic _ _ Hm).
Qed.

(** ** An object that has analysed nothing *)

(** X7: the constructor returns an object that has analysed nothing, one
    without [_data], exactly when the file name is [None] or empty and the
    buffer is false in Python's sense (and not both are [None], which
    raises); the results of such an object are empty. *)
Theorem constructor_without_text fs filename data risky self :
  __init__ fs filename data risky = Ok self →
  (_data self = None ↔ nothing_to_parse filename data = true)
  ∧ (_data self = None → results self = Results ∅ ∅ []).
Proof.
  intros Hok.
  assert (Hp : ∀ b, _parse_data b (fresh risky) = Ok self → _data self ≠ None).
  { intros b H.
    destruct (decide (slice 0 4 (decode_ascii_ignore b) = magic)) as [Hm|Hm].
    - rewrite (_parse_data_summary _ _ Hm) in H. by injection H as <-.
    - by rewrite (_parse_data_bad_magic _ _ Hm) in H. }
  assert (Hcase : (nothing_to_parse filename data = true ∧ self = fresh risky)
                  ∨ (nothing_to_parse filename data = false
                     ∧ ∃ b, _parse_data b (fresh risky) = Ok self)).
  { destruct filename as [[|a f]|].
    - destruct data as [|b|b|s|n]; cbn in Hok |- *.
      + left. split; [done|]. by injection Hok.
      + unfold nothing_to_parse. cbn. destruct (negb _).
        * right. split; [done|]. by exists b.
        * left. split; [done|]. by injection Hok.
      + unfold nothing_to_parse. cbn. destruct (negb _); [done|].
        left. split; [done|]. by injection Hok.
      + unfold nothing_to_parse. cbn. destruct (negb _); [done|].
        left. split; [done|]. by injection Hok.
      + unfold nothing_to_parse. cbn. destruct (negb _); [done|].
        left. split; [done|]. by injection Hok.
    - right. split; [done|].
      assert (H : __init__ fs (Some (a :: f)) data risky
                  = _parse_file fs (a :: f) (fresh risky)) by (by destruct data).
      rewrite H in Hok. unfold _parse_file in Hok.
      destruct (fs (a :: f)) as [b|]; [by exists b|done].
    - destruct data as [|b|b|s|n]; cbn in Hok |- *.
      + done.
      + unfold nothing_to_parse. cbn. destruct (negb _).
        * right. split; [done|]. by exists b.
        * left. split; [done|]. by injection Hok.
      + unfold nothing_to_parse. cbn. destruct (negb _); [done|].
        left. split; [done|]. by injection Hok.
      + unfold nothing_to_parse. cbn. destruct (negb _); [done|].
        left. split; [done|]. by injection Hok.
      + unfold nothing_to_parse. cbn. destruct (negb _); [done|].
        left. split; [done|]. by injection Hok. }
  destruct Hcase as [[Hn ->]|[Hn [b Hb]]].
  - by rewrite Hn.
  - rewrite Hn. specialize (Hp b Hb). split; [split; [done|done]|done].
Qed.

Lemma constructor_without_text_witness :
  __init__ (fun _ => None) (Some []) (PStr []) true = Ok (fresh true)
  ∧ nothing_to_parse (Some []) (PStr []) = true
  ∧ results (fresh true) = Results ∅ ∅ [].
Proof.
  assert (Hok : __init__ (fun _ => None) (Some []) (PStr []) true
                = Ok (fresh true)) by reflexivity.
  split; [exact Hok|].
  destruct (constructor_without_text _ _ _ _ _ Hok) as [Hiff Hres].
  split; [by apply Hiff|by apply Hres].
Defined.

(** ** The strings are parts of the text *)

Lemma part_of_refl {A} (s : list A) : part_of s s.
Proof. exists [], []. by rewrite app_nil_r. Qed.

Lemma part_of_trans {A} (x y z : list A) : part_of x y → part_of y z → part_of x z.
Proof.
  intros (p1 & q1 & ->) (p2 & q2 & ->). exists (p2 ++ p1), (q1 ++ q2).
  by rewrite <- !(assoc_L (++)).
Qed.

Lemma part_of_app_l {A} (x s t : list A) : part_of x s → part_of x (t ++ s).
Proof.
  intros (p & q & ->). exists (t ++ p), q. by rewrite <- !(assoc_L (++)).
Qed.

Lemma part_of_app_r {A} (x s t : list A) : part_of x s → part_of x (s ++ t).
Proof.
  intros (p & q & ->). exists p, (q ++ t). by rewrite <- !(assoc_L (++)).
Qed.

Lemma part_of_cons {A} (x s : list A) a : part_of x s → part_of x (a :: s).
Proof. apply (part_of_app_l x s [a]). Qed.

Lemma part_of_prefix {A} (x t : list A) : part_of x (x ++ t).
Proof. apply part_of_app_r, part_of_refl. Qed.

Lemma part_of_suffix {A} (x t : list A) : part_of x (t ++ x).
Proof. apply part_of_app_l, part_of_refl. Qed.

Lemma part_of_length {A} (x s : list A) : part_of x s → length x ≤ length s.
Proof. intros (p & q & ->). rewrite !length_app. lia. Qed.

Lemma part_of_map {A B} (f : A → B) (x s : list A) :
  part_of x s → part_of (map f x) (map f s).
Proof. intros (p & q & ->). exists (map f p), (map f q). by rewrite !map_app. Qed.

Lemma part_of_lstrip s : part_of (lstrip s) s.
Proof.
  induction s as [|a s IH]; [apply part_of_refl|]. cbn [lstrip].
  destruct (isspace a); [by apply part_of_cons|apply part_of_refl].
Qed.

Lemma part_of_rev {A} (x s : list A) : part_of x s → part_of (rev x) (rev s).
Proof.
  intros (p & q & ->). exists (rev q), (rev p).
  by rewrite !rev_app_distr, <- !(assoc_L (++)).
Qed.

Lemma part_of_rstrip s : part_of (rstrip s) s.
Proof.
  unfold rstrip. rewrite <- (rev_involutive s) at 2.
  apply part_of_rev, part_of_lstrip.
Qed.

Lemma part_of_strip s : part_of (strip s) s.
Proof.
  unfold strip. eapply part_of_trans; [apply part_of_rstrip|apply part_of_lstrip].
Qed.

Lemma everywhere_elem_at {M} (f : str → option (M * str)) s x :
  x ∈ everywhere f s → ∃ pre t rest, s = pre ++ t ∧ f t = Some (x, rest).
Proof.
  induction s as [|a s IH].
  - rewrite everywhere_nil. destruct (f []) as [[m r]|] eqn:Hf.
    + intros ->%list_elem_of_singleton. by exists [], [], r.
    + by intros ?%elem_of_nil.
  - rewrite everywhere_cons. destruct (f (a :: s)) as [[m r]|] eqn:Hf.
    + intros [->|Hin]%elem_of_cons; [by exists [], (a :: s), r|].
      destruct (IH Hin) as (pre & t & rest & -> & Ht).
      by exists (a :: pre), t, rest.
    + intros Hin. destruct (IH Hin) as (pre & t & rest & -> & Ht).
      by exists (a :: pre), t, rest.
Qed.

Lemma first_at_Some {M} (f : str → option (M * str)) s m :
  first_at f s = Some m → ∃ pre t rest, s = pre ++ t ∧ f t = Some (m, rest).
Proof.
  induction s as [|a s IH]; cbn [first_at].
  - destruct (f []) as [[m' r]|] eqn:Hf; [|done].
    intros [= ->]. by exists [], [], r.
  - destruct (f (a :: s)) as [[m' r]|] eqn:Hf.
    + intros [= ->]. by exists [], (a :: s), r.
    + intros H. destruct (IH H) as (pre & t & rest & -> & Ht).
      by exists (a :: pre), t, rest.
Qed.

Lemma rsidtbl_at_shape t body rest :
  rsidtbl_at t = Some (body, rest) →
  ∃ a, t = (backslash :: "*"%char :: backslash :: s#"rsidtbl")
           ++ a :: body ++ "}"%char :: rest
       ∧ isspace a = true
       ∧ body ≠ [] ∧ Forall (fun a => not_rbrace a = true) body.
Proof.
  unfold rsidtbl_at.
  destruct (word_at _ t) as [r|] eqn:Hw; [|done].
  apply word_at_Some in Hw as ->. cbn [mbind option_bind].
  destruct r as [|a r]; [done|]. destruct (isspace a) eqn:Ha; [|done].
  destruct (run_at not_rbrace r) as [[b r2]|] eqn:Hr; [|done].
  cbn [mbind option_bind]. pose proof (run_at_Forall _ _ _ _ Hr) as HF.
  apply run_at_Some in Hr as (-> & _ & _ & Hne).
  destruct r2 as [|c r2]; [done|].
  intros H. exists a.
  assert (Hc : c = "}"%char ∧ b = body ∧ r2 = rest).
  { destruct c as [[] [] [] [] [] [] [] []]; try done. by injection H as -> ->. }
  destruct Hc as (-> & -> & ->). done.
Qed.

Lemma lstrip_app_keeps l a : isspace a = false → lstrip (l ++ [a]) ≠ [].
Proof.
  intros Ha. induction l as [|b l IH]; cbn [lstrip app].
  - by rewrite Ha.
  - by destruct (isspace b).
Qed.

Lemma rstrip_cons_keeps a s : isspace a = false → rstrip (a :: s) ≠ [].
Proof.
  intros Ha H. unfold rstrip in H. cbn [rev] in H.
  apply (f_equal (@rev ascii)) in H. rewrite rev_involutive in H.
  by apply (lstrip_app_keeps (rev s) a Ha).
Qed.

Lemma startswith_nonempty w a (s : str) : startswith (a :: w) s = true → s ≠ [].
Proof. by destruct s. Qed.

Lemma elem_of_map {A B} (f : A → B) (l : list A) y :
  y ∈ map f l ↔ ∃ x, y = f x ∧ x ∈ l.
Proof.
  rewrite list_elem_of_In, in_map_iff. split.
  - intros (x & <- & Hx). exists x. by rewrite list_elem_of_In.
  - intros (x & -> & Hx). exists x. by rewrite <- list_elem_of_In.
Qed.

Lemma elem_of_flat_map {A B} (f : A → list B) (l : list A) y :
  y ∈ flat_map f l ↔ ∃ x, x ∈ l ∧ y ∈ f x.
Proof.
  rewrite list_elem_of_In, in_flat_map. split.
  - intros (x & Hx & Hy). exists x. by rewrite !list_elem_of_In.
  - intros (x & Hx & Hy). exists x. by rewrite <- !list_elem_of_In.
Qed.

Lemma marker_tokens_elem text x :
  x ∈ marker_tokens text →
  ∃ marker id pre rest,
    x = marker ++ id ∧ id ≠ []
    ∧ text = pre ++ backslash :: (marker ++ id) ++ rest.
Proof.
  unfold marker_tokens. intros Hin.
  apply elem_of_flat_map in Hin as (marker & _ & Hin).
  apply elem_of_map in Hin as (id & -> & Hin).
  apply everywhere_elem_at in Hin as (pre & t & rest & -> & Ht).
  apply marker_at_shape in Ht as (-> & _ & Hne).
  by exists marker, id, pre, rest.
Qed.

Lemma table_ids_elem payload id :
  id ∈ table_ids payload →
  id ≠ [] ∧ part_of (backslash :: s#"rsid" ++ id) payload.
Proof.
  intros Hin. apply everywhere_elem_at in Hin as (pre & t & rest & -> & Ht).
  apply marker_at_shape in Ht as (-> & _ & Hne). split; [done|].
  exists pre, rest. by rewrite <- !(assoc_L (++)).
Qed.

Lemma rsidtbl_payload_part text payload :
  rsidtbl_payload text = Some payload → part_of payload text.
Proof.
  unfold rsidtbl_payload.
  destruct (first_at rsidtbl_at text) as [body|] eqn:Hf; [|done].
  intros [= <-]. apply first_at_Some in Hf as (pre & t & rest & -> & Ht).
  apply rsidtbl_at_shape in Ht as (a & -> & _).
  eapply part_of_trans; [apply part_of_strip|].
  exists (pre ++ (backslash :: "*"%char :: backslash :: s#"rsidtbl") ++ [a]),
    ("}"%char :: rest).
  by rewrite <- !(assoc_L (++)).
Qed.

Lemma table_loose_elem text x :
  x ∈ table_loose text → part_of x text ∧ x ≠ [].
Proof.
  unfold table_loose.
  destruct (rsidtbl_payload text) as [payload|] eqn:Hp; [|set_solver].
  intros [Hin|Hin]%elem_of_union.
  - apply elem_of_list_to_set, marker_tokens_elem in Hin
      as (marker & id & pre & rest & -> & Hne & ->).
    split.
    + exists (pre ++ [backslash]), rest. by rewrite <- !(assoc_L (++)).
    + intros [_ ?]%app_eq_nil. done.
  - apply elem_of_list_to_set, elem_of_map in Hin as (id & -> & Hin).
    apply table_ids_elem in Hin as [Hne Hpart]. split; [|done].
    eapply part_of_trans; [exact Hpart|by apply rsidtbl_payload_part].
Qed.

Lemma info_groups_elem text x :
  x ∈ info_groups text → part_of x text ∧ x ≠ [].
Proof.
  intros Hin. apply scan_elem in Hin as (pre & t & rest & -> & Ht).
  apply info_group_at_shape in Ht as (-> & ws & tag & a & v & -> & _).
  split; [by exists pre, rest|done].
Qed.

Lemma size_runs_elem text x :
  x ∈ map rstrip (size_runs text) → part_of x text ∧ x ≠ [].
Proof.
  intros Hin. apply elem_of_map in Hin as (r & -> & Hin).
  apply scan_elem in Hin as (pre & t & rest & -> & Ht).
  apply size_run_at_shape in Ht as (-> & [r' ->] & _). split.
  - eapply part_of_trans; [apply part_of_rstrip|]. by exists pre, rest.
  - by apply rstrip_cons_keeps.
Qed.

Lemma bliptags_elem text x : x ∈ bliptags text → part_of x text ∧ x ≠ [].
Proof.
  intros Hin. apply everywhere_elem_at in Hin as (pre & t & rest & -> & Ht).
  apply bliptag_at_shape in Ht as (-> & _ & Hs). split.
  - exists (pre ++ [backslash]), rest. by rewrite <- !(assoc_L (++)).
  - by apply startswith_nonempty in Hs.
Qed.

Lemma blipuids_elem text w u :
  (w, u) ∈ blipuids text →
  part_of w text ∧ w ≠ [] ∧ part_of u text ∧ u ≠ [].
Proof.
  intros Hin. apply everywhere_elem_at in Hin as (pre & t & rest & -> & Ht).
  apply blipuid_at_shape in Ht as (-> & _ & Hs & ws & Hw & _ & _ & Hu & _).
  assert (Hpw : part_of w (pre ++ backslash :: w ++ rest)).
  { exists (pre ++ [backslash]), rest. by rewrite <- !(assoc_L (++)). }
  split; [done|]. split; [by apply startswith_nonempty in Hs|].
  split; [|done]. eapply part_of_trans; [|exact Hpw].
  rewrite Hw. exists (s#"blipuid" ++ ws), []. by rewrite app_nil_r, <- !(assoc_L (++)).
Qed.

Lemma found_loose_elem risky text x :
  x ∈ found_loose risky text → part_of x text ∧ x ≠ [].
Proof.
  unfold found_loose. rewrite !elem_of_union.
  intros [[[Hin|Hin]|[Hin|Hin]]|Hin].
  - destruct risky; [|set_solver].
    by apply elem_of_list_to_set, info_groups_elem in Hin.
  - by apply elem_of_list_to_set, size_runs_elem in Hin.
  - apply elem_of_list_to_set, elem_of_map in Hin as ([w u] & -> & Hin).
    apply blipuids_elem in Hin. tauto.
  - by apply elem_of_list_to_set, bliptags_elem in Hin.
  - by apply table_loose_elem.
Qed.

Lemma found_strict_elem text x :
  x ∈ found_strict text →
  part_of x text ∧ (x = [] → rsidtbl_payload text = Some []).
Proof.
  unfold found_strict, table_strict. rewrite elem_of_union.
  intros [Hin|Hin].
  - apply elem_of_list_to_set, elem_of_map in Hin as ([w u] & -> & Hin).
    apply blipuids_elem in Hin. cbn [fst]. split; [tauto|]. intros ?. exfalso. tauto.
  - destruct (rsidtbl_payload text) as [payload|] eqn:Hp; [|set_solver].
    apply elem_of_singleton in Hin as ->. split; [|by intros ->].
    by apply rsidtbl_payload_part.
Qed.

(** X8: every loose string and every strict string of an object that the
    constructor returns is a contiguous part of the text that the object
    keeps in [_data]. *)
Theorem strings_are_parts_of_the_text fs filename data risky self x :
  __init__ fs filename data risky = Ok self →
  x ∈ loose_strings (results self) ∪ strict_strings (results self) →
  ∃ text, _data self = Some text ∧ part_of x text.
Proof.
  intros Hok Hin.
  destruct (__init___returns _ _ _ _ _ Hok) as [->|(b & Hm & ->)];
    [set_solver|].
  exists (decode_ascii_ignore b). split; [done|].
  unfold with_data in Hin. cbn [results] in Hin.
  rewrite extend_loose, extend_strict in Hin.
  cbn [fresh results loose_strings strict_strings] in Hin.
  rewrite !elem_of_union in Hin. destruct Hin as [[Hin|Hin]|[Hin|Hin]].
  - by apply found_loose_elem in Hin as [? _].
  - set_solver.
  - by apply found_strict_elem in Hin as [? _].
  - set_solver.
Qed.

Lemma found_strict_payload text payload :
  rsidtbl_payload text = Some payload → payload ∈ found_strict text.
Proof. intros Hp. unfold found_strict, table_strict. rewrite Hp. set_solver. Qed.

Lemma strings_are_parts_of_the_text_witness :
  let data := blit "{\rtf1}{\*\rsidtbl \rsid1234}" in
  ∃ self,
    __init__ (fun _ => None) None (PBytes data) true = Ok self
    ∧ s#"\rsid1234" ∈ loose_strings (results self) ∪ strict_strings (results self)
    ∧ ∃ text, _data self = Some text ∧ part_of s#"\rsid1234" text.
Proof.
  intros data.
  pose proof (__init___buffer (fun _ => None) true data
    ltac:(done) ltac:(by vm_compute)) as Hok.
  eexists. split; [exact Hok|].
  match type of Hok with
  | _ = Ok ?s =>
      assert (Hin : s#"\rsid1234" ∈ loose_strings (results s)
                                  ∪ strict_strings (results s))
  end.
  { apply elem_of_union_r. unfold with_data. cbn [results].
    rewrite extend_strict. apply elem_of_union_l, found_strict_payload.
    by vm_compute. }
  split; [exact Hin|].
  exact (strings_are_parts_of_the_text _ _ _ _ _ _ Hok Hin).
Defined.

(** X9: the empty string is never among the loose strings. *)
Theorem loose_strings_are_not_empty fs filename data risky self :
  __init__ fs filename data risky = Ok self →
  [] ∉ loose_strings (results self).
Proof.
  intros Hok Hin.
  destruct (__init___returns _ _ _ _ _ Hok) as [->|(b & Hm & ->)];
    [set_solver|].
  unfold with_data in Hin. cbn [results] in Hin. rewrite extend_loose in Hin.
  cbn [fresh results loose_strings] in Hin.
  apply elem_of_union in Hin as [Hin|Hin]; [|set_solver].
  by apply found_loose_elem in Hin as [_ ?].
Qed.

Lemma loose_strings_are_not_empty_witness :
  ∃ self,
    __init__ (fun _ => None) None (PBytes (blit "{\rtf1}{\*\rsidtbl  }")) true
    = Ok self
    ∧ [] ∉ loose_strings (results self).
Proof.
  pose proof (__init___buffer (fun _ => None) true
    (blit "{\rtf1}{\*\rsidtbl  }") ltac:(done) ltac:(by vm_compute)) as Hok.
  eexists. split; [exact Hok|].
  exact (loose_strings_are_not_empty _ _ _ _ _ Hok).
Defined.

(** X10: the empty string is among the strict strings exactly when the
    payload of the revision table, stripped, is empty, which is when the
    table holds nothing but whitespace. *)
Theorem empty_strict_string fs filename data risky self :
  __init__ fs filename data risky = Ok self →
  [] ∈ strict_strings (results self)
  ↔ ∃ text, _data self = Some text ∧ rsidtbl_payload text = Some [].
Proof.
  intros Hok.
  destruct (__init___returns _ _ _ _ _ Hok) as [->|(b & Hm & ->)].
  - split; [set_solver|]. by intros (text & ? & _).
  - unfold with_data. cbn [results _data]. rewrite extend_strict.
    cbn [fresh results strict_strings]. split.
    + intros [Hin|Hin]%elem_of_union; [|set_solver].
      apply found_strict_elem in Hin as [_ Hp].
      exists (decode_ascii_ignore b). split; [done|by apply Hp].
    + intros (text & [= <-] & Hp). by apply elem_of_union_l, found_strict_payload.
Qed.

Lemma empty_strict_string_witness :
  ∃ self,
    __init__ (fun _ => None) None (PBytes (blit "{\rtf1}{\*\rsidtbl  }")) true
    = Ok self
    ∧ [] ∈ strict_strings (results self).
Proof.
  pose proof (__init___buffer (fun _ => None) true
    (blit "{\rtf1}{\*\rsidtbl  }") ltac:(done) ltac:(by vm_compute)) as Hok.
  eexists. split; [exact Hok|].
  apply (empty_strict_string _ _ _ _ _ Hok).
  eexists. split; [reflexivity|]. by vm_compute.
Defined.

(** ** The strings and the bytes of the file *)

Lemma decode_ascii_only data :
  Forall (fun b => (Byte.to_N b < 128)%N) data →
  decode_ascii_ignore data = map chr data.
Proof.
  intros HF. unfold decode_ascii_ignore. f_equal.
  induction HF as [|b data Hb _ IH]; [done|].
  rewrite filter_cons, IH.
  destruct (decide _) as [_|Hn]; [done|].
  exfalso. apply Hn. apply Is_true_true. by apply N.ltb_lt.
Qed.

Lemma encode_decode data : encode_ascii (map chr data) = data.
Proof.
  unfold encode_ascii, chr. rewrite map_map.
  induction data as [|b data IH]; [done|]. cbn [map].
  by rewrite IH, byte_of_ascii_of_byte.
Qed.

(** X11: when all the bytes of the input are below 128, every string that
    [_parse_data] adds occurs, encoded, as a contiguous run of bytes of the
    input. *)
Theorem strings_occur_in_an_ascii_file data self self' x :
  Forall (fun b => (Byte.to_N b < 128)%N) data →
  _parse_data data self = Ok self' →
  x ∈ loose_strings (results self') ∪ strict_strings (results self') →
  x ∈ loose_strings (results self) ∪ strict_strings (results self)
  ∨ part_of (encode_ascii x) data.
Proof.
  intros HF Hok Hin.
  destruct (decide (slice 0 4 (decode_ascii_ignore data) = magic)) as [Hm|Hm];
    [|by rewrite (_parse_data_bad_magic _ _ Hm) in Hok].
  rewrite (_parse_data_summary _ _ Hm) in Hok. injection Hok as <-.
  unfold with_data in Hin. cbn [results] in Hin.
  rewrite extend_loose, extend_strict in Hin.
  assert (Hpart : part_of x (decode_ascii_ignore data)
                  → part_of (encode_ascii x) data).
  { intros Hp. apply (part_of_map byte_of_ascii) in Hp.
    rewrite (decode_ascii_only data HF) in Hp.
    by rewrite (encode_decode data : map byte_of_ascii _ = _) in Hp. }
  rewrite !elem_of_union in Hin. destruct Hin as [[Hin|Hin]|[Hin|Hin]].
  - right. by apply Hpart, (found_loose_elem _ _ _ Hin).
  - left. set_solver.
  - right. by apply Hpart, (found_strict_elem _ _ Hin).
  - left. set_solver.
Qed.

Lemma found_loose_bliptag risky text x :
  x ∈ bliptags text → x ∈ found_loose risky text.
Proof. intros Hin. unfold found_loose. set_solver. Qed.

Lemma strings_occur_in_an_ascii_file_witness :
  let data := blit "{\rtf1}\bliptag12" in
  ∃ self',
    Forall (fun b => (Byte.to_N b < 128)%N) data
    ∧ _parse_data data (fresh true) = Ok self'
    ∧ s#"bliptag12" ∈ loose_strings (results self') ∪ strict_strings (results self')
    ∧ (s#"bliptag12" ∈ loose_strings (results (fresh true))
                      ∪ strict_strings (results (fresh true))
       ∨ part_of (encode_ascii s#"bliptag12") data).
Proof.
  intros data.
  assert (HF : Forall (fun b => (Byte.to_N b < 128)%N) data)
    by (repeat (constructor; [done|]); constructor).
  pose proof (_parse_data_summary data (fresh true) ltac:(by vm_compute)) as Hok.
  eexists. split; [exact HF|]. split; [exact Hok|].
  match type of Hok with
  | _ = Ok ?s =>
      assert (Hin : s#"bliptag12" ∈ loose_strings (results s)
                                   ∪ strict_strings (results s))
  end.
  { apply elem_of_union_l. unfold with_data. cbn [results].
    rewrite extend_loose. apply elem_of_union_l, found_loose_bliptag.
    vm_compute. left. }
  split; [exact Hin|].
  exact (strings_occur_in_an_ascii_file data _ _ _ HF Hok Hin).
Defined.

(** ** Bytes outside ASCII *)

Lemma preamble_filter data :
  filter (fun ref => ref ≠ "OBS001"%string) (preamble data)
  = if negb (bool_decide (slice 4 6 (decode_ascii_ignore data) = s#"f1"))
    then ["OBS002"%string] else [].
Proof.
  unfold preamble. rewrite filter_app.
  by destruct (nonprintable data), (negb _).
Qed.

(** X12: two inputs that decode to the same text, such as an input and the
    same input with bytes above 127 put in, are analysed alike: the same
    exception, or the same text, the same strings and, [OBS001] apart, the
    same observations. *)
Theorem bytes_outside_ascii_are_skipped data data' self :
  decode_ascii_ignore data' = decode_ascii_ignore data →
  match _parse_data data self, _parse_data data' self with
  | Ok a, Ok a' =>
      _data a' = _data a
      ∧ loose_strings (results a') = loose_strings (results a)
      ∧ strict_strings (results a') = strict_strings (results a)
      ∧ filter (fun ref => ref ≠ "OBS001"%string) (observations (results a'))
        = filter (fun ref => ref ≠ "OBS001"%string) (observations (results a))
  | Raise e, Raise e' => e' = e
  | _, _ => False
  end.
Proof.
  intros Hd.
  destruct (decide (slice 0 4 (decode_ascii_ignore data) = magic)) as [Hm|Hm].
  - rewrite (_parse_data_summary data _ Hm).
    rewrite (_parse_data_summary data' _ ltac:(by rewrite Hd)).
    unfold with_data. cbn [results _data].
    rewrite !extend_loose, !extend_strict, !extend_observations, Hd.
    repeat split. rewrite !filter_app, !preamble_filter. by rewrite Hd.
  - rewrite (_parse_data_bad_magic data _ Hm).
    by rewrite (_parse_data_bad_magic data' _ ltac:(by rewrite Hd)).
Qed.

Lemma bytes_outside_ascii_are_skipped_witness :
  let data := blit "{\rtf1}\bliptag12" in
  let data' := blit "{\rtf1}\blip" ++ [Byte.xff] ++ blit "tag1" ++ [Byte.x80] ++ blit "2" in
  decode_ascii_ignore data' = decode_ascii_ignore data
  ∧ ∃ a a',
      _parse_data data (fresh true) = Ok a
      ∧ _parse_data data' (fresh true) = Ok a'
      ∧ loose_strings (results a') = loose_strings (results a).
Proof.
  intros data data'.
  assert (Hd : decode_ascii_ignore data' = decode_ascii_ignore data)
    by (by vm_compute).
  split; [exact Hd|].
  pose proof (bytes_outside_ascii_are_skipped data data' (fresh true) Hd) as H.
  pose proof (_parse_data_summary data (fresh true) ltac:(by vm_compute)) as Ha.
  pose proof (_parse_data_summary data' (fresh true) ltac:(by vm_compute)) as Ha'.
  rewrite Ha, Ha' in H. eexists _, _. split; [exact Ha|]. split; [exact Ha'|].
  exact (proj1 (proj2 H)).
Defined.

Import Yara YaraText App Program.

(** * The rule generator *)

Lemma replace_one c new (s : str) :
  replace [c] new s
  = flat_map (fun a => if Ascii.eqb c a then new else [a]) s.
Proof.
  unfold replace. induction s as [|a s IH]; [done|].
  cbn [replace_from startswith flat_map length Nat.sub].
  rewrite andb_true_r. destruct (Ascii.eqb c a); by rewrite IH.
Qed.

Lemma safe_string_cons a s : safe_string (a :: s) = escape_char a ++ safe_string s.
Proof.
  unfold safe_string. rewrite !replace_one. cbn [flat_map].
  rewrite flat_map_app. f_equal. unfold escape_char.
  rewrite (Ascii.eqb_sym a backslash), (Ascii.eqb_sym a quote).
  destruct (Ascii.eqb backslash a) eqn:Hb.
  - apply Ascii.eqb_eq in Hb as <-. reflexivity.
  - cbn [flat_map]. rewrite app_nil_r. by destruct (Ascii.eqb quote a).
Qed.

(** X13: the two replacements of [generate_yara_rule], one after the
    other, work character by character: a backslash becomes two
    backslashes, a double quote becomes a backslash and the quote, and
    every other character stays. *)
Theorem safe_string_by_character s : safe_string s = flat_map escape_char s.
Proof.
  induction s as [|a s IH]; [done|]. by rewrite safe_string_cons, IH.
Qed.

Lemma read_literal_escape_char a t :
  read_literal (escape_char a ++ t)
  = '(s, rest) ← read_literal t; Some (a :: s, rest).
Proof.
  unfold escape_char. destruct (Ascii.eqb a backslash) eqn:Hb.
  - apply Ascii.eqb_eq in Hb as ->. reflexivity.
  - destruct (Ascii.eqb a quote) eqn:Hq.
    + apply Ascii.eqb_eq in Hq as ->. reflexivity.
    + cbn [app read_literal]. by rewrite Hq, Hb.
Qed.

Lemma read_literal_safe_string s rest :
  read_literal (safe_string s ++ [quote] ++ rest) = Some (s, rest).
Proof.
  induction s as [|a s IH]; [done|].
  rewrite safe_string_cons, <- (assoc_L (++)), read_literal_escape_char, IH.
  done.
Qed.


Lemma render_lines ctx l :
  lists ctx !! "strings"%string = Some l →
  render_node ctx
    (For "string" "strings"
       [ Text (s#"$ = " ++ [quote]);
         Var "string";
         Text ([quote] ++ s#" ascii" ++ [newline] ++ s#"    ") ])
  = flat_map (fun v => line_start ++ v ++ [quote] ++ line_end) l.
Proof.
  intros Hl. cbn [render_node]. rewrite Hl. cbn [default from_option id].
  apply flat_map_ext. intros v.
  cbn [flat_map render_node bind_scalar scalars]. rewrite lookup_insert_eq.
  cbn [default from_option id]. by rewrite app_nil_r.
Qed.

Lemma flat_map_map {A B C} (f : B → list C) (g : A → B) (l : list A) :
  flat_map f (map g l) = flat_map (fun x => f (g x)) l.
Proof. induction l as [|x l IH]; [done|]. cbn [map flat_map]. by rewrite IH. Qed.

Lemma generate_yara_rule_layout name description strings :
  generate_yara_rule name description strings
  = rule_head name description ++ flat_map string_line strings ++ rule_tail.
Proof.
  unfold generate_yara_rule, render, RULE_TEMPLATE. cbn [flat_map].
  rewrite (render_lines _ (map safe_string strings))
    by apply lookup_singleton_eq.
  rewrite flat_map_map. cbn [render_node scalars].
  repeat first [ rewrite lookup_insert_eq
               | rewrite lookup_singleton_eq
               | rewrite lookup_insert_ne by done ].
  cbn [default from_option id].
  change (fun x => line_start ++ safe_string x ++ [quote] ++ line_end)
    with string_line.
  unfold rule_head, rule_tail. rewrite app_nil_r, <- !(assoc_L (++)).
  reflexivity.
Qed.

Lemma length_flat_map_ge {A B} (f : A → list B) (l : list A) :
  (∀ x, 1 ≤ length (f x)) → length l ≤ length (flat_map f l).
Proof.
  intros Hf. induction l as [|x l IH]; [done|].
  cbn [flat_map length]. rewrite length_app. specialize (Hf x). lia.
Qed.

Lemma read_lines_string_lines n strings rest :
  length strings ≤ n →
  word_at line_start rest = None →
  read_lines n (flat_map string_line strings ++ rest) = Some (strings, rest).
Proof.
  intros Hn Hrest. revert n Hn.
  induction strings as [|s strings IH]; intros n Hn.
  - destruct n; cbn [flat_map app read_lines]; by rewrite Hrest.
  - destruct n as [|n]; [cbn in Hn; lia|].
    cbn [flat_map read_lines]. unfold string_line at 1.
    rewrite <- !(assoc_L (++)), word_at_app.
    cbn [mbind option_bind].
    rewrite (read_literal_safe_string s). cbn [mbind option_bind].
    rewrite word_at_app. cbn [mbind option_bind].
    rewrite IH by (cbn in Hn; lia). done.
Qed.

(** X15: a generated rule is the head with the name, the description and
    the version 0.1.0, one line for each string in the order given, and the
    condition; reading the lines back gives the strings that were passed
    in. *)
Theorem rule_strings_read_back name description strings :
  ∃ body,
    generate_yara_rule name description strings
    = rule_head name description ++ body
    ∧ read_strings body = Some (strings, rule_tail).
Proof.
  exists (flat_map string_line strings ++ rule_tail).
  split; [apply generate_yara_rule_layout|].
  unfold read_strings. apply read_lines_string_lines; [|done].
  rewrite length_app.
  assert (H : ∀ x, 1 ≤ length (string_line x)).
  { intros x. unfold string_line, line_start. rewrite !length_app. cbn. lia. }
  pose proof (length_flat_map_ge string_line strings H). lia.
Qed.

(** * The console program *)

Lemma observations_known_found risky text :
  Forall (fun ref => is_Some (OBSERVATIONS !! ref)) (found_observations risky text).
Proof.
  assert (Hk : ∀ ref {A} (ms : list A), is_Some (OBSERVATIONS !! ref) →
            Forall (fun ref => is_Some (OBSERVATIONS !! ref)) (once ref ms)).
  { intros ref A [|m ms] H; repeat constructor. done. }
  unfold found_observations, table_observations. rewrite !Forall_app.
  split; [|split; [|split]].
  - destruct (rsidtbl_payload text) as [p|]; [|constructor].
    constructor; [by eexists|]. unfold cross_reference.
    apply Forall_forall. intros ref Hin.
    apply elem_of_flat_map in Hin as (id & _ & Hin).
    destruct (bool_decide _); [by apply elem_of_nil in Hin|].
    apply list_elem_of_singleton in Hin as ->. by eexists.
  - apply Hk. by eexists.
  - apply Hk. by eexists.
  - destruct risky; [|constructor]. apply Hk. by eexists.
Qed.

Lemma observations_known_preamble data :
  Forall (fun ref => is_Some (OBSERVATIONS !! ref)) (preamble data).
Proof.
  unfold preamble.
  destruct (nonprintable data), (negb _); repeat constructor; by eexists.
Qed.

Lemma forallb_known (O : list string) :
  Forall (fun ref => is_Some (OBSERVATIONS !! ref)) O →
  forallb (fun reference => bool_decide (is_Some (OBSERVATIONS !! reference))) O
  = true.
Proof.
  intros HF. apply forallb_forall. intros ref Hin.
  apply bool_decide_eq_true. rewrite Forall_forall in HF.
  by apply HF, list_elem_of_In.
Qed.

Lemma main_cases order fs args :
  main order fs args
  = match rtf_file args with
    | [] => (Return, [])
    | _ :: _ =>
        match fs (rtf_file args) with
        | None => (SysExit (-1), [])
        | Some b =>
            if bool_decide (slice 0 4 (decode_ascii_ignore b) = magic)
            then (Return, written order (yara args) (decode_ascii_ignore b))
            else (Uncaught (Analyser_error ParsingException), [])
        end
    end.
Proof.
  unfold main. destruct (rtf_file args) as [|a f] eqn:Hf; [done|].
  destruct (fs (a :: f)) as [b|] eqn:Hb.
  - rewrite (__init___file fs true (a :: f) PNone b ltac:(done) Hb).
    case_bool_decide as Hm.
    + rewrite (_parse_data_summary _ _ Hm). unfold with_data. cbn [results].
      rewrite extend_loose, extend_strict, extend_observations.
      cbn [fresh results loose_strings strict_strings observations app].
      rewrite !(right_id_L ∅ (∪)).
      rewrite forallb_known
        by (apply Forall_app; split;
            [apply observations_known_preamble|apply observations_known_found]).
      unfold written, rules, _save_yara_rules. cbn [app _risky_items fresh].
      by destruct (bool_decide (found_loose true _ ≠ ∅)),
        (bool_decide (found_strict _ ≠ ∅)), (yara args) as [[|c y]|].
    + by rewrite (_parse_data_bad_magic _ _ Hm).
  - assert (H : __init__ fs (Some (a :: f)) PNone true = Raise FileNotFoundError).
    { unfold __init__, _parse_file. by rewrite Hb. }
    by rewrite H.
Qed.



(** X17: when the file does not start with the RTF magic, [main] does not
    catch the [ParsingException] and writes nothing. *)
Theorem main_lets_the_parsing_exception_out order fs args b :
  rtf_file args ≠ [] →
  fs (rtf_file args) = Some b →
  slice 0 4 (decode_ascii_ignore b) ≠ magic →
  main order fs args = (Uncaught (Analyser_error ParsingException), []).
Proof.
  intros Hf Hfs Hm. rewrite main_cases, Hfs.
  destruct (rtf_file args); [done|]. by rewrite bool_decide_eq_false_2.
Qed.

Lemma main_lets_the_parsing_exception_out_witness :
  let args := Namespace s#"notes.txt" false (Some s#"out.yar") false in
  let fs : filesystem := fun _ => Some (blit "Dear all, {\rtf1}") in
  rtf_file args ≠ []
  ∧ slice 0 4 (decode_ascii_ignore (blit "Dear all, {\rtf1}")) ≠ magic
  ∧ main elements fs args = (Uncaught (Analyser_error ParsingException), []).
Proof.
  intros args fs.
  assert (Hm : slice 0 4 (decode_ascii_ignore (blit "Dear all, {\rtf1}")) ≠ magic)
    by (by vm_compute).
  split; [done|]. split; [exact Hm|].
  exact (main_lets_the_parsing_exception_out elements fs args _
           ltac:(done) eq_refl Hm).
Defined.









